(** * TwoPaCo junction enumeration: a shallow embedding and its properties

    The development follows [src/graphconstructor/vertexenumerator.h] and
    [src/common/junctionpositionapi.h].

    Conventions.
    - A [std::string] of bases is a [list ascii]; [s[i]] is [at_ s i],
      [s.substr(p, n)] is [substr s p n], [s.size()] is [length s].
    - [uint32_t] and [uint64_t] values are [Z] with the wrap-around written
      out ([u32], [u64]); indices into strings are [nat].
    - The binary junction file is a [list byte], little-endian. *)

From Stdlib Require Import ZArith Ascii List Lia Bool.
From coqutil Require Import Byte Word.LittleEndianList.
From stdpp Require Import base option list gmap strings pretty sorting.

Local Open Scope Z_scope.

(** ** Machine integers *)

Definition u32 (z : Z) : Z := z mod 2 ^ 32.
Definition u64 (z : Z) : Z := z mod 2 ^ 64.

(** Conversion of a value to the 32-bit [int] type (two's complement). *)
Definition to_int (z : Z) : Z :=
  let u := z mod 2 ^ 32 in if u <? 2 ^ 31 then u else u - 2 ^ 32.

(** ** Strings *)

Module StdString.

Definition at_ (s : list ascii) (i : nat) : ascii := nth i s "000"%char.

Definition substr (s : list ascii) (pos n : nat) : list ascii :=
  take n (drop pos s).

(** [std::string::compare]: characters are compared as unsigned bytes, a
    proper prefix is smaller. *)
Fixpoint compare (a b : list ascii) : comparison :=
  match a, b with
  | [], [] => Eq
  | [], _ :: _ => Lt
  | _ :: _, [] => Gt
  | x :: a', y :: b' =>
      match N.compare (N_of_ascii x) (N_of_ascii y) with
      | Eq => compare a' b'
      | c => c
      end
  end.

End StdString.

(** ** DnaChar *)

Module DnaChar.

(** Modelled from the spec: the header declaring [DnaChar] is not part of
    the sources at hand.  The spec fixes the alphabet [{A,C,G,T,N}], calls
    [A], [C], [G], [T] definite, gives the 2-bit codes [A=0, C=1, G=2, T=3]
    and describes the reverse complement as reversal with every code XORed
    with [0b11] (so [A<->T], [C<->G]).  Characters outside the alphabet are
    never passed to [MakeUpChar] or [ReverseChar] by the code modelled
    below; their images here are placeholders. *)
Definition LITERAL : list ascii := ["A"; "C"; "G"; "T"]%char.

Definition IsDefinite (ch : ascii) : bool :=
  match ch with
  | "A" | "C" | "G" | "T" => true
  | _ => false
  end%char.

Definition MakeUpChar (ch : ascii) : Z :=
  match ch with
  | "A" => 0 | "C" => 1 | "G" => 2 | "T" => 3
  | _ => 0
  end%char.

Definition ReverseChar (ch : ascii) : ascii :=
  match ch with
  | "A" => "T" | "C" => "G" | "G" => "C" | "T" => "A"
  | c => c
  end%char.

Definition ReverseCompliment (s : list ascii) : list ascii :=
  map ReverseChar (rev s).

End DnaChar.

(** Concrete base strings are written [dna "ACGT"]. *)
Definition dna (s : string) : list ascii := String.list_ascii_of_string s.

(** A string over [{A,C,G,T}]. *)
Definition definite (s : list ascii) : Prop :=
  Forall (fun c => DnaChar.IsDefinite c = true) s.

Definition definiteb (s : list ascii) : bool := forallb DnaChar.IsDefinite s.

(** ** Edge encoding: [convertToInt] and [getCanonicalVal]

    The three workers carry identical copies of both functions. *)

Section Encoding.

(** In [(MakeUpChar(edge[i]) & 0x03) << (2*i)] both operands have type
    [int]: the shift is a 32-bit signed shift, whose result is then
    converted to [uint64_t] by [ret += ...].  For a count in [0, 32) the
    result is the product reduced to [int]; for a count of 32 or more the
    language leaves the result open, and [shl_wide] stands for whatever the
    target produces there. *)
Variable shl_wide : Z -> Z -> Z.

Definition shl_int (a n : Z) : Z :=
  if (0 <=? n) && (n <? 32) then to_int (a * 2 ^ n) else shl_wide a n.

(** The loop of [convertToInt], from index [i] with accumulator [ret]. *)
Fixpoint convertToInt_loop (edge : list ascii) (i : Z) (ret : Z) : Z :=
  match edge with
  | [] => ret
  | ch :: rest =>
      convertToInt_loop rest (i + 1)
        (u64 (ret + shl_int (Z.land (DnaChar.MakeUpChar ch) 3) (2 * i)))
  end.

Definition convertToInt (edge : list ascii) : Z :=
  convertToInt_loop edge 0 0.

Definition getCanonicalVal (edge : list ascii) : Z :=
  let revEdge := DnaChar.ReverseCompliment edge in
  match StdString.compare edge revEdge with
  | Gt => convertToInt revEdge
  | _ => convertToInt edge
  end.

End Encoding.

(** The encoding the spec describes: base [i] in bits [2i..2i+1], that is
    the sum of [code(s[i]) * 4^i]. *)
Fixpoint packed (s : list ascii) : Z :=
  match s with
  | [] => 0
  | ch :: rest => DnaChar.MakeUpChar ch + 4 * packed rest
  end.

(** The lexicographically smaller of a string and its reverse complement,
    compared as strings. *)
Definition lex_min (a b : list ascii) : list ascii :=
  match StdString.compare b a with
  | Lt => b
  | _ => a
  end.

Definition canonical (e : list ascii) : list ascii :=
  lex_min e (DnaChar.ReverseCompliment e).

(** A target that masks the shift count to five bits, as x86 does. *)
Definition shl_masked (a n : Z) : Z := to_int (a * 2 ^ (n mod 32)).

(** ** The junction position file ([junctionpositionapi.h]) *)

Module JunctionApi.

Record JunctionPosition : Type := mkJunctionPosition
  { chr_ : Z; pos_ : Z; bifId_ : Z }.

(** The three-argument constructor; the arguments are narrowed to the
    field types. *)
Definition JunctionPosition_ (chr pos bifId : Z) : JunctionPosition :=
  {| chr_ := u32 chr; pos_ := u32 pos; bifId_ := u64 bifId |}.

Definition SEPARATOR_POS : Z := u32 (-1).
Definition SEPARATOR_BIF : Z := u64 (-1).

(** A value of the struct: every field within its type. *)
Definition wf (p : JunctionPosition) : Prop :=
  0 <= chr_ p < 2 ^ 32 /\ 0 <= pos_ p < 2 ^ 32 /\ 0 <= bifId_ p < 2 ^ 64.

(** *** Writer *)

Record JunctionPositionWriter : Type :=
  { w_nowChr : Z; w_out : list byte }.

Definition writer_open : JunctionPositionWriter :=
  {| w_nowChr := 0; w_out := [] |}.

(** The two [out_.write] calls: 4 bytes of [pos_], 8 bytes of [bifId_]. *)
Definition put (pos : JunctionPosition) (w : JunctionPositionWriter)
  : JunctionPositionWriter :=
  {| w_nowChr := w_nowChr w;
     w_out := w_out w ++ le_split 4 (pos_ pos) ++ le_split 8 (bifId_ pos) |}.

Definition incr_nowChr (w : JunctionPositionWriter) : JunctionPositionWriter :=
  {| w_nowChr := u32 (w_nowChr w + 1); w_out := w_out w |}.

(** The padding loop of [WriteJunction], followed by the two writes;
    [self] is the recursive call, [n] bounds the number of turns. *)
Fixpoint WriteJunction_loop
    (self : JunctionPosition -> JunctionPositionWriter -> option JunctionPositionWriter)
    (pos : JunctionPosition) (n : nat) (w : JunctionPositionWriter)
  : option JunctionPositionWriter :=
  if w_nowChr w <? chr_ pos then
    match n with
    | O => None
    | S n' =>
        match self (JunctionPosition_ (w_nowChr w) SEPARATOR_POS SEPARATOR_BIF) w with
        | Some w1 => WriteJunction_loop self pos n' (incr_nowChr w1)
        | None => None
        end
    end
  else Some (put pos w).

(** [WriteJunction]; [fuel] bounds the depth of the recursive call and the
    number of turns of the padding loop; [None] is "out of fuel".  Stream
    failures ([!out_]) are outside the model: writes succeed. *)
Fixpoint WriteJunction_fuel (fuel : nat) (pos : JunctionPosition)
    (w : JunctionPositionWriter) : option JunctionPositionWriter :=
  match fuel with
  | O => None
  | S fuel' => WriteJunction_loop (WriteJunction_fuel fuel') pos fuel' w
  end.

Definition WriteJunction (pos : JunctionPosition) (w : JunctionPositionWriter)
  : option JunctionPositionWriter :=
  WriteJunction_fuel (S (S (Z.to_nat (chr_ pos - w_nowChr w)))) pos w.

(** Writing a sequence of tuples in order. *)
Fixpoint WriteAll (l : list JunctionPosition) (w : JunctionPositionWriter)
  : option JunctionPositionWriter :=
  match l with
  | [] => Some w
  | p :: l' =>
      match WriteJunction p w with
      | Some w' => WriteAll l' w'
      | None => None
      end
  end.

(** *** Reader *)

(** [r_ok] is the stream state [bool(in_)]; once a read fails the stream
    stays failed. *)
Record JunctionPositionReader : Type :=
  { r_nowChr : Z; r_in : list byte; r_ok : bool }.

Definition reader_open (file : list byte) : JunctionPositionReader :=
  {| r_nowChr := 0; r_in := file; r_ok := true |}.

(** [in_.read(buf, n)]: the value read (when [n] bytes are there) and the
    stream afterwards. *)
Definition read (n : nat) (r : JunctionPositionReader)
  : option Z * JunctionPositionReader :=
  if r_ok r && (n <=? length (r_in r))%nat then
    (Some (le_combine (take n (r_in r))),
     {| r_nowChr := r_nowChr r; r_in := drop n (r_in r); r_ok := true |})
  else
    (None, {| r_nowChr := r_nowChr r; r_in := []; r_ok := false |}).

Definition incr_r (r : JunctionPositionReader) : JunctionPositionReader :=
  {| r_nowChr := u32 (r_nowChr r + 1); r_in := r_in r; r_ok := r_ok r |}.

(** [NextJunctionPosition]: [Some p] for [true] with the tuple stored in
    the out-parameter, [None] for [false].  The outer [option] is "out of
    fuel". *)
Fixpoint NextJunctionPosition_fuel (fuel : nat) (r : JunctionPositionReader)
  : option (option JunctionPosition * JunctionPositionReader) :=
  match fuel with
  | O => None
  | S fuel' =>
      let '(vp, r1) := read 4 r in
      let '(vb, r2) := read 8 r1 in
      match vp, vb with
      | Some p, Some b =>
          if negb (p =? SEPARATOR_POS) && negb (b =? SEPARATOR_BIF)
          then Some (Some {| chr_ := r_nowChr r; pos_ := p; bifId_ := b |}, r2)
          else NextJunctionPosition_fuel fuel' (incr_r r2)
      | _, _ => Some (None, r2)
      end
  end.

Definition NextJunctionPosition (r : JunctionPositionReader)
  : option (option JunctionPosition * JunctionPositionReader) :=
  NextJunctionPosition_fuel (S (length (r_in r))) r.

(** A client draining the reader: call [NextJunctionPosition] until it
    returns [false]. *)
Fixpoint ReadAll_fuel (fuel : nat) (r : JunctionPositionReader)
  : option (list JunctionPosition) :=
  match fuel with
  | O => None
  | S fuel' =>
      match NextJunctionPosition r with
      | None => None
      | Some (None, _) => Some []
      | Some (Some p, r') =>
          match ReadAll_fuel fuel' r' with
          | Some l => Some (p :: l)
          | None => None
          end
      end
  end.

Definition ReadAll (file : list byte) : option (list JunctionPosition) :=
  ReadAll_fuel (S (length file)) (reader_open file).

(** The file obtained by writing [l] through a fresh writer. *)
Definition file_of (l : list JunctionPosition) : option (list byte) :=
  match WriteAll l writer_open with
  | Some w => Some (w_out w)
  | None => None
  end.

(** [chr] fields in non-decreasing order. *)
Fixpoint chr_sorted (l : list JunctionPosition) : Prop :=
  match l with
  | [] => True
  | p :: l' =>
      match l' with
      | [] => True
      | q :: _ => chr_ p <= chr_ q
      end /\ chr_sorted l'
  end.

(** One 12-byte record of the file, and a run of [n] separator records. *)
Definition record (pos bifId : Z) : list byte :=
  le_split 4 pos ++ le_split 8 bifId.

Definition separators (n : nat) : list byte :=
  concat (repeat (record SEPARATOR_POS SEPARATOR_BIF) n).

(** The layout of the file for the tuples [l] when the chromosome counter
    stands at [c]. *)
Fixpoint layout (c : Z) (l : list JunctionPosition) : list byte :=
  match l with
  | [] => []
  | p :: l' =>
      separators (Z.to_nat (chr_ p - c)) ++ record (pos_ p) (bifId_ p)
        ++ layout (chr_ p) l'
  end.

Definition no_sentinel (p : JunctionPosition) : Prop :=
  pos_ p <> SEPARATOR_POS /\ bifId_ p <> SEPARATOR_BIF.

(** A small stream: two tuples, the second two chromosomes further. *)
Definition sample : list JunctionPosition :=
  [ {| chr_ := 0; pos_ := 5; bifId_ := 7 |};
    {| chr_ := 2; pos_ := 1; bifId_ := 9 |} ].

End JunctionApi.

(** ** Tasks and filters *)

(** Modelled from the spec: the header declaring [Task] is not part of the
    sources at hand.  The fields are the ones the workers read and the
    distributor passes to the constructor, in its order:
    [Task(record, prev, pieceCount++, over, buf)]. *)
Record Task : Type := mkTask
  { seqId : Z; start : Z; piece : Z; isFinal : bool; str : list ascii }.

(** The interface of [CuckooFilter<uint64_t, 32>] the workers use.  The
    status returned by [Add] is ignored by every caller. *)
Class CuckooFilter (F : Type) : Type :=
  { cf_new : nat -> F;
    Add : Z -> F -> F;
    Contain : Z -> F -> bool;
    Size : F -> Z }.

(** A filter that has room for what is added to it: membership has no false
    negatives (false positives are allowed), a fresh filter is empty. *)
Class CuckooFilterLaws (F : Type) `{CuckooFilter F} : Prop :=
  { Contain_Add : forall x f, Contain x (Add x f) = true;
    Contain_Add_mono : forall x y f, Contain x f = true -> Contain x (Add y f) = true;
    Contain_new : forall n x, Contain x (cf_new n) = false;
    Size_new : forall n, Size (cf_new n) = 0;
    Size_Add : forall x f, 0 < Size (Add x f) }.

(** The exact-set filter. *)
#[export] Instance ExactFilter : CuckooFilter (gset Z) :=
  { cf_new := fun _ => ∅;
    Add := fun x f => {[ x ]} ∪ f;
    Contain := fun x f => bool_decide (x ∈ f);
    Size := fun f => Z.of_nat (size f) }.

Definition b2z (b : bool) : Z := if b then 1 else 0.

(** [std::count_if(first, last, DnaChar::IsDefinite)] *)
Definition count_definite (s : list ascii) : Z :=
  Z.of_nat (length (filter (fun c => DnaChar.IsDefinite c = true) s)).

(** [Within] *)
Definition Within (hvalue low high : Z) : bool :=
  (low <=? hvalue) && (hvalue <=? high).

(** [CandidateMaskFileName] *)
Definition CandidateMaskFileName (directory : string) (sequence pos round : Z)
  : string :=
  directory +:+ "/" +:+ pretty sequence +:+ "_" +:+ pretty pos +:+ "_"
    +:+ pretty round +:+ ".tmp".

(** [ReportError]: the first error stays. *)
Definition ReportError (error : option string) (msg : string) : option string :=
  match error with
  | None => Some msg
  | Some _ => error
  end.

(** After the join of a stage the constructor throws when the slot is
    set: [if (error != 0) throw ...]. *)
Definition after_join {A : Type} (error : option string) (result : A)
  : string + A :=
  match error with
  | Some msg => inl msg
  | None => inr result
  end.

Section Workers.

Context {F : Type} `{CuckooFilter F}.

(** What the target produces for an [int] shift by 32 or more. *)
Variable shl_wide : Z -> Z -> Z.

(** [Task::TASK_SIZE] *)
Variable TASK_SIZE : nat.

Local Abbreviation getCanonicalVal := (getCanonicalVal shl_wide).

(** [if (cFilter.Contain(v) != Status::Ok) cFilter.Add(v);] *)
Definition add_if_absent (v : Z) (f : F) : F :=
  if Contain v f then f else Add v f.

(** *** Pass 1a: [FilterFillerWorker] *)

Definition DUMMY_CHAR : ascii := StdString.at_ DnaChar.LITERAL 0.
Definition REV_DUMMY_CHAR : ascii := DnaChar.ReverseChar DUMMY_CHAR.

(** The body of the position loop at [pos]. *)
Definition FilterFiller_body (edgeLength : nat) (s : list ascii) (pos : nat)
    (definiteCount : Z) (cFilter : F) : F :=
  let vertexLength := (edgeLength - 1)%nat in
  let nextCh := StdString.at_ s (pos + edgeLength - 1) in
  if definiteCount =? Z.of_nat vertexLength then
    let vertex := StdString.substr s pos vertexLength in
    let f1 :=
      if DnaChar.IsDefinite nextCh then
        add_if_absent (getCanonicalVal (vertex ++ [nextCh])) cFilter
      else
        add_if_absent (getCanonicalVal (vertex ++ [REV_DUMMY_CHAR]))
          (add_if_absent (getCanonicalVal (vertex ++ [DUMMY_CHAR])) cFilter) in
    if (0 <? pos)%nat && negb (DnaChar.IsDefinite (StdString.at_ s (pos - 1))) then
      add_if_absent (getCanonicalVal (REV_DUMMY_CHAR :: vertex))
        (add_if_absent (getCanonicalVal (DUMMY_CHAR :: vertex)) f1)
    else f1
  else cFilter.

(** [for (size_t pos = 0;; ++pos)]; [None] is "out of fuel". *)
Fixpoint FilterFiller_loop (fuel : nat) (edgeLength : nat) (s : list ascii)
    (pos : nat) (definiteCount : Z) (cFilter : F) : option F :=
  match fuel with
  | O => None
  | S fuel' =>
      let vertexLength := (edgeLength - 1)%nat in
      let prevCh := StdString.at_ s pos in
      let f1 := FilterFiller_body edgeLength s pos definiteCount cFilter in
      if (pos + vertexLength <? length s - 1)%nat then
        FilterFiller_loop fuel' edgeLength s (S pos)
          (u64 (definiteCount
                + (b2z (DnaChar.IsDefinite (StdString.at_ s (pos + vertexLength)))
                   - b2z (DnaChar.IsDefinite prevCh))))
          f1
      else Some f1
  end.

(** One task of [FilterFillerWorker::operator()]. *)
Definition FilterFiller_task (edgeLength : nat) (task : Task) (cFilter : F)
  : option F :=
  if (length (str task) <? edgeLength)%nat then Some cFilter
  else
    let vertexLength := (edgeLength - 1)%nat in
    FilterFiller_loop (length (str task)) edgeLength (str task) 0
      (count_definite (take vertexLength (str task))) cFilter.

(** The tasks of a queue, up to [GAME_OVER]. *)
Fixpoint FilterFillerWorker (edgeLength : nat) (queue : list Task) (cFilter : F)
  : option F :=
  match queue with
  | [] => Some cFilter
  | task :: rest =>
      match FilterFiller_task edgeLength task cFilter with
      | Some f => FilterFillerWorker edgeLength rest f
      | None => None
      end
  end.

(** *** Pass 1b: [CandidateCheckingWorker] *)

(** [for (int i = 0; i < LITERAL.size() && inCount < 2 && outCount < 2; i++)] *)
Fixpoint count_loop (cFilter : F) (literal : list ascii)
    (posPrev posExtend : ascii) (vertex : list ascii) (inCount outCount : Z)
  : Z * Z :=
  match literal with
  | [] => (inCount, outCount)
  | nextCh :: rest =>
      if (inCount <? 2) && (outCount <? 2) then
        let prevEdgeVal := getCanonicalVal (nextCh :: vertex) in
        let nextEdgeVal := getCanonicalVal (vertex ++ [nextCh]) in
        let inCount' :=
          if Ascii.eqb nextCh posPrev || Contain prevEdgeVal cFilter
          then inCount + 1 else inCount in
        let outCount' :=
          if Ascii.eqb nextCh posExtend || Contain nextEdgeVal cFilter
          then outCount + 1 else outCount in
        count_loop cFilter rest posPrev posExtend vertex inCount' outCount'
      else (inCount, outCount)
  end.

(** The counts at [pos] and the test [inCount > 1 || outCount > 1]. *)
Definition counts_at (cFilter : F) (vertexLength : nat) (s : list ascii) (pos : nat)
  : Z * Z :=
  let posPrev := StdString.at_ s (pos - 1) in
  let posExtend := StdString.at_ s (pos + vertexLength) in
  let vertex := StdString.substr s pos vertexLength in
  let inCount := if DnaChar.IsDefinite posPrev then 0 else 2 in
  let outCount := if DnaChar.IsDefinite posExtend then 0 else 2 in
  count_loop cFilter DnaChar.LITERAL posPrev posExtend vertex inCount outCount.

Definition is_candidate (cFilter : F) (vertexLength : nat) (s : list ascii)
    (pos : nat) : bool :=
  let '(inCount, outCount) := counts_at cFilter vertexLength s pos in
  (1 <? inCount) || (1 <? outCount).

(** The body of the position loop: the updated [marksCount] and
    [candidateFilter]. *)
Definition CandidateChecking_body (cFilter : F) (vertexLength : nat)
    (s : list ascii) (pos : nat) (definiteCount : Z)
    (st : Z * F) : Z * F :=
  let '(marksCount, candidateFilter) := st in
  if definiteCount =? Z.of_nat vertexLength then
    if is_candidate cFilter vertexLength s pos then
      (u64 (marksCount + 1), add_if_absent (Z.of_nat pos) candidateFilter)
    else st
  else st.

(** [for (size_t pos = 1;; ++pos)] *)
Fixpoint CandidateChecking_loop (fuel : nat) (cFilter : F) (vertexLength : nat)
    (s : list ascii) (pos : nat) (definiteCount : Z) (st : Z * F)
  : option (Z * F) :=
  match fuel with
  | O => None
  | S fuel' =>
      let edgeLength := (vertexLength + 1)%nat in
      let st1 := CandidateChecking_body cFilter vertexLength s pos definiteCount st in
      if (pos + edgeLength <? length s)%nat then
        CandidateChecking_loop fuel' cFilter vertexLength s (S pos)
          (u64 (definiteCount
                + (b2z (DnaChar.IsDefinite (StdString.at_ s (pos + vertexLength)))
                   - b2z (DnaChar.IsDefinite (StdString.at_ s pos)))))
          st1
      else Some st1
  end.

(** The scan of one chunk, as [CandidateCheckingWorker] starts it. *)
Definition CandidateChecking_scan (cFilter : F) (vertexLength : nat)
    (s : list ascii) (marksCount : Z) : option (Z * F) :=
  CandidateChecking_loop (length s) cFilter vertexLength s 1
    (count_definite (StdString.substr s 1 vertexLength))
    (marksCount, cf_new TASK_SIZE).

(** Modelled from the spec: [writeToFile] belongs to the filter library,
    which is not part of the sources at hand.  The spec asks for a
    serialization that [readFromFile] reads back; here the file holds the
    filter itself and writing succeeds. *)
Definition writeToFile (f : F) (path : string) (fs : gmap string F)
  : string + gmap string F :=
  inr (<[path := f]> fs).

(** The state the workers of pass 1b share. *)
Record Pass1bState : Type :=
  { p1_fs : gmap string F; p1_error : option string; p1_marks : Z }.

(** One task of [CandidateCheckingWorker::operator()]. *)
Definition CandidateChecking_task (cFilter : F) (vertexLength : nat)
    (tmpDirectory : string) (round : Z) (task : Task) (st : Pass1bState)
  : option Pass1bState :=
  if (length (str task) <? vertexLength)%nat then Some st
  else
    if (vertexLength + 2 <=? length (str task))%nat then
      match CandidateChecking_scan cFilter vertexLength (str task) (p1_marks st) with
      | None => None
      | Some (marks, candidateFilter) =>
          if 0 <? Size candidateFilter then
            match writeToFile candidateFilter
                    (CandidateMaskFileName tmpDirectory (seqId task) (start task) round)
                    (p1_fs st) with
            | inr fs' =>
                Some {| p1_fs := fs'; p1_error := p1_error st; p1_marks := marks |}
            | inl msg =>
                Some {| p1_fs := p1_fs st;
                        p1_error := ReportError (p1_error st) msg;
                        p1_marks := marks |}
            end
          else Some {| p1_fs := p1_fs st; p1_error := p1_error st; p1_marks := marks |}
      end
    else Some st.

Fixpoint CandidateCheckingWorker (cFilter : F) (vertexLength : nat)
    (tmpDirectory : string) (round : Z) (queue : list Task) (st : Pass1bState)
  : option Pass1bState :=
  match queue with
  | [] => Some st
  | task :: rest =>
      match CandidateChecking_task cFilter vertexLength tmpDirectory round task st with
      | Some st' => CandidateCheckingWorker cFilter vertexLength tmpDirectory round rest st'
      | None => None
      end
  end.

(** *** The counts as the spec words them

    [inCount] starts at 2 when the preceding flank is indefinite and at 0
    otherwise and is incremented for every [c] of [{A,C,G,T}] that equals
    the observed preceding character or whose edge [c·vertex] is in the
    edge filter; [outCount] likewise with the following flank and
    [vertex·c]. *)
Definition spec_inCount (cFilter : F) (vertexLength : nat) (s : list ascii)
    (pos : nat) : Z :=
  let posPrev := StdString.at_ s (pos - 1) in
  let vertex := StdString.substr s pos vertexLength in
  (if DnaChar.IsDefinite posPrev then 0 else 2)
  + Z.of_nat (length (filter
       (fun c => Ascii.eqb c posPrev
                 || Contain (getCanonicalVal (c :: vertex)) cFilter = true)
       DnaChar.LITERAL)).

Definition spec_outCount (cFilter : F) (vertexLength : nat) (s : list ascii)
    (pos : nat) : Z :=
  let posExtend := StdString.at_ s (pos + vertexLength) in
  let vertex := StdString.substr s pos vertexLength in
  (if DnaChar.IsDefinite posExtend then 0 else 2)
  + Z.of_nat (length (filter
       (fun c => Ascii.eqb c posExtend
                 || Contain (getCanonicalVal (vertex ++ [c])) cFilter = true)
       DnaChar.LITERAL)).

Definition spec_candidate (cFilter : F) (vertexLength : nat) (s : list ascii)
    (pos : nat) : bool :=
  (1 <? spec_inCount cFilter vertexLength s pos)
  || (1 <? spec_outCount cFilter vertexLength s pos).

(** The positions of a chunk with a fully definite window that pass the
    test, in increasing order. *)
Definition marked_positions (cFilter : F) (vertexLength : nat) (s : list ascii)
  : list nat :=
  filter (fun pos => definiteb (StdString.substr s pos vertexLength) = true
                     /\ spec_candidate cFilter vertexLength s pos = true)
    (seq 1 (length s - vertexLength - 1)).

(** Recording positions one after the other in a fresh candidate filter. *)
Definition record_positions (ps : list nat) : F :=
  fold_left (fun f p => add_if_absent (Z.of_nat p) f) ps (cf_new TASK_SIZE).

End Workers.

(** ** Pass 2: the occurrence set *)

Module Occurence.

(** Modelled from the spec: the header declaring [CandidateOccurence] is
    not part of the sources at hand.  The spec (4.6) describes the record
    as: positive hash, negative hash, bit-packed canonical k-mer, observed
    right flank, observed left flank, and the bifurcation flag, and keys
    the set by the canonical k-mer.  The canonical k-mer is the
    lexicographic minimum of the window and its reverse complement; the
    two flanks are stored as they are observed, whichever of the two
    strands the canonical k-mer is read on. *)
Record t : Type := mk
  { body : list Z;           (* 2-bit codes of the canonical k-mer *)
    posHash : Z;
    negHash : Z;
    prev : ascii;
    next : ascii;
    isBifurcation : bool }.

Definition codes (s : list ascii) : list Z := map DnaChar.MakeUpChar s.

Definition Set_ (posHash0 negHash0 : Z) (window : list ascii)
    (posExtend posPrev : ascii) (isBif : bool) : t :=
  let rc := DnaChar.ReverseCompliment window in
  {| body := match StdString.compare window rc with
             | Gt => codes rc
             | _ => codes window
             end;
     posHash := posHash0; negHash := negHash0;
     prev := posPrev; next := posExtend; isBifurcation := isBif |}.

Definition Prev (o : t) : ascii := prev o.
Definition Next (o : t) : ascii := next o.
Definition IsBifurcation (o : t) : bool := isBifurcation o.
Definition GetBase (o : t) : list Z := body o.

Definition MakeBifurcation (o : t) : t :=
  {| body := body o; posHash := posHash o; negHash := negHash o;
     prev := prev o; next := next o; isBifurcation := true |}.

Definition EqualBase (a b : t) : bool :=
  bool_decide (body a = body b).

End Occurence.

(** The content of the [OccurenceSet], in order of insertion.  The order in
    which the set is traversed is a separate matter, see
    [TrueBifurcations]. *)
Abbreviation OccurenceSet := (list Occurence.t).

(** Index of the element equal (by [OccurenceEquality]) to [now]. *)
Fixpoint find_occurence (now : Occurence.t) (set : OccurenceSet) : option nat :=
  match set with
  | [] => None
  | it :: rest =>
      if Occurence.EqualBase it now then Some O
      else option_map S (find_occurence now rest)
  end.

(** [occurenceSet.insert(now)]: the set afterwards, the position of the
    element equal to [now], and whether [now] was inserted. *)
Definition insert_occurence (now : Occurence.t) (set : OccurenceSet)
  : OccurenceSet * nat * bool :=
  match find_occurence now set with
  | Some i => (set, i, false)
  | None => (set ++ [now], length set, true)
  end.

Section Pass2.

Context {F : Type} `{CuckooFilter F}.

Variable TASK_SIZE : nat.

(** [readFromFile] belongs to the filter library; what it does with a
    path, its flag and the files present is left open: it raises (a
    message) or yields the filter read. *)
Variable readFromFile : string -> bool -> gmap string F -> string + F.

(** The rolling hashes of a window ([VertexRollingHash]). *)
Variable RawPositiveHash RawNegativeHash : list ascii -> Z.

(** The occurrence built for the window at [pos]: [now.Set(...)] with
    [isBifurcation = false]. *)
Definition candidate_occurence (vertexLength : nat) (s : list ascii) (pos : nat)
  : Occurence.t :=
  let posPrev := StdString.at_ s (pos - 1) in
  let posExtend := StdString.at_ s (pos + vertexLength) in
  let window := StdString.substr s pos vertexLength in
  let isBifurcation := false in
  Occurence.Set_ (RawPositiveHash window) (RawNegativeHash window)
    window posExtend posPrev isBifurcation.

(** The body of the position loop of [CandidateFinalFilteringWorker] for
    a position the candidate filter contains. *)
Definition FinalFiltering_candidate (vertexLength : nat) (s : list ascii)
    (pos : nat) (occurenceSet : OccurenceSet) : OccurenceSet :=
  let isBifurcation := false in
  let now := candidate_occurence vertexLength s pos in
  let inUnknownCount := if Ascii.eqb (Occurence.Prev now) "N" then 1 else 0 in
  let outUnknownCount := if Ascii.eqb (Occurence.Next now) "N" then 1 else 0 in
  let '(set1, i, inserted) := insert_occurence now occurenceSet in
  match set1 !! i with
  | None => set1
  | Some it =>
      if negb inserted && negb (Occurence.IsBifurcation it) then
        let inUnknownCount :=
          inUnknownCount + (if DnaChar.IsDefinite (Occurence.Prev it) then 0 else 1) in
        let outUnknownCount :=
          outUnknownCount + (if DnaChar.IsDefinite (Occurence.Next it) then 0 else 1) in
        if isBifurcation
           || negb (Ascii.eqb (Occurence.Next it) (Occurence.Next now))
           || negb (Ascii.eqb (Occurence.Prev it) (Occurence.Prev now))
           || (1 <? inUnknownCount) || (1 <? outUnknownCount)
        then <[i := Occurence.MakeBifurcation it]> set1
        else set1
      else set1
  end.

Definition FinalFiltering_body (candidateFilter : F) (vertexLength : nat)
    (s : list ascii) (pos : nat) (occurenceSet : OccurenceSet) : OccurenceSet :=
  if Contain (Z.of_nat pos) candidateFilter
  then FinalFiltering_candidate vertexLength s pos occurenceSet
  else occurenceSet.

(** [for (size_t pos = 1;; ++pos)] *)
Fixpoint FinalFiltering_loop (fuel : nat) (candidateFilter : F)
    (vertexLength : nat) (s : list ascii) (pos : nat)
    (occurenceSet : OccurenceSet) : option OccurenceSet :=
  match fuel with
  | O => None
  | S fuel' =>
      let edgeLength := (vertexLength + 1)%nat in
      let set1 := FinalFiltering_body candidateFilter vertexLength s pos occurenceSet in
      if (pos + edgeLength <? length s)%nat then
        FinalFiltering_loop fuel' candidateFilter vertexLength s (S pos) set1
      else Some set1
  end.

(** The state the workers of pass 2 share. *)
Record Pass2State : Type :=
  { p2_set : OccurenceSet; p2_error : option string }.

(** The candidate filter of a chunk as pass 2 loads it, and the error
    slot after the attempt. *)
Definition load_mask (tmpDirectory : string) (round : Z) (task : Task)
    (fs : gmap string F) (error : option string) : F * option string :=
  match readFromFile
          (CandidateMaskFileName tmpDirectory (seqId task) (start task) round)
          false fs with
  | inr f => (f, error)
  | inl msg => (cf_new TASK_SIZE, ReportError error msg)
  end.

(** One task of [CandidateFinalFilteringWorker::operator()]. *)
Definition FinalFiltering_task (vertexLength : nat) (tmpDirectory : string)
    (round : Z) (fs : gmap string F) (task : Task) (st : Pass2State)
  : option Pass2State :=
  if (length (str task) <? vertexLength)%nat then Some st
  else if (vertexLength + 2 <=? length (str task))%nat then
    let '(candidateFilter, error) :=
      load_mask tmpDirectory round task fs (p2_error st) in
    match FinalFiltering_loop (length (str task)) candidateFilter vertexLength
            (str task) 1 (p2_set st) with
    | Some set' => Some {| p2_set := set'; p2_error := error |}
    | None => None
    end
  else Some st.

Fixpoint CandidateFinalFilteringWorker (vertexLength : nat)
    (tmpDirectory : string) (round : Z) (fs : gmap string F)
    (queue : list Task) (st : Pass2State) : option Pass2State :=
  match queue with
  | [] => Some st
  | task :: rest =>
      match FinalFiltering_task vertexLength tmpDirectory round fs task st with
      | Some st' =>
          CandidateFinalFilteringWorker vertexLength tmpDirectory round fs rest st'
      | None => None
      end
  end.

End Pass2.

(** [TrueBifurcations] over the elements of the set in the order the
    iterator yields them: the k-mers written to the temporary file, the
    count of true positives and the count of false positives. *)
Fixpoint TrueBifurcations_loop (it : list Occurence.t) (out : list (list Z))
    (truePositives falsePositives : Z) : list (list Z) * Z * Z :=
  match it with
  | [] => (out, truePositives, falsePositives)
  | o :: rest =>
      if Occurence.IsBifurcation o then
        TrueBifurcations_loop rest (out ++ [Occurence.GetBase o])
          (u64 (truePositives + 1)) falsePositives
      else
        TrueBifurcations_loop rest out truePositives (u64 (falsePositives + 1))
  end.

Definition TrueBifurcations (traversal : list Occurence.t) (out : list (list Z))
  : list (list Z) * Z * Z :=
  TrueBifurcations_loop traversal out 0 0.

(** Modelled from the spec: [BifurcationStorage] is not part of the sources
    at hand.  The spec has it read the bifurcation file and assign the ids
    [0..V-1] in read order; the id of a k-mer is its index in the stream. *)
Fixpoint assigned_id (stream : list (list Z)) (kmer : list Z) : option Z :=
  match stream with
  | [] => None
  | x :: rest =>
      if bool_decide (x = kmer) then Some 0
      else option_map Z.succ (assigned_id rest kmer)
  end.

(** K-mers (as packed codes) in lexicographic order of the codes, the order
    of the canonical k-mers as strings. *)
Fixpoint codes_le (a b : list Z) : bool :=
  match a, b with
  | [], _ => true
  | _ :: _, [] => false
  | x :: a', y :: b' => (x <? y) || ((x =? y) && codes_le a' b')
  end.

Fixpoint sorted_stream (l : list (list Z)) : bool :=
  match l with
  | [] => true
  | x :: rest =>
      match rest with
      | [] => true
      | y :: _ => codes_le x y && sorted_stream rest
      end
  end.

(** ** The emission pass: [EdgeConstructionWorker] *)

Import JunctionApi.

Record EdgeResult : Type := mkEdgeResult
  { pieceId : Z; junction : list JunctionPosition }.

(** [FlushEdgeResults]: the writer is represented by the sequence of tuples
    passed to [WriteJunction]; the bytes of the file are [file_of] of that
    sequence. *)
Definition FlushEdgeResults (result : list EdgeResult)
    (writer : list JunctionPosition) (currentPiece : Z)
  : bool * list EdgeResult * list JunctionPosition * Z :=
  match result with
  | front :: rest =>
      if pieceId front =? currentPiece
      then (true, rest, writer ++ junction front, u64 (currentPiece + 1))
      else (false, result, writer, currentPiece)
  | [] => (false, result, writer, currentPiece)
  end.

(** [uint64_t currentStubVertexId = verticesCount + 42;] *)
Definition initial_stub (verticesCount : Z) : Z := u64 (verticesCount + 42).

Section Emission.

Context {F : Type} `{CuckooFilter F}.

Variable TASK_SIZE : nat.
Variable readFromFile : string -> bool -> gmap string F -> string + F.

(** [bifStorage.GetId] on the window at a position, and the constant
    [INVALID_VERTEX]; both are declared outside the sources at hand. *)
Variable GetId : list ascii -> Z.
Variable INVALID_VERTEX : Z.

(** The inner loop copying the positions of [tempFilter] into
    [candidateFilter]. *)
Definition copy_positions (size : nat) (tempFilter candidateFilter : F) : F :=
  fold_left (fun c pos => if Contain (Z.of_nat pos) tempFilter
                          then Add (Z.of_nat pos) c else c)
    (seq 0 size) candidateFilter.

(** [for (size_t i = 0; i < totalRounds; i++)] inside the [try]: the
    union of the masks of all rounds, and the message of the exception
    that ended the loop, if any. *)
Fixpoint union_masks (rounds_left : nat) (i : Z) (tmpDirectory : string)
    (task : Task) (fs : gmap string F) (candidateFilter : F)
  : F * option string :=
  match rounds_left with
  | O => (candidateFilter, None)
  | S n =>
      match readFromFile
              (CandidateMaskFileName tmpDirectory (seqId task) (start task) i)
              true fs with
      | inl msg => (candidateFilter, Some msg)
      | inr tempFilter =>
          union_masks n (i + 1) tmpDirectory task fs
            (copy_positions (length (str task)) tempFilter candidateFilter)
      end
  end.

Definition load_masks (totalRounds : nat) (tmpDirectory : string) (task : Task)
    (fs : gmap string F) (error : option string) : F * option string :=
  match union_masks totalRounds 0 tmpDirectory task fs (cf_new TASK_SIZE) with
  | (f, None) => (f, error)
  | (f, Some msg) => (f, ReportError error msg)
  end.

(** The body of the position loop at [pos]: the junctions collected so
    far, the counter [occurences] and [currentStubVertexId], before and
    after. *)
Definition EdgeConstruction_body (vertexLength : nat) (task : Task)
    (candidateFilter : F) (pos : nat) (definiteCount : Z)
    (st : list JunctionPosition * Z * Z) : list JunctionPosition * Z * Z :=
  let '(junctions, occurences, stub) := st in
  let here := JunctionPosition_ (seqId task) (u64 (start task + Z.of_nat pos - 1)) in
  let '(bifId, junctions1, occurences1) :=
    if (definiteCount =? Z.of_nat vertexLength)
       && Contain (Z.of_nat pos) candidateFilter then
      let bifId := GetId (StdString.substr (str task) pos vertexLength) in
      if negb (bifId =? INVALID_VERTEX)
      then (bifId, junctions ++ [here bifId], u64 (occurences + 1))
      else (bifId, junctions, occurences)
    else (INVALID_VERTEX, junctions, occurences) in
  if (((start task =? 0) && (pos =? 1)%nat)
      || (isFinal task && (pos =? length (str task) - vertexLength - 1)%nat))
     && (bifId =? INVALID_VERTEX)
  then (junctions1 ++ [here stub], u64 (occurences1 + 1), u64 (stub + 1))
  else (junctions1, occurences1, stub).

Definition next_definiteCount (vertexLength : nat) (s : list ascii) (pos : nat)
    (definiteCount : Z) : Z :=
  u64 (definiteCount
       + (b2z (DnaChar.IsDefinite (StdString.at_ s (pos + vertexLength)))
          - b2z (DnaChar.IsDefinite (StdString.at_ s pos)))).

(** The position loop of one task run without interruption. *)
Fixpoint EdgeConstruction_loop (fuel : nat) (vertexLength : nat) (task : Task)
    (candidateFilter : F) (pos : nat) (definiteCount : Z)
    (st : list JunctionPosition * Z * Z)
  : option (list JunctionPosition * Z * Z) :=
  match fuel with
  | O => None
  | S fuel' =>
      let edgeLength := (vertexLength + 1)%nat in
      let st1 := EdgeConstruction_body vertexLength task candidateFilter pos
                   definiteCount st in
      if (pos + edgeLength <? length (str task))%nat then
        EdgeConstruction_loop fuel' vertexLength task candidateFilter (S pos)
          (next_definiteCount vertexLength (str task) pos definiteCount) st1
      else Some st1
  end.

(** The [EdgeResult] of a task of at least [vertexLength + 2] characters,
    with the counters afterwards. *)
Definition EdgeConstruction_task (vertexLength : nat) (task : Task)
    (candidateFilter : F) (occurences stub : Z)
  : option (EdgeResult * Z * Z) :=
  match EdgeConstruction_loop (length (str task)) vertexLength task
          candidateFilter 1
          (count_definite (StdString.substr (str task) 1 vertexLength))
          ([], occurences, stub) with
  | Some (junctions, occurences', stub') =>
      Some ({| pieceId := u32 (piece task); junction := junctions |},
            occurences', stub')
  | None => None
  end.

(** *** The workers as a transition system

    A worker is between tasks ([Idle]), inside the position loop of a
    task ([Busy], at the head of the loop for [pos]), past [GAME_OVER]
    and draining its results ([Draining]), or gone ([Exited]). *)
Inductive Phase : Type :=
| Idle
| Busy (task : Task) (candidateFilter : F) (pos : nat) (definiteCount : Z)
       (currentResult : EdgeResult)
| Draining
| Exited.

Record Worker : Type := mkWorker
  { w_queue : list Task;            (* tasks still in the queue *)
    w_result : list EdgeResult;     (* the local deque *)
    w_phase : Phase }.

Record Shared : Type := mkShared
  { e_currentPiece : Z;
    e_writer : list JunctionPosition;
    e_occurences : Z;
    e_stub : Z;
    e_error : option string }.

Definition State : Type := list Worker * Shared.

Section Steps.

Variable vertexLength : nat.
Variable totalRounds : nat.
Variable tmpDirectory : string.
Variable fs : gmap string F.

(** What one worker does in one step, given the shared state. *)
Inductive worker_step : Worker -> Shared -> Worker -> Shared -> Prop :=
| step_skip task queue result sh :
    (* a task too short for a window *)
    (length (str task) < vertexLength + 2)%nat ->
    worker_step (mkWorker (task :: queue) result Idle) sh
                (mkWorker queue result Idle) sh
| step_begin task queue result sh candidateFilter error :
    (vertexLength + 2 <= length (str task))%nat ->
    load_masks totalRounds tmpDirectory task fs (e_error sh)
      = (candidateFilter, error) ->
    worker_step (mkWorker (task :: queue) result Idle) sh
      (mkWorker queue result
         (Busy task candidateFilter 1
            (count_definite (StdString.substr (str task) 1 vertexLength))
            (mkEdgeResult (u32 (piece task)) [])))
      (mkShared (e_currentPiece sh) (e_writer sh) (e_occurences sh)
         (e_stub sh) error)
| step_flush queue result phase sh result' writer' piece' :
    (* [FlushEdgeResults] succeeding, at the head of the position loop
       or while draining *)
    (match phase with Busy _ _ _ _ _ | Draining => True | _ => False end) ->
    FlushEdgeResults result (e_writer sh) (e_currentPiece sh)
      = (true, result', writer', piece') ->
    worker_step (mkWorker queue result phase) sh
      (mkWorker queue result' phase)
      (mkShared piece' writer' (e_occurences sh) (e_stub sh) (e_error sh))
| step_iterate queue result task candidateFilter pos definiteCount cur sh
    junctions occurences stub :
    (* one turn of the position loop that is not the last *)
    EdgeConstruction_body vertexLength task candidateFilter pos definiteCount
      (junction cur, e_occurences sh, e_stub sh)
      = (junctions, occurences, stub) ->
    (pos + (vertexLength + 1) < length (str task))%nat ->
    worker_step
      (mkWorker queue result (Busy task candidateFilter pos definiteCount cur)) sh
      (mkWorker queue result
         (Busy task candidateFilter (S pos)
            (next_definiteCount vertexLength (str task) pos definiteCount)
            (mkEdgeResult (pieceId cur) junctions)))
      (mkShared (e_currentPiece sh) (e_writer sh) occurences stub (e_error sh))
| step_finish queue result task candidateFilter pos definiteCount cur sh
    junctions occurences stub :
    (* the last turn, then [result.push_back(currentResult)] *)
    EdgeConstruction_body vertexLength task candidateFilter pos definiteCount
      (junction cur, e_occurences sh, e_stub sh)
      = (junctions, occurences, stub) ->
    ~ (pos + (vertexLength + 1) < length (str task))%nat ->
    worker_step
      (mkWorker queue result (Busy task candidateFilter pos definiteCount cur)) sh
      (mkWorker queue (result ++ [mkEdgeResult (pieceId cur) junctions]) Idle)
      (mkShared (e_currentPiece sh) (e_writer sh) occurences stub (e_error sh))
| step_game_over result sh :
    worker_step (mkWorker [] result Idle) sh (mkWorker [] result Draining) sh
| step_exit queue sh :
    worker_step (mkWorker queue [] Draining) sh (mkWorker queue [] Exited) sh.

(** A step of the system: some worker takes a step. *)
Inductive step : State -> State -> Prop :=
| step_worker (i : nat) (ws : list Worker) (sh : Shared) w w' sh' :
    ws !! i = Some w ->
    worker_step w sh w' sh' ->
    step (ws, sh) (<[i := w']> ws, sh').

End Steps.

(** The state the constructor sets up: every worker idle with its queue,
    nothing written, [currentPiece = 0], the stub counter at [V + 42]. *)
Definition initial_state (queues : list (list Task)) (verticesCount : Z)
    (error : option string) : State :=
  (map (fun q => mkWorker q [] Idle) queues,
   mkShared 0 [] 0 (initial_stub verticesCount) error).


End Emission.

(** ** The task distributor *)

Section Distributor.

Variable TASK_SIZE : nat.

(** The [do ... while (!over)] loop over the characters of one record:
    [chars] are the characters [parser.GetChar] still has to deliver.  The
    result is the tasks pushed, in order, and [pieceCount] afterwards.
    Which queue a task goes to is decided by [owner], see [dispatch]. *)
Fixpoint DistributeRecord (overlapSize : nat) (record : Z) (chars : list ascii)
    (start prev : Z) (buf : list ascii) (pieceCount : Z) : list Task * Z :=
  match chars with
  | [] =>
      (* over *)
      if (overlapSize <=? length buf)%nat then
        ([mkTask record prev pieceCount true (buf ++ ["N"%char])],
         u32 (pieceCount + 1))
      else ([], pieceCount)
  | ch :: rest =>
      let start' := u64 (start + 1) in
      let buf' := buf ++ [if DnaChar.IsDefinite ch then ch else "N"%char] in
      if (overlapSize <=? length buf')%nat && (length buf' =? TASK_SIZE)%nat then
        let overlap := drop (length buf' - overlapSize) buf' in
        let '(tasks, pieceCount') :=
          DistributeRecord overlapSize record rest start'
            (u64 (start' - Z.of_nat overlapSize + 1)) overlap
            (u32 (pieceCount + 1)) in
        (mkTask record prev pieceCount false buf' :: tasks, pieceCount')
      else
        DistributeRecord overlapSize record rest start' prev buf' pieceCount
  end.

(** The loops over the files and their records; the records of all files
    are given in order. *)
Fixpoint DistributeRecords (overlapSize : nat) (records : list (list ascii))
    (record : Z) (pieceCount : Z) : list Task :=
  match records with
  | [] => []
  | chars :: rest =>
      let '(tasks, pieceCount') :=
        DistributeRecord overlapSize record chars 0 0 ["N"%char] pieceCount in
      tasks ++ DistributeRecords overlapSize rest (u64 (record + 1)) pieceCount'
  end.

Definition DistributeTasks (overlapSize : nat) (records : list (list ascii))
  : list Task :=
  DistributeRecords overlapSize records 0 0.

(** The queue of worker [i] when the task with piece [p] is pushed to the
    queue [owner p] (the round-robin choice depends on the load of the
    queues). *)
Definition dispatch (owner : Z -> nat) (threads : nat) (tasks : list Task)
  : list (list Task) :=
  map (fun i => filter (fun t => owner (piece t) = i) tasks) (seq 0 threads).

End Distributor.

(** ** One round: passes 1a, 1b, 2 and [TrueBifurcations] *)

Section Round.

Context {F : Type} `{CuckooFilter F}.

Variable shl_wide : Z -> Z -> Z.
Variable TASK_SIZE : nat.
Variable readFromFile : string -> bool -> gmap string F -> string + F.
Variable RawPositiveHash RawNegativeHash : list ascii -> Z.

(** The order in which the iterator of the hash set yields its elements. *)
Variable traversal : OccurenceSet -> list Occurence.t.

(** The outcome of a round for given orders in which the tasks are taken
    by the workers of each pass: [Some (inl msg)] when the constructor
    throws after a join, [Some (inr (fs, stream, truePositives,
    falsePositives))] otherwise; [None] is "out of fuel". *)
Definition Round (vertexLength : nat) (realSize : nat) (tmpDirectory : string)
    (round : Z) (order1a order1b order2 : list Task)
    (fs : gmap string F) (out : list (list Z))
  : option (string + (gmap string F * list (list Z) * Z * Z)) :=
  match FilterFillerWorker shl_wide (vertexLength + 1) order1a (cf_new realSize) with
  | None => None
  | Some cFilter =>
      match CandidateCheckingWorker shl_wide TASK_SIZE cFilter vertexLength
              tmpDirectory round order1b
              {| p1_fs := fs; p1_error := None; p1_marks := 0 |} with
      | None => None
      | Some st1 =>
          match after_join (p1_error st1) st1 with
          | inl msg => Some (inl msg)
          | inr _ =>
              match CandidateFinalFilteringWorker TASK_SIZE readFromFile
                      RawPositiveHash RawNegativeHash vertexLength tmpDirectory
                      round (p1_fs st1) order2
                      {| p2_set := []; p2_error := None |} with
              | None => None
              | Some st2 =>
                  match after_join (p2_error st2) st2 with
                  | inl msg => Some (inl msg)
                  | inr _ =>
                      let '(out', truePositives, falsePositives) :=
                        TrueBifurcations (traversal (p2_set st2)) out in
                      Some (inr (p1_fs st1, out', truePositives, falsePositives))
                  end
              end
          end
      end
  end.

(** The bifurcation stream of a round, when the round completes. *)
Definition Round_stream (vertexLength : nat) (realSize : nat)
    (tmpDirectory : string) (round : Z) (order1a order1b order2 : list Task)
    (fs : gmap string F) : option (list (list Z)) :=
  match Round vertexLength realSize tmpDirectory round order1a order1b order2
          fs [] with
  | Some (inr (_, stream, _, _)) => Some stream
  | _ => None
  end.

End Round.

(** [readFromFile] yielding the filter [writeToFile] stored under the path,
    and raising when there is no such file. *)
Definition read_stored {F : Type} (path : string) (flag : bool)
    (fs : gmap string F) : string + F :=
  match fs !! path with
  | Some f => inr f
  | None => inl "can't open the file"%string
  end.

(** ** The de Bruijn graph of the input *)

(** A record as the distributor normalizes it. *)
Definition normalize (r : list ascii) : list ascii :=
  map (fun ch => if DnaChar.IsDefinite ch then ch else "N"%char) r.

(** [e] is a factor of [r]. *)
Definition occurs_in (e r : list ascii) : Prop :=
  exists pre post, r = pre ++ e ++ post.

(** The definite (k+1)-mer [e] is an edge of the graph: it occurs in a
    record on one of the two strands. *)
Definition edge_present (records : list (list ascii)) (e : list ascii) : Prop :=
  definite e /\
  exists r, In r records /\
            (occurs_in e (normalize r)
             \/ occurs_in (DnaChar.ReverseCompliment e) (normalize r)).

(** [v] has two distinct definite successor bases or two distinct definite
    predecessor bases. *)
Definition branching (records : list (list ascii)) (k : nat) (v : list ascii)
  : Prop :=
  length v = k /\
  exists a b : ascii, a <> b /\
    ((edge_present records (v ++ [a]) /\ edge_present records (v ++ [b]))
     \/ (edge_present records (a :: v) /\ edge_present records (b :: v))).

(** ** The geometry of the chunks of a record *)

(** A record between its two sentinels, as the tasks of the record cover
    it. *)
Definition padded (r : list ascii) : list ascii :=
  "N"%char :: normalize r ++ ["N"%char].

(** [chunks TASK_SIZE overlapSize record P s pc tasks pc']: [tasks] cut
    the padded record [P] from offset [s] on into chunks of [TASK_SIZE]
    characters, each starting [overlapSize] characters before the end of
    the one before, the last one running to the end of [P]; the pieces are
    numbered from [pc], and [pc'] is the next free number. *)
Inductive chunks (TASK_SIZE overlapSize : nat) (record : Z) (P : list ascii)
  : nat -> Z -> list Task -> Z -> Prop :=
| chunks_final (s : nat) (pc : Z) :
    (s + overlapSize + 1 <= length P)%nat ->
    (length P - s <= TASK_SIZE)%nat ->
    chunks TASK_SIZE overlapSize record P s pc
      [mkTask record (Z.of_nat s) pc true (drop s P)] (u32 (pc + 1))
| chunks_cons (s : nat) (pc : Z) (rest : list Task) (pc' : Z) :
    (s + TASK_SIZE < length P)%nat ->
    chunks TASK_SIZE overlapSize record P (s + TASK_SIZE - overlapSize)
      (u32 (pc + 1)) rest pc' ->
    chunks TASK_SIZE overlapSize record P s pc
      (mkTask record (Z.of_nat s) pc false (StdString.substr P s TASK_SIZE) :: rest)
      pc'.

(** Task [t] comes before task [t'] in the input: an earlier record, or the
    same record and every window of [t] starts before every window of
    [t']. *)
Definition task_before (k : nat) (t t' : Task) : Prop :=
  seqId t < seqId t'
  \/ (seqId t = seqId t'
      /\ start t + Z.of_nat (length (str t)) - Z.of_nat (k + 1) <= start t').

(** A task as the distributor makes them for records and pieces that fit
    32 bits. *)
Definition task_in_range (k : nat) (t : Task) : Prop :=
  0 <= seqId t < 2 ^ 32 /\ 0 <= start t /\
  start t + Z.of_nat (length (str t)) <= 2 ^ 32 /\
  (k + 2 <= length (str t))%nat.

(** Tuples in the order of the output: by chromosome, then by position. *)
Definition jp_lt (a b : JunctionPosition) : Prop :=
  chr_ a < chr_ b \/ (chr_ a = chr_ b /\ pos_ a < pos_ b).

(** [junctions] are entries for windows of task [t] at increasing
    positions [p] with [lo <= p < hi]. *)
Definition entries_of (t : Task) (lo hi : nat) (junctions : list JunctionPosition)
  : Prop :=
  exists (ps : list nat) (ids : list Z),
    length ps = length ids /\
    junctions = zip_with
                  (fun p id => JunctionPosition_ (seqId t)
                                 (u64 (start t + Z.of_nat p - 1)) id) ps ids /\
    StronglySorted lt ps /\
    Forall (fun p => (lo <= p < hi)%nat) ps.

(** [r] is a result of task [t]. *)
Definition result_of (k : nat) (t : Task) (r : EdgeResult) : Prop :=
  pieceId r = u32 (piece t) /\
  entries_of t 1 (length (str t) - k) (junction r).

(** Task [t] is the part of the padded record [P] of record [record] that
    starts at offset [st]. *)
Definition chunk_of (record : Z) (P : list ascii) (st : nat) (t : Task) : Prop :=
  seqId t = record /\ start t = Z.of_nat st /\
  (st + length (str t) <= length P)%nat /\
  str t = StdString.substr P st (length (str t)).

(** The tasks of a list of records, the first of which has number [i]:
    a record too short to fill the overlap gives no task, every other
    record gives its chunks. *)
Inductive all_chunks (TASK_SIZE overlapSize : nat)
  : nat -> Z -> list (list ascii) -> list Task -> Z -> Prop :=
| all_chunks_nil i pc : all_chunks TASK_SIZE overlapSize i pc [] [] pc
| all_chunks_short i pc r rs rest pc' :
    (1 + length r < overlapSize)%nat ->
    all_chunks TASK_SIZE overlapSize (S i) pc rs rest pc' ->
    all_chunks TASK_SIZE overlapSize i pc (r :: rs) rest pc'
| all_chunks_cons i pc r rs tasks pc1 rest pc' :
    chunks TASK_SIZE overlapSize (Z.of_nat i) (padded r) 0 pc tasks pc1 ->
    all_chunks TASK_SIZE overlapSize (S i) pc1 rs rest pc' ->
    all_chunks TASK_SIZE overlapSize i pc (r :: rs) (tasks ++ rest) pc'.

(** ** The invariant of the emission stage *)

Section EmissionInvariant.

Context {F : Type} `{CuckooFilter F}.

Variable k : nat.
Variable ts : list Task.   (* the tasks of the stage, in the order of their pieces *)

Definition phase_ok (ph : @Phase F) : Prop :=
  match ph with
  | Busy t _ pos _ cur =>
      In t ts /\ (1 <= pos)%nat /\ (pos + k + 1 <= length (str t))%nat /\
      pieceId cur = u32 (piece t) /\ entries_of t 1 pos (junction cur)
  | _ => True
  end.

Definition worker_ok (w : @Worker F) : Prop :=
  Forall (fun t => In t ts) (w_queue w) /\
  Forall (fun r => exists t, In t ts /\ result_of k t r) (w_result w) /\
  phase_ok (w_phase w).

(** What has been written is the results of the pieces below
    [currentPiece], one after the other. *)
Definition flushed_ok (sh : Shared) : Prop :=
  exists flushed : list EdgeResult,
    e_writer sh = concat (map junction flushed) /\
    e_currentPiece sh = Z.of_nat (length flushed) /\
    Forall2 (result_of k) (take (length flushed) ts) flushed.

Definition emission_inv (st : @State F) : Prop :=
  Forall worker_ok (fst st) /\ flushed_ok (snd st).

End EmissionInvariant.

(** ** Sample runs *)

(** The last chunk of a record of [2^32 + 2] bases for [k = 1] and chunks
    of [2^16] characters: the chunks start every [2^16 - 2] characters, the
    chunk with piece 65538 at offset [65538 * 65534 = 2^32 - 4]; it holds the
    last seven bases and the closing sentinel. *)
Definition wrap_task : Task :=
  mkTask 0 (2 ^ 32 - 4) 65538 true (dna "ACGTACGN").

(** ** Auxiliary notions for the properties *)

(** The character ['_'] occurs in a file name component. *)
Fixpoint has_underscore (s : string) : bool :=
  match s with
  | EmptyString => false
  | String c s' => Ascii.eqb c "_" || has_underscore s'
  end.

(** The occurrence set accounts for the occurrence [now]: it has an element
    with the k-mer of [now] that is flagged or carries the flanks of
    [now]. *)
Definition accounts_for (set : OccurenceSet) (now : Occurence.t) : Prop :=
  exists e, In e set /\ Occurence.body e = Occurence.body now /\
            (Occurence.isBifurcation e = true
             \/ (Occurence.prev e = Occurence.prev now
                 /\ Occurence.next e = Occurence.next now)).

(** No two elements of the set have the same k-mer. *)
Definition distinct_bodies (set : OccurenceSet) : Prop :=
  NoDup (map Occurence.body set).

(** The k-mer [w] is read in a record with [x] before it and [y] after it;
    the ends of a record count as ['N']. *)
Definition read_with_flanks (records : list (list ascii)) (x : ascii)
    (w : list ascii) (y : ascii) : Prop :=
  exists r, In r records /\ occurs_in (x :: w ++ [y]) (padded r).

(** The k-mer [v] is read at two places, each on one of the two strands,
    where the characters observed beside it are not the same. *)
Definition read_differently (records : list (list ascii)) (v : list ascii)
  : Prop :=
  exists x1 w1 y1 x2 w2 y2,
    read_with_flanks records x1 w1 y1 /\ read_with_flanks records x2 w2 y2 /\
    definite w1 /\ definite w2 /\
    canonical w1 = canonical v /\ canonical w2 = canonical v /\
    (x1 <> x2 \/ y1 <> y2).

(** Two records that share the 3-mer ACG and continue it differently. *)
Definition branching_sample : list (list ascii) := [dna "ACGT"; dna "ACGA"].

(** A record in which the 2-mer AT, its own reverse complement, is followed
    by G on one strand and by T on the other. *)
Definition palindrome_sample : list (list ascii) := [dna "AATG"].

(** Two records in which the 1-mer A is read between two C on one strand
    and, as T, between two C on the other: over both strands A is followed
    by C and by G. *)
Definition mixed_sample : list (list ascii) := [dna "CAC"; dna "CTC"].

(** The 3-mer ACG read on both strands: in the first record as ACG and as
    CGT, in the second as CGT between T and A. *)
Definition two_strand_sample : list (list ascii) := [dna "ACGT"; dna "TCGTA"].

(** ** Further notions for the junction position file *)

(** The tuples as the reader attributes them when the writer's counter
    stands at [c]: [WriteJunction] pads only upwards, so a tuple is read
    back on the largest [chr] written so far. *)
Fixpoint attributed (c : Z) (l : list JunctionPosition) : list JunctionPosition :=
  match l with
  | [] => []
  | p :: l' =>
      let c' := Z.max c (chr_ p) in
      {| chr_ := c'; pos_ := pos_ p; bifId_ := bifId_ p |} :: attributed c' l'
  end.

(** The largest [chr] of a sequence of tuples, at least [c]. *)
Definition top_chr (c : Z) (l : list JunctionPosition) : Z :=
  fold_left Z.max (map chr_ l) c.

(** An out-of-order stream: the second tuple names an earlier chromosome. *)
Definition unsorted_sample : list JunctionPosition :=
  [ {| chr_ := 2; pos_ := 5; bifId_ := 7 |};
    {| chr_ := 1; pos_ := 1; bifId_ := 9 |};
    {| chr_ := 3; pos_ := 4; bifId_ := 8 |} ].

(** ** Further notions for the tasks and the passes *)

(** A character of a task string: a definite base or ['N']. *)
Definition task_char (c : ascii) : Prop :=
  DnaChar.IsDefinite c = true \/ c = "N"%char.

(** Task [t] is a chunk of the padded record number [j]: it starts at
    offset [st], a task that is not final is a whole chunk of [TASK_SIZE]
    characters, a final one runs to the end of the padded record. *)
Definition task_shape (TASK_SIZE k : nat) (records : list (list ascii))
    (t : Task) : Prop :=
  exists (j : nat) (r : list ascii) (st : nat),
    records !! j = Some r /\ chunk_of (Z.of_nat j) (padded r) st t /\
    (k + 2 <= length (str t) <= TASK_SIZE)%nat /\
    Forall task_char (str t) /\
    (if isFinal t then (st + length (str t))%nat = length (padded r)
     else length (str t) = TASK_SIZE).

(** ** The trace of pass 2 *)

Section Pass2Trace.

Context {F : Type} `{CuckooFilter F}.
Variable TASK_SIZE : nat.
Variable readFromFile : string -> bool -> gmap string F -> string + F.
Variable RawPositiveHash RawNegativeHash : list ascii -> Z.

(** The candidate occurrences of a task in the order in which
    [CandidateFinalFilteringWorker] meets them: the windows at the
    positions that the mask loaded for the task contains. *)
Definition task_occurences (k : nat) (dir : string) (round : Z)
    (fs : gmap string F) (t : Task) : list Occurence.t :=
  if (k + 2 <=? length (str t))%nat then
    map (candidate_occurence RawPositiveHash RawNegativeHash k (str t))
      (filter (fun p =>
                 Contain (Z.of_nat p)
                   (fst (load_mask TASK_SIZE readFromFile dir round t fs None))
                 = true)
         (seq 1 (length (str t) - k - 1)))
  else [].

Definition queue_occurences (k : nat) (dir : string) (round : Z)
    (fs : gmap string F) (queue : list Task) : list Occurence.t :=
  flat_map (task_occurences k dir round fs) queue.

End Pass2Trace.

(** The test that makes pass 2 flag a stored occurrence [it] when it meets
    the occurrence [now] of the same k-mer: a flank differs, or the left
    (right) flank of [now] is ['N'] and that of [it] is indefinite. *)
Definition conflicting (it now : Occurence.t) : Prop :=
  Occurence.body it = Occurence.body now /\
  (Occurence.next it <> Occurence.next now
   \/ Occurence.prev it <> Occurence.prev now
   \/ (Occurence.prev now = "N"%char
       /\ DnaChar.IsDefinite (Occurence.prev it) = false)
   \/ (Occurence.next now = "N"%char
       /\ DnaChar.IsDefinite (Occurence.next it) = false)).

(** Every element of the set carries the flanks of an occurrence met, and a
    flagged element has a later occurrence in conflict with it. *)
Definition evidence (seen : list Occurence.t) (set : OccurenceSet) : Prop :=
  forall e, In e set ->
    exists i x,
      seen !! i = Some x /\ Occurence.body x = Occurence.body e /\
      Occurence.prev x = Occurence.prev e /\
      Occurence.next x = Occurence.next e /\
      (Occurence.isBifurcation e = true ->
       exists j y, (i < j)%nat /\ seen !! j = Some y /\ conflicting x y).

Definition trace_inv (seen : list Occurence.t) (set : OccurenceSet) : Prop :=
  distinct_bodies set /\
  (forall x, In x seen -> accounts_for set x) /\
  evidence seen set.

(** ** Progress of the emission stage *)

Section EmissionProgress.

Context {F : Type} `{CuckooFilter F}.







(** A bound on the steps a worker has left. *)
Definition phase_weight (ph : @Phase F) : nat :=
  match ph with
  | Idle => 2%nat
  | Busy t _ pos _ _ => (length (str t) - pos + 4)%nat
  | Draining => 1%nat
  | Exited => 0%nat
  end.

Definition worker_weight (w : @Worker F) : nat :=
  (list_sum (map (fun t => length (str t) + 5) (w_queue w))
   + length (w_result w) + phase_weight (w_phase w))%nat.

Definition state_weight (st : @State F) : nat :=
  list_sum (map worker_weight (fst st)).

End EmissionProgress.

(** ** The pass that precedes the rounds: [InitialFilterFillerWorker] *)

Section InitialPass.

Context {F : Type} `{CuckooFilter F}.
Variable shl_wide : Z -> Z -> Z.

(** [for (size_t pos = 0; pos + edgeLength - 1 < task.str.size(); ++pos)]:
    every window of [edgeLength] characters is added, whatever its
    characters; the counting of bins is commented out in the source.
    This is the one place where a window that holds an [N] reaches
    [getCanonicalVal]: the key of such a window is decided by the header
    of [DnaChar], and nothing proved below depends on its value. *)
Definition InitialFilterFiller_task (vertexLength : nat) (task : Task)
    (cFilter : F) : F :=
  let edgeLength := (vertexLength + 1)%nat in
  if (length (str task) <? edgeLength)%nat then cFilter
  else
    fold_left
      (fun f pos =>
         Add (getCanonicalVal shl_wide (StdString.substr (str task) pos edgeLength)) f)
      (seq 0 (length (str task) - (edgeLength - 1))) cFilter.

Definition InitialFilterFillerWorker (vertexLength : nat) (queue : list Task)
    (cFilter : F) : F :=
  fold_left (fun f task => InitialFilterFiller_task vertexLength task f)
    queue cFilter.

End InitialPass.

(** The positions pass 1b marks in the tasks of a queue, task by task. *)
Definition queue_marks {F : Type} `{CuckooFilter F} (shl_wide : Z -> Z -> Z)
    (cFilter : F) (k : nat) (queue : list Task) : nat :=
  list_sum (map (fun t => length (marked_positions shl_wide cFilter k (str t)))
              queue).

(** ** What a reported k-mer stands for *)

(** [v], on one of the strands, is read next to an indefinite character or
    at an end of a record. *)
Definition beside_gap (records : list (list ascii)) (v : list ascii) : Prop :=
  exists x w y,
    read_with_flanks records x w y /\ canonical w = canonical v /\
    (DnaChar.IsDefinite x = false \/ DnaChar.IsDefinite y = false).

(** ** The entries of a task *)

Section TaskEntries.

Context {F : Type} `{CuckooFilter F}.
Variable GetId : list ascii -> Z.
Variable INVALID_VERTEX : Z.
Variable k : nat.
Variable task : Task.
Variable candidateFilter : F.

(** The window at [pos] is the first of a record or the last of one. *)
Definition record_end (pos : nat) : bool :=
  ((start task =? 0) && (pos =? 1)%nat)
  || (isFinal task && (pos =? length (str task) - k - 1)%nat).

(** The window at [pos] is definite, the merged mask contains [pos] and
    the k-mer has an id. *)
Definition junction_here (pos : nat) : bool :=
  definiteb (StdString.substr (str task) pos k)
  && Contain (Z.of_nat pos) candidateFilter
  && negb (GetId (StdString.substr (str task) pos k) =? INVALID_VERTEX).

(** The entries for the window at [pos] when the stub counter stands at
    [stub], and the counter afterwards: the junction, or else a stub at
    an end of a record, or else nothing. *)
Definition entry_at (pos : nat) (stub : Z) : list JunctionPosition * Z :=
  let here :=
    JunctionPosition_ (seqId task) (u64 (start task + Z.of_nat pos - 1)) in
  if junction_here pos
  then ([here (GetId (StdString.substr (str task) pos k))], stub)
  else if record_end pos then ([here stub], u64 (stub + 1))
  else ([], stub).

Fixpoint entries_from (positions : list nat) (stub : Z)
  : list JunctionPosition * Z :=
  match positions with
  | [] => ([], stub)
  | pos :: rest =>
      let '(e, stub1) := entry_at pos stub in
      let '(es, stub2) := entries_from rest stub1 in
      (e ++ es, stub2)
  end.

(** The entries of the whole task: the windows at positions
    [1 .. size - k - 1]. *)
Definition task_entries (stub : Z) : list JunctionPosition * Z :=
  entries_from (seq 1 (length (str task) - k - 1)) stub.

End TaskEntries.

(** ** The counter of occurrences *)

Section EmissionCount.

Context {F : Type} `{CuckooFilter F}.




End EmissionCount.

(** ** Runs of the emission stage under a schedule *)

Section EmissionSchedule.

Context {F : Type} `{CuckooFilter F}.
Variable TASK_SIZE : nat.
Variable readFromFile : string -> bool -> gmap string F -> string + F.
Variable GetId : list ascii -> Z.
Variable INVALID_VERTEX : Z.
Variable k : nat.
Variable totalRounds : nat.
Variable tmpDirectory : string.
Variable fs : gmap string F.

(** What a worker does when it is given the turn.  At the head of the
    position loop [FlushEdgeResults] is tried first when [flush] is set
    (the call is there in every turn); a worker that drains and cannot
    flush has no step to take. *)
Definition worker_turn (flush : bool) (w : @Worker F) (sh : Shared)
  : option (@Worker F * Shared) :=
  match w_phase w with
  | Idle =>
      match w_queue w with
      | task :: queue =>
          if (length (str task) <? k + 2)%nat
          then Some (mkWorker queue (w_result w) Idle, sh)
          else
            let '(candidateFilter, error) :=
              load_masks TASK_SIZE readFromFile totalRounds tmpDirectory task fs
                (e_error sh) in
            Some (mkWorker queue (w_result w)
                    (Busy task candidateFilter 1
                       (count_definite (StdString.substr (str task) 1 k))
                       (mkEdgeResult (u32 (piece task)) [])),
                  mkShared (e_currentPiece sh) (e_writer sh) (e_occurences sh)
                    (e_stub sh) error)
      | [] => Some (mkWorker [] (w_result w) Draining, sh)
      end
  | Busy task candidateFilter pos definiteCount cur =>
      match FlushEdgeResults (w_result w) (e_writer sh) (e_currentPiece sh) with
      | (flushed, result', writer', piece') =>
          if flush && flushed
          then Some (mkWorker (w_queue w) result' (w_phase w),
                     mkShared piece' writer' (e_occurences sh) (e_stub sh)
                       (e_error sh))
          else
            let '(junctions, occurences, stub) :=
              EdgeConstruction_body GetId INVALID_VERTEX k task candidateFilter
                pos definiteCount (junction cur, e_occurences sh, e_stub sh) in
            let sh' :=
              mkShared (e_currentPiece sh) (e_writer sh) occurences stub
                (e_error sh) in
            if (pos + (k + 1) <? length (str task))%nat
            then Some (mkWorker (w_queue w) (w_result w)
                         (Busy task candidateFilter (S pos)
                            (next_definiteCount k (str task) pos definiteCount)
                            (mkEdgeResult (pieceId cur) junctions)), sh')
            else Some (mkWorker (w_queue w)
                         (w_result w ++ [mkEdgeResult (pieceId cur) junctions])
                         Idle, sh')
      end
  | Draining =>
      match w_result w with
      | [] => Some (mkWorker (w_queue w) [] Exited, sh)
      | _ =>
          match FlushEdgeResults (w_result w) (e_writer sh) (e_currentPiece sh) with
          | (true, result', writer', piece') =>
              Some (mkWorker (w_queue w) result' Draining,
                    mkShared piece' writer' (e_occurences sh) (e_stub sh)
                      (e_error sh))
          | _ => None
          end
      end
  | Exited => None
  end.

(** The state after the workers took turns as the schedule says. *)
Fixpoint run_schedule (schedule : list (nat * bool)) (st : @State F)
  : option (@State F) :=
  match schedule with
  | [] => Some st
  | (i, flush) :: rest =>
      match fst st !! i with
      | Some w =>
          match worker_turn flush w (snd st) with
          | Some (w', sh') => run_schedule rest (<[i := w']> (fst st), sh')
          | None => None
          end
      | None => None
      end
  end.

End EmissionSchedule.

(** A sample stage: two records, [k = 1], chunks of 5 characters.  The
    first record gives the pieces 0 and 1, the second the piece 2; the
    first worker has the pieces 0 and 2, the second the piece 1. *)
Definition stage_records : list (list ascii) := [dna "ACGTAC"; dna "GT"].

Definition stage_tasks : list Task := DistributeTasks 5 (1 + 1) stage_records.

Definition stage_queues : list (list Task) :=
  [ [mkTask 0 0 0 false (dna "NACGT"); mkTask 1 0 2 true (dna "NGTN")];
    [mkTask 0 3 1 true (dna "GTACN")] ].

(** The masks of the three chunks, as files. *)
Definition stage_files : gmap string (gset Z) :=
  <[CandidateMaskFileName "tmp" 0 0 0 := {[ 2; 3 ]}]>
    (<[CandidateMaskFileName "tmp" 0 3 0 := {[ 1; 2 ]}]>
       (<[CandidateMaskFileName "tmp" 1 0 0 := {[ 1 ]}]> ∅)).

(** The second worker goes through its chunk and past [GAME_OVER]. *)
Definition waiting_schedule : list (nat * bool) :=
  [(1, true); (1, true); (1, true); (1, true); (1, true)]%nat.

(** Then the first worker goes through piece 0, takes piece 2 and flushes
    piece 0 at the head of the position loop; the second worker flushes
    piece 1 and leaves; the first worker finishes piece 2, flushes it and
    leaves. *)
Definition rest_schedule : list (nat * bool) :=
  [(0, true); (0, true); (0, true); (0, true); (0, true); (0, true);
   (1, true); (1, true);
   (0, true); (0, true); (0, true); (0, true); (0, true)]%nat.

(** The state in which the second worker waits: its result, piece 1, cannot
    be flushed before piece 0, which the first worker has not begun. *)
Definition stage_waiting : State (F := gset Z) :=
  ([mkWorker [mkTask 0 0 0 false (dna "NACGT"); mkTask 1 0 2 true (dna "NGTN")]
      [] Idle;
    mkWorker []
      [mkEdgeResult 1
         [ {| chr_ := 0; pos_ := 3; bifId_ := 7 |};
           {| chr_ := 0; pos_ := 4; bifId_ := 7 |};
           {| chr_ := 0; pos_ := 5; bifId_ := 47 |} ]]
      Draining],
   mkShared 0 [] 3 48 None).

(** The state after both workers have left. *)
Definition stage_final : State (F := gset Z) :=
  ([mkWorker [] [] Exited; mkWorker [] [] Exited],
   mkShared 3
     [ {| chr_ := 0; pos_ := 0; bifId_ := 48 |};
       {| chr_ := 0; pos_ := 1; bifId_ := 7 |};
       {| chr_ := 0; pos_ := 2; bifId_ := 7 |};
       {| chr_ := 0; pos_ := 3; bifId_ := 7 |};
       {| chr_ := 0; pos_ := 4; bifId_ := 7 |};
       {| chr_ := 0; pos_ := 5; bifId_ := 47 |};
       {| chr_ := 1; pos_ := 0; bifId_ := 7 |};
       {| chr_ := 1; pos_ := 1; bifId_ := 49 |} ]
     8 50 None).

(** * Properties *)

(** ** Strings and bases *)

Lemma compare_antisym (a b : list ascii) :
  StdString.compare a b = CompOpp (StdString.compare b a).
Proof.
  revert b; induction a as [|x a IH]; intros [|y b]; simpl; try reflexivity.
  rewrite (N.compare_antisym (N_of_ascii x) (N_of_ascii y)).
  destruct (N.compare (N_of_ascii x) (N_of_ascii y)); simpl; auto.
Qed.

Lemma compare_eq (a b : list ascii) : StdString.compare a b = Eq -> a = b.
Proof.
  revert b; induction a as [|x a IH]; intros [|y b]; simpl; try congruence.
  destruct (N.compare (N_of_ascii x) (N_of_ascii y)) eqn:E; try congruence.
  intros H. apply N.compare_eq in E.
  assert (x = y).
  { rewrite <- (ascii_N_embedding x), <- (ascii_N_embedding y). congruence. }
  f_equal; auto.
Qed.


Lemma IsDefinite_cases (c : ascii) :
  DnaChar.IsDefinite c = true ->
  c = "A"%char \/ c = "C"%char \/ c = "G"%char \/ c = "T"%char.
Proof.
  destruct c as [[] [] [] [] [] [] [] []]; simpl; intros H;
    try discriminate H; auto.
Qed.

Lemma IsDefinite_LITERAL (c : ascii) :
  DnaChar.IsDefinite c = true <-> In c DnaChar.LITERAL.
Proof.
  split.
  - intros H. destruct (IsDefinite_cases c H) as [-> | [-> | [-> | ->]]];
      simpl; auto.
  - simpl. intros [<- | [<- | [<- | [<- | []]]]]; reflexivity.
Qed.

Lemma ReverseChar_definite (c : ascii) :
  DnaChar.IsDefinite c = true -> DnaChar.IsDefinite (DnaChar.ReverseChar c) = true.
Proof.
  intros H. destruct (IsDefinite_cases c H) as [-> | [-> | [-> | ->]]]; reflexivity.
Qed.

Lemma ReverseChar_involutive (c : ascii) :
  DnaChar.IsDefinite c = true -> DnaChar.ReverseChar (DnaChar.ReverseChar c) = c.
Proof.
  intros H. destruct (IsDefinite_cases c H) as [-> | [-> | [-> | ->]]]; reflexivity.
Qed.

Lemma ReverseChar_inj (c d : ascii) :
  DnaChar.IsDefinite c = true -> DnaChar.IsDefinite d = true ->
  DnaChar.ReverseChar c = DnaChar.ReverseChar d -> c = d.
Proof.
  intros Hc Hd E.
  rewrite <- (ReverseChar_involutive c Hc), <- (ReverseChar_involutive d Hd).
  now rewrite E.
Qed.

Lemma definite_app (a b : list ascii) :
  definite (a ++ b) <-> definite a /\ definite b.
Proof. unfold definite. apply Forall_app. Qed.

Lemma definite_cons (c : ascii) (s : list ascii) :
  definite (c :: s) <-> DnaChar.IsDefinite c = true /\ definite s.
Proof.
  unfold definite. split.
  - inversion 1; auto.
  - intros []; constructor; auto.
Qed.

Lemma definite_rev (s : list ascii) : definite s -> definite (rev s).
Proof. unfold definite. intros H. now apply Forall_rev. Qed.

Lemma definiteb_spec (s : list ascii) : definiteb s = true <-> definite s.
Proof.
  unfold definiteb, definite. rewrite forallb_forall, Forall_forall.
  split; intros H x Hx; apply H; now apply list_elem_of_In.
Qed.

Lemma ReverseCompliment_definite (s : list ascii) :
  definite s -> definite (DnaChar.ReverseCompliment s).
Proof.
  intros H. unfold DnaChar.ReverseCompliment.
  apply definite_rev in H. unfold definite in *.
  induction H; simpl; constructor; auto using ReverseChar_definite.
Qed.

Lemma ReverseCompliment_length (s : list ascii) :
  length (DnaChar.ReverseCompliment s) = length s.
Proof. unfold DnaChar.ReverseCompliment. now rewrite length_map, length_rev. Qed.

Lemma ReverseCompliment_app (a b : list ascii) :
  DnaChar.ReverseCompliment (a ++ b) =
  DnaChar.ReverseCompliment b ++ DnaChar.ReverseCompliment a.
Proof.
  unfold DnaChar.ReverseCompliment. now rewrite rev_app_distr, map_app.
Qed.

Lemma ReverseCompliment_involutive (s : list ascii) :
  definite s -> DnaChar.ReverseCompliment (DnaChar.ReverseCompliment s) = s.
Proof.
  induction s as [|c s IH]; intros H; [reflexivity|].
  apply definite_cons in H as [Hc Hs].
  change (c :: s) with ([c] ++ s) at 1.
  rewrite !ReverseCompliment_app. rewrite (IH Hs). simpl.
  now rewrite (ReverseChar_involutive c Hc).
Qed.

(** ** Edge encoding *)

Lemma MakeUpChar_range (c : ascii) : 0 <= DnaChar.MakeUpChar c <= 3.
Proof.
  destruct c as [[] [] [] [] [] [] [] []]; simpl; lia.
Qed.

Lemma land_3_small (a : Z) : 0 <= a <= 3 -> Z.land a 3 = a.
Proof.
  intros H. change 3 with (Z.ones 2). rewrite Z.land_ones by lia.
  apply Z.mod_small. lia.
Qed.

Lemma packed_bounds (s : list ascii) : 0 <= packed s < 4 ^ Z.of_nat (length s).
Proof.
  induction s as [|c s IH]; [simpl; lia|].
  cbn [packed length]. pose proof (MakeUpChar_range c).
  rewrite Nat2Z.inj_succ, Z.pow_succ_r by lia. lia.
Qed.

Lemma to_int_small (z : Z) : 0 <= z < 2 ^ 31 -> to_int z = z.
Proof.
  intros H. unfold to_int. rewrite Z.mod_small by lia.
  destruct (z <? 2 ^ 31) eqn:E; [reflexivity|]. apply Z.ltb_ge in E. lia.
Qed.

(** For at most 15 bases the 32-bit shift loses nothing and the loop
    computes the packed encoding. *)
Lemma convertToInt_loop_packed shl (s : list ascii) (i ret : Z) :
  0 <= i -> i + Z.of_nat (length s) <= 15 ->
  0 <= ret < 4 ^ i ->
  convertToInt_loop shl s i ret = ret + 4 ^ i * packed s.
Proof.
  revert i ret; induction s as [|c s IH]; intros i ret Hi Hlen Hret.
  - simpl. lia.
  - cbn [convertToInt_loop packed length] in *.
    rewrite Nat2Z.inj_succ in Hlen.
    pose proof (MakeUpChar_range c) as Hc.
    rewrite (land_3_small _ Hc).
    assert (Hpow : 4 ^ i = 2 ^ (2 * i)).
    { change 4 with (2 ^ 2). rewrite <- Z.pow_mul_r by lia. reflexivity. }
    assert (H4 : 0 < 4 ^ i) by (apply Z.pow_pos_nonneg; lia).
    assert (Hle : 4 ^ i <= 4 ^ 14) by (apply Z.pow_le_mono_r; lia).
    unfold shl_int.
    replace ((0 <=? 2 * i) && (2 * i <? 32)) with true
      by (symmetry; apply andb_true_iff; split;
          [apply Z.leb_le | apply Z.ltb_lt]; lia).
    rewrite <- Hpow.
    rewrite to_int_small by (change (2 ^ 31) with (2 * 4 ^ 15); nia).
    unfold u64. rewrite Z.mod_small
      by (change (2 ^ 64) with (2 ^ 34 * 4 ^ 15); nia).
    rewrite IH.
    + rewrite Z.pow_add_r by lia. change (4 ^ 1) with 4. ring.
    + lia.
    + lia.
    + rewrite Z.pow_add_r by lia. change (4 ^ 1) with 4. nia.
Qed.

Lemma convertToInt_packed shl (s : list ascii) :
  (length s <= 15)%nat -> convertToInt shl s = packed s.
Proof.
  intros H. unfold convertToInt.
  rewrite convertToInt_loop_packed; [simpl; lia | lia | lia | simpl; lia].
Qed.

Lemma lex_min_comm (a b : list ascii) : lex_min a b = lex_min b a.
Proof.
  unfold lex_min. rewrite (compare_antisym a b).
  destruct (StdString.compare b a) eqn:E; simpl; auto.
  now apply compare_eq in E.
Qed.

Lemma getCanonicalVal_lex_min shl (e : list ascii) :
  getCanonicalVal shl e = convertToInt shl (canonical e).
Proof.
  unfold getCanonicalVal, canonical, lex_min.
  rewrite (compare_antisym (DnaChar.ReverseCompliment e) e).
  destruct (StdString.compare e (DnaChar.ReverseCompliment e)); reflexivity.
Qed.

Lemma canonical_ReverseCompliment (e : list ascii) :
  definite e -> canonical (DnaChar.ReverseCompliment e) = canonical e.
Proof.
  intros H. unfold canonical.
  rewrite (ReverseCompliment_involutive e H). apply lex_min_comm.
Qed.

Lemma getCanonicalVal_ReverseCompliment shl (e : list ascii) :
  definite e ->
  getCanonicalVal shl (DnaChar.ReverseCompliment e) = getCanonicalVal shl e.
Proof.
  intros H. rewrite !getCanonicalVal_lex_min.
  now rewrite canonical_ReverseCompliment.
Qed.





(** ** The junction position file *)

Module JunctionApiFacts.
Import JunctionApi.

Lemma u32_small (z : Z) : 0 <= z < 2 ^ 32 -> u32 z = z.
Proof. intros H. unfold u32. now apply Z.mod_small. Qed.

Lemma u64_small (z : Z) : 0 <= z < 2 ^ 64 -> u64 z = z.
Proof. intros H. unfold u64. now apply Z.mod_small. Qed.

Lemma record_length (p b : Z) : length (record p b) = 12%nat.
Proof. unfold record. now rewrite length_app, !length_le_split. Qed.

Lemma separators_length (n : nat) : length (separators n) = (12 * n)%nat.
Proof.
  unfold separators. induction n as [|n IH]; [reflexivity|].
  cbn [repeat concat]. rewrite length_app, record_length, IH. lia.
Qed.

Lemma separators_S (n : nat) :
  separators (S n) = record SEPARATOR_POS SEPARATOR_BIF ++ separators n.
Proof. reflexivity. Qed.

Lemma separators_snoc (n : nat) :
  separators (S n) = separators n ++ record SEPARATOR_POS SEPARATOR_BIF.
Proof.
  unfold separators. induction n as [|n IH].
  - cbn [repeat concat]. now rewrite app_nil_r.
  - change (repeat ?x (S (S n))) with (x :: repeat x (S n)).
    cbn [concat]. rewrite IH at 1. cbn [repeat concat].
    now rewrite <- !app_assoc.
Qed.

(** Reading one record back. *)
Lemma read_record (c p b : Z) (rest : list byte) :
  0 <= p < 2 ^ 32 -> 0 <= b < 2 ^ 64 ->
  let r := {| r_nowChr := c; r_in := record p b ++ rest; r_ok := true |} in
  read 4 r =
    (Some p, {| r_nowChr := c; r_in := le_split 8 b ++ rest; r_ok := true |}) /\
  read 8 {| r_nowChr := c; r_in := le_split 8 b ++ rest; r_ok := true |} =
    (Some b, {| r_nowChr := c; r_in := rest; r_ok := true |}).
Proof.
  intros Hp Hb r. subst r. unfold read, record. cbn [r_ok r_in r_nowChr].
  rewrite <- !app_assoc.
  rewrite !length_app, !length_le_split.
  replace (4 <=? 4 + (8 + length rest))%nat with true
    by (symmetry; apply Nat.leb_le; lia).
  replace (8 <=? 8 + length rest)%nat with true
    by (symmetry; apply Nat.leb_le; lia).
  cbn [andb].
  rewrite !take_app_length', !drop_app_length' by (rewrite length_le_split; reflexivity).
  rewrite !le_combine_split.
  change (Z.of_nat 4 * 8) with 32. change (Z.of_nat 8 * 8) with 64.
  rewrite !Z.mod_small by lia. auto.
Qed.

Lemma SEPARATOR_POS_range : 0 <= SEPARATOR_POS < 2 ^ 32.
Proof. vm_compute. split; congruence. Qed.

Lemma SEPARATOR_BIF_range : 0 <= SEPARATOR_BIF < 2 ^ 64.
Proof. vm_compute. split; congruence. Qed.

(** The reader skips [n] separators, advancing the chromosome counter, and
    returns the record that follows. *)
Lemma NextJunctionPosition_fuel_skip (n : nat) :
  forall (fuel : nat) (c p b : Z) (rest : list byte),
    (n < fuel)%nat ->
    0 <= c -> c + Z.of_nat n < 2 ^ 32 ->
    0 <= p < 2 ^ 32 -> 0 <= b < 2 ^ 64 ->
    p <> SEPARATOR_POS -> b <> SEPARATOR_BIF ->
    NextJunctionPosition_fuel fuel
      {| r_nowChr := c; r_in := separators n ++ record p b ++ rest; r_ok := true |} =
    Some (Some {| chr_ := c + Z.of_nat n; pos_ := p; bifId_ := b |},
          {| r_nowChr := c + Z.of_nat n; r_in := rest; r_ok := true |}).
Proof.
  induction n as [|n IH]; intros fuel c p b rest Hf Hc Hcn Hp Hb Np Nb.
  - destruct fuel as [|fuel]; [lia|].
    cbn [separators repeat concat app NextJunctionPosition_fuel].
    destruct (read_record c p b rest Hp Hb) as [E1 E2].
    rewrite E1, E2.
    apply Z.eqb_neq in Np, Nb. rewrite Np, Nb. cbn [negb andb r_nowChr].
    now rewrite Z.add_0_r.
  - destruct fuel as [|fuel]; [lia|].
    rewrite separators_S, <- app_assoc.
    cbn [NextJunctionPosition_fuel].
    destruct (read_record c SEPARATOR_POS SEPARATOR_BIF
                (separators n ++ record p b ++ rest)
                SEPARATOR_POS_range SEPARATOR_BIF_range) as [E1 E2].
    rewrite E1, E2. rewrite Z.eqb_refl. cbn [negb andb].
    unfold incr_r. cbn [r_nowChr r_in r_ok].
    rewrite u32_small by lia.
    rewrite IH; try assumption; try lia.
    replace (c + 1 + Z.of_nat n) with (c + Z.of_nat (S n)) by lia.
    reflexivity.
Qed.

Lemma NextJunctionPosition_fuel_eof (fuel : nat) (c : Z) :
  NextJunctionPosition_fuel (S fuel)
    {| r_nowChr := c; r_in := []; r_ok := true |} =
  Some (None, {| r_nowChr := c; r_in := []; r_ok := false |}).
Proof. reflexivity. Qed.

(** [WriteJunction] pads with separators up to the chromosome of the
    tuple, then appends its record. *)
Lemma WriteJunction_loop_pad (self : JunctionPosition -> JunctionPositionWriter -> option JunctionPositionWriter)
    (pos : JunctionPosition) :
  (forall w, 0 <= w_nowChr w < 2 ^ 32 ->
     self (JunctionPosition_ (w_nowChr w) SEPARATOR_POS SEPARATOR_BIF) w =
     Some (put (JunctionPosition_ (w_nowChr w) SEPARATOR_POS SEPARATOR_BIF) w)) ->
  forall (d n : nat) (w : JunctionPositionWriter),
    (d <= n)%nat -> 0 <= w_nowChr w -> chr_ pos < 2 ^ 32 ->
    w_nowChr w + Z.of_nat d = chr_ pos ->
    WriteJunction_loop self pos n w =
    Some {| w_nowChr := chr_ pos;
            w_out := w_out w ++ separators d ++ record (pos_ pos) (bifId_ pos) |}.
Proof.
  intros Hself. induction d as [|d IH]; intros n w Hn Hc Hchr Hd.
  - destruct n; cbn [WriteJunction_loop];
      (replace (w_nowChr w <? chr_ pos) with false
        by (symmetry; apply Z.ltb_ge; lia));
      unfold put, record; cbn [separators repeat concat app];
      f_equal; f_equal; lia.
  - destruct n as [|n]; [lia|]. cbn [WriteJunction_loop].
    replace (w_nowChr w <? chr_ pos) with true
      by (symmetry; apply Z.ltb_lt; lia).
    rewrite Hself by lia.
    rewrite IH.
    + f_equal. f_equal. unfold incr_nowChr, put, JunctionPosition_.
      cbn [w_out pos_ bifId_].
      rewrite (u32_small SEPARATOR_POS SEPARATOR_POS_range).
      rewrite (u64_small SEPARATOR_BIF SEPARATOR_BIF_range).
      rewrite separators_S. unfold record. now rewrite <- !app_assoc.
    + lia.
    + unfold incr_nowChr, put. cbn [w_nowChr]. unfold u32.
      apply Z.mod_pos_bound. lia.
    + assumption.
    + unfold incr_nowChr, put. cbn [w_nowChr]. rewrite u32_small by lia. lia.
Qed.

Lemma WriteJunction_fuel_separator (fuel : nat) (w : JunctionPositionWriter) :
  0 <= w_nowChr w < 2 ^ 32 ->
  WriteJunction_fuel (S fuel)
    (JunctionPosition_ (w_nowChr w) SEPARATOR_POS SEPARATOR_BIF) w =
  Some (put (JunctionPosition_ (w_nowChr w) SEPARATOR_POS SEPARATOR_BIF) w).
Proof.
  intros H. cbn [WriteJunction_fuel].
  destruct fuel; cbn [WriteJunction_loop JunctionPosition_ chr_];
    rewrite (u32_small _ H), Z.ltb_irrefl; reflexivity.
Qed.

Lemma WriteJunction_pad (pos : JunctionPosition) (w : JunctionPositionWriter) :
  0 <= w_nowChr w <= chr_ pos -> chr_ pos < 2 ^ 32 ->
  WriteJunction pos w =
  Some {| w_nowChr := chr_ pos;
          w_out := w_out w ++ separators (Z.to_nat (chr_ pos - w_nowChr w))
                     ++ record (pos_ pos) (bifId_ pos) |}.
Proof.
  intros Hc Hchr. unfold WriteJunction. cbn [WriteJunction_fuel].
  apply WriteJunction_loop_pad; try lia.
  intros w' Hw'. now apply WriteJunction_fuel_separator.
Qed.

Lemma chr_sorted_cons (p q : JunctionPosition) (l : list JunctionPosition) :
  chr_sorted (p :: q :: l) <-> chr_ p <= chr_ q /\ chr_sorted (q :: l).
Proof. reflexivity. Qed.

Lemma WriteAll_layout (l : list JunctionPosition) :
  forall w, 0 <= w_nowChr w ->
    match l with [] => True | p :: _ => w_nowChr w <= chr_ p end ->
    chr_sorted l -> Forall wf l ->
    exists w', WriteAll l w = Some w' /\
               w_out w' = w_out w ++ layout (w_nowChr w) l.
Proof.
  induction l as [|p l IH]; intros w Hc Hfst Hs Hwf.
  - exists w. split; [reflexivity|]. cbn [layout]. now rewrite app_nil_r.
  - inversion Hwf as [|? ? Hp Hl]; subst.
    destruct Hp as [Hchr _].
    cbn [WriteAll]. rewrite WriteJunction_pad by lia.
    destruct (IH {| w_nowChr := chr_ p;
                    w_out := w_out w ++ separators (Z.to_nat (chr_ p - w_nowChr w))
                               ++ record (pos_ p) (bifId_ p) |})
      as [w' [E1 E2]].
    + cbn [w_nowChr]. lia.
    + cbn [w_nowChr]. destruct l as [|q l]; [exact I|]. apply Hs.
    + destruct l; [exact I | apply Hs].
    + assumption.
    + exists w'. split; [exact E1|]. rewrite E2. cbn [w_out w_nowChr layout].
      now rewrite <- !app_assoc.
Qed.

Lemma layout_length (l : list JunctionPosition) (c : Z) :
  (12 * length l <= length (layout c l))%nat.
Proof.
  revert c; induction l as [|p l IH]; intros c; [simpl; lia|].
  cbn [layout length]. rewrite !length_app, record_length.
  specialize (IH (chr_ p)). lia.
Qed.

Lemma ReadAll_fuel_layout (l : list JunctionPosition) :
  forall (fuel : nat) (c : Z),
    (length l < fuel)%nat -> 0 <= c ->
    match l with [] => True | p :: _ => c <= chr_ p end ->
    chr_sorted l -> Forall wf l -> Forall no_sentinel l ->
    ReadAll_fuel fuel {| r_nowChr := c; r_in := layout c l; r_ok := true |} =
    Some l.
Proof.
  induction l as [|p l IH]; intros fuel c Hf Hc Hfst Hs Hwf Hns.
  - destruct fuel; [simpl in Hf; lia|]. reflexivity.
  - destruct fuel as [|fuel]; [simpl in Hf; lia|].
    inversion Hwf as [|? ? Hp Hl]; subst.
    inversion Hns as [|? ? Np Nl]; subst.
    destruct Hp as [Hchr [Hpos Hbif]]. destruct Np as [Np Nb].
    cbn [ReadAll_fuel layout]. unfold NextJunctionPosition.
    cbn [r_in].
    rewrite NextJunctionPosition_fuel_skip; try lia; try assumption.
    + replace (c + Z.of_nat (Z.to_nat (chr_ p - c))) with (chr_ p) by lia.
      rewrite IH; try assumption.
      * destruct p; reflexivity.
      * simpl in Hf. lia.
      * lia.
      * destruct l as [|q l]; [exact I | apply Hs].
      * destruct l; [exact I | apply Hs].
    + rewrite !length_app, separators_length. lia.
Qed.

(** C3 (as the code has it).  For every finite sequence of tuples with
    non-decreasing [chr] fields in which no tuple carries the all-ones
    sentinel in [pos] or in [bifId], writing the tuples in order with
    [WriteJunction] and draining the file with [NextJunctionPosition]
    yields the same sequence; the file consists of the tuples' records
    with one separator record per chromosome step in front of them. *)
Theorem write_read_roundtrip (l : list JunctionPosition) :
  Forall wf l -> chr_sorted l -> Forall no_sentinel l ->
  exists file, file_of l = Some file /\ file = layout 0 l /\
               ReadAll file = Some l.
Proof.
  intros Hwf Hs Hns.
  assert (Hfst : match l with [] => True | p :: _ => 0 <= chr_ p end).
  { destruct l as [|p l]; [exact I|]. inversion Hwf as [|? ? [H _] _]. lia. }
  destruct (WriteAll_layout l writer_open) as [w' [E1 E2]];
    try assumption; [cbn; lia|].
  exists (w_out w'). unfold file_of. rewrite E1. split; [reflexivity|].
  cbn [writer_open w_out w_nowChr app] in E2. split; [exact E2|].
  rewrite E2. unfold ReadAll, reader_open.
  apply ReadAll_fuel_layout; try assumption; try lia.
  pose proof (layout_length l 0). lia.
Qed.

Lemma write_read_roundtrip_witness :
  exists file, file_of sample = Some file /\ file = layout 0 sample /\
               ReadAll file = Some sample.
Proof.
  apply (write_read_roundtrip sample).
  - repeat constructor; cbn; lia.
  - cbn. lia.
  - repeat constructor; vm_compute; congruence.
Defined.

(** C3 fails as stated: a tuple whose two fields are both all-ones is
    written as a record that the reader takes for a separator. *)
Lemma roundtrip_loses_sentinel_tuple :
  let l := [ {| chr_ := 0; pos_ := 2 ^ 32 - 1; bifId_ := 2 ^ 64 - 1 |} ] in
  Forall wf l /\ chr_sorted l /\
  exists file, file_of l = Some file /\ ReadAll file = Some [] /\
               ReadAll file <> Some l.
Proof.
  cbv zeta. split; [repeat constructor; cbn; lia|].
  split; [cbn; auto|].
  eexists. split; [vm_compute; reflexivity|].
  split; [vm_compute; reflexivity | vm_compute; discriminate].
Qed.

End JunctionApiFacts.

(** ** Windows and the running count of definite bases *)

Section WindowFacts.

Import StdString.

Lemma substr_length (s : list ascii) (pos n : nat) :
  (pos + n <= length s)%nat -> length (substr s pos n) = n.
Proof. intros H. unfold substr. rewrite length_take, length_drop. lia. Qed.

Lemma substr_cons (s : list ascii) (pos n : nat) :
  (pos < length s)%nat ->
  substr s pos (S n) = at_ s pos :: substr s (S pos) n.
Proof.
  intros H. unfold substr, at_.
  destruct (lookup_lt_is_Some_2 s pos H) as [x Hx].
  rewrite (drop_S s x pos Hx).
  rewrite (nth_lookup_Some s pos "000"%char x Hx). reflexivity.
Qed.

Lemma substr_snoc (s : list ascii) (pos n : nat) :
  (pos + n < length s)%nat ->
  substr s pos (S n) = substr s pos n ++ [at_ s (pos + n)].
Proof.
  revert pos; induction n as [|n IH]; intros pos H.
  - rewrite substr_cons by lia. unfold substr. cbn [take app].
    now rewrite Nat.add_0_r.
  - rewrite substr_cons by lia. rewrite IH by lia.
    rewrite (substr_cons s pos n) by lia. simpl.
    now replace (S (pos + n))%nat with (pos + S n)%nat by lia.
Qed.

Lemma count_definite_nil : count_definite [] = 0.
Proof. reflexivity. Qed.

Lemma count_definite_cons (c : ascii) (s : list ascii) :
  count_definite (c :: s) = b2z (DnaChar.IsDefinite c) + count_definite s.
Proof.
  unfold count_definite. rewrite filter_cons.
  destruct (decide (DnaChar.IsDefinite c = true)) as [E|E].
  - rewrite E. cbn [b2z length]. lia.
  - apply not_true_is_false in E. rewrite E. cbn [b2z]. lia.
Qed.

Lemma count_definite_app (a b : list ascii) :
  count_definite (a ++ b) = count_definite a + count_definite b.
Proof.
  induction a as [|c a IH]; [reflexivity|].
  cbn [app]. rewrite !count_definite_cons, IH. lia.
Qed.

Lemma count_definite_bounds (s : list ascii) :
  0 <= count_definite s <= Z.of_nat (length s).
Proof.
  induction s as [|c s IH]; [rewrite count_definite_nil; cbn [length]; lia|].
  rewrite count_definite_cons. cbn [length].
  destruct (DnaChar.IsDefinite c); cbn [b2z]; lia.
Qed.

Lemma count_definite_full (s : list ascii) :
  count_definite s = Z.of_nat (length s) <-> definite s.
Proof.
  induction s as [|c s IH].
  - split; [constructor | reflexivity].
  - rewrite count_definite_cons, definite_cons. cbn [length].
    pose proof (count_definite_bounds s).
    destruct (DnaChar.IsDefinite c); cbn [b2z].
    + rewrite <- IH. split; [intros; split; [reflexivity | lia] | intros []; lia].
    + split; [lia | intros [? _]; discriminate].
Qed.

(** Sliding the window by one position. *)
Lemma count_definite_slide (s : list ascii) (pos n : nat) :
  (pos + n < length s)%nat ->
  count_definite (substr s (S pos) n) =
  count_definite (substr s pos n)
  + (b2z (DnaChar.IsDefinite (at_ s (pos + n)))
     - b2z (DnaChar.IsDefinite (at_ s pos))).
Proof.
  intros H.
  assert (E : count_definite (substr s pos (S n)) =
              count_definite (substr s pos (S n))) by reflexivity.
  rewrite substr_cons in E at 1 by lia.
  rewrite substr_snoc in E by lia.
  rewrite count_definite_cons, count_definite_app, count_definite_cons,
    count_definite_nil in E.
  lia.
Qed.

(** The test [definiteCount == vertexLength] on a window. *)
Lemma window_test (s : list ascii) (pos n : nat) :
  (pos + n <= length s)%nat ->
  (count_definite (substr s pos n) =? Z.of_nat n) = definiteb (substr s pos n).
Proof.
  intros H. pose proof (substr_length s pos n H) as L.
  destruct (definiteb (substr s pos n)) eqn:D.
  - apply definiteb_spec, count_definite_full in D. rewrite D, L.
    apply Z.eqb_refl.
  - apply Z.eqb_neq. intros E.
    assert (E' : count_definite (substr s pos n) =
                 Z.of_nat (length (substr s pos n))) by (rewrite L; exact E).
    apply count_definite_full, definiteb_spec in E'. congruence.
Qed.

End WindowFacts.

Lemma filter_bool_cons_length {A : Type} (f : A -> bool) (c : A) (l : list A) :
  length (filter (fun x => f x = true) (c :: l)) =
  ((if f c then 1 else 0) + length (filter (fun x => f x = true) l))%nat.
Proof.
  rewrite filter_cons. destruct (f c) eqn:E; case_decide; try congruence;
    reflexivity.
Qed.

(** ** Pass 1b: candidate marking *)

Section Marking.

Context {F : Type} `{CuckooFilter F}.
Variable shl_wide : Z -> Z -> Z.
Variable TASK_SIZE : nat.
Variable cFilter : F.

(** The early exit of the literal loop does not change the outcome of the
    test: the loop stops only when one of the counts has reached 2. *)
Lemma count_loop_test (literal : list ascii) (posPrev posExtend : ascii)
    (vertex : list ascii) (inCount outCount : Z) :
  let '(i, o) := count_loop shl_wide cFilter literal posPrev posExtend vertex
                   inCount outCount in
  (1 <? i) || (1 <? o) =
  (1 <? inCount + Z.of_nat (length (filter
          (fun c => Ascii.eqb c posPrev
                    || Contain (getCanonicalVal shl_wide (c :: vertex)) cFilter = true)
          literal)))
  || (1 <? outCount + Z.of_nat (length (filter
          (fun c => Ascii.eqb c posExtend
                    || Contain (getCanonicalVal shl_wide (vertex ++ [c])) cFilter = true)
          literal))).
Proof.
  revert inCount outCount.
  induction literal as [|c literal IH]; intros inCount outCount.
  - cbn [count_loop]. rewrite !filter_nil. cbn [length].
    now rewrite !Z.add_0_r.
  - cbn [count_loop].
    destruct ((inCount <? 2) && (outCount <? 2)) eqn:G.
    + specialize (IH
        (if Ascii.eqb c posPrev
            || Contain (getCanonicalVal shl_wide (c :: vertex)) cFilter
         then inCount + 1 else inCount)
        (if Ascii.eqb c posExtend
            || Contain (getCanonicalVal shl_wide (vertex ++ [c])) cFilter
         then outCount + 1 else outCount)).
      destruct (count_loop _ _ _ _ _ _ _ _) as [i o].
      rewrite IH.
      rewrite (filter_bool_cons_length
                 (fun c => Ascii.eqb c posPrev
                    || Contain (getCanonicalVal shl_wide (c :: vertex)) cFilter)).
      rewrite (filter_bool_cons_length
                 (fun c => Ascii.eqb c posExtend
                    || Contain (getCanonicalVal shl_wide (vertex ++ [c])) cFilter)).
      cbv beta.
      destruct (Ascii.eqb c posPrev
                || Contain (getCanonicalVal shl_wide (c :: vertex)) cFilter);
      destruct (Ascii.eqb c posExtend
                || Contain (getCanonicalVal shl_wide (vertex ++ [c])) cFilter);
        rewrite ?Nat2Z.inj_add; cbn [Z.of_nat Pos.of_succ_nat];
        repeat (f_equal; try lia).
    + apply andb_false_iff in G.
      assert (Hge : 2 <= inCount \/ 2 <= outCount).
      { destruct G as [G|G]; apply Z.ltb_ge in G; auto. }
      transitivity true.
      * apply orb_true_iff.
        destruct Hge; [left | right]; apply Z.ltb_lt; lia.
      * symmetry. apply orb_true_iff.
        destruct Hge; [left | right]; apply Z.ltb_lt; lia.
Qed.

(** The worker's test is the test over the counts as the spec words
    them. *)
Lemma is_candidate_spec (vertexLength : nat) (s : list ascii) (pos : nat) :
  is_candidate shl_wide cFilter vertexLength s pos =
  spec_candidate shl_wide cFilter vertexLength s pos.
Proof.
  unfold is_candidate, counts_at, spec_candidate, spec_inCount, spec_outCount.
  pose proof (count_loop_test DnaChar.LITERAL
                (StdString.at_ s (pos - 1))
                (StdString.at_ s (pos + vertexLength))
                (StdString.substr s pos vertexLength)
                (if DnaChar.IsDefinite (StdString.at_ s (pos - 1)) then 0 else 2)
                (if DnaChar.IsDefinite (StdString.at_ s (pos + vertexLength)) then 0 else 2))
    as E.
  destruct (count_loop _ _ _ _ _ _ _ _) as [i o]. exact E.
Qed.

Lemma u64_add_l (a b : Z) : u64 (u64 a + b) = u64 (a + b).
Proof. unfold u64. apply Zplus_mod_idemp_l. Qed.

Lemma u64_id (a : Z) : 0 <= a < 2 ^ 64 -> u64 a = a.
Proof. intros Ha. unfold u64. now apply Z.mod_small. Qed.

Abbreviation marked_here vertexLength s :=
  (fun pos : nat =>
     definiteb (StdString.substr s pos vertexLength) = true
     /\ spec_candidate shl_wide cFilter vertexLength s pos = true).

(** The position loop records exactly the positions that pass the test,
    from [pos] to the last feasible position. *)
Lemma CandidateChecking_loop_spec (vertexLength : nat) (s : list ascii) :
  Z.of_nat vertexLength < 2 ^ 64 ->
  forall (d pos fuel : nat) (marks : Z) (f : F),
    (1 <= pos)%nat -> (pos + vertexLength + 1 + d = length s)%nat ->
    (d < fuel)%nat -> 0 <= marks < 2 ^ 64 ->
    CandidateChecking_loop shl_wide fuel cFilter vertexLength s pos
      (count_definite (StdString.substr s pos vertexLength)) (marks, f) =
    Some (u64 (marks + Z.of_nat (length (filter (marked_here vertexLength s)
                                           (seq pos (S d))))),
          fold_left (fun f p => add_if_absent (Z.of_nat p) f)
            (filter (marked_here vertexLength s) (seq pos (S d))) f).
Proof.
  intros Hk. induction d as [|d IH]; intros pos fuel marks f Hpos Hlen Hfuel Hm.
  - destruct fuel as [|fuel]; [lia|]. cbn [CandidateChecking_loop].
    replace (pos + (vertexLength + 1) <? length s)%nat with false
      by (symmetry; apply Nat.ltb_ge; lia).
    unfold CandidateChecking_body.
    rewrite window_test by lia. rewrite is_candidate_spec.
    cbn [seq]. rewrite filter_cons, filter_nil.
    destruct (definiteb (StdString.substr s pos vertexLength)) eqn:D;
      destruct (spec_candidate shl_wide cFilter vertexLength s pos) eqn:C;
      case_decide as X; try (exfalso; apply X; split; reflexivity);
      try (destruct X; congruence);
      cbn [length fold_left]; rewrite ?Z.add_0_r, ?(u64_id marks Hm);
      reflexivity.
  - destruct fuel as [|fuel]; [lia|]. cbn [CandidateChecking_loop].
    replace (pos + (vertexLength + 1) <? length s)%nat with true
      by (symmetry; apply Nat.ltb_lt; lia).
    rewrite <- count_definite_slide by lia.
    rewrite u64_id.
    2:{ pose proof (count_definite_bounds (StdString.substr s (S pos) vertexLength)).
        rewrite substr_length in H0 by lia. lia. }
    unfold CandidateChecking_body.
    rewrite window_test by lia. rewrite is_candidate_spec.
    change (seq pos (S (S d))) with (pos :: seq (S pos) (S d)).
    rewrite (filter_cons _ pos).
    destruct (definiteb (StdString.substr s pos vertexLength)) eqn:D;
      destruct (spec_candidate shl_wide cFilter vertexLength s pos) eqn:C;
      case_decide as X; try (exfalso; apply X; split; reflexivity);
      try (destruct X; congruence);
      rewrite IH; try lia;
      cbn [length fold_left]; rewrite ?u64_add_l;
      try (unfold u64; apply Z.mod_pos_bound; lia);
      first [reflexivity | do 3 f_equal; lia].
Qed.

(** The scan of a chunk returns the count of the marked positions and
    the filter they were recorded in. *)
Lemma CandidateChecking_scan_spec (vertexLength : nat) (s : list ascii)
    (marks : Z) :
  Z.of_nat vertexLength < 2 ^ 64 ->
  (vertexLength + 2 <= length s)%nat ->
  0 <= marks < 2 ^ 64 ->
  CandidateChecking_scan shl_wide TASK_SIZE cFilter vertexLength s marks =
    Some (u64 (marks + Z.of_nat (length (marked_positions shl_wide cFilter
                                           vertexLength s))),
          record_positions TASK_SIZE
            (marked_positions shl_wide cFilter vertexLength s)).
Proof.
  intros Hk Hlen Hm.
  unfold CandidateChecking_scan, marked_positions, record_positions.
  rewrite (CandidateChecking_loop_spec vertexLength s Hk
             (length s - vertexLength - 2) 1 (length s) marks
             (cf_new TASK_SIZE)); try lia.
  replace (S (length s - vertexLength - 2)) with (length s - vertexLength - 1)%nat
    by lia.
  reflexivity.
Qed.


End Marking.


(** ** Rounds and the hash-value range *)

(** C6.  The workers of pass 1a and pass 1b take no range: the edge
    [ACGT], whose canonical encoding 228 lies outside the range [0, 32] of a round over a filter of [2^5] slots, is
    inserted by [FilterFillerWorker], and in pass 1b the probe of the
    out-of-range value 36 (the canonical encoding of [TCGT]) decides that
    position 2 of the chunk is marked. *)
Theorem round_range_not_consulted shl :
  let low := 0 in
  let high := 2 ^ 5 in
  let task := mkTask 0 0 0 true (dna "NACGTN") in
  (exists f : gset Z,
      FilterFillerWorker shl 4 [task] ∅ = Some f /\
      getCanonicalVal shl (dna "ACGT") = 228 /\
      Within 228 low high = false /\
      Contain 228 f = true) /\
  (getCanonicalVal shl (dna "TCGT") = 36 /\
   Within 36 low high = false /\
   is_candidate shl ({[ 36 ]} : gset Z) 3 (dna "NACGTACGAN") 2 = true /\
   is_candidate shl (∅ : gset Z) 3 (dna "NACGTACGAN") 2 = false).
Proof.
  cbv zeta. split.
  - eexists. split; [vm_compute; reflexivity|].
    repeat split; vm_compute; reflexivity.
  - repeat split; vm_compute; reflexivity.
Qed.

(** ** [TrueBifurcations] and the order of the bifurcation stream *)

Lemma TrueBifurcations_loop_spec (it : list Occurence.t) :
  forall (out : list (list Z)) (tp fp : Z),
    0 <= tp < 2 ^ 64 -> 0 <= fp < 2 ^ 64 ->
    TrueBifurcations_loop it out tp fp =
    (out ++ map Occurence.GetBase
              (filter (fun o => Occurence.IsBifurcation o = true) it),
     u64 (tp + Z.of_nat (length
                (filter (fun o => Occurence.IsBifurcation o = true) it))),
     u64 (fp + Z.of_nat (length
                (filter (fun o => Occurence.IsBifurcation o = false) it)))).
Proof.
  induction it as [|o it IH]; intros out tp fp Htp Hfp.
  - cbn [TrueBifurcations_loop]. rewrite !filter_nil. cbn [map length].
    rewrite app_nil_r, !Z.add_0_r, !u64_id by assumption. reflexivity.
  - cbn [TrueBifurcations_loop]. rewrite !(filter_cons _ o).
    destruct (Occurence.IsBifurcation o) eqn:E;
      repeat case_decide; try congruence.
    + rewrite IH; [| unfold u64; apply Z.mod_pos_bound; lia | assumption].
      cbn [map length]. rewrite <- app_assoc. cbn [app].
      rewrite u64_add_l. do 3 f_equal. lia.
    + rewrite IH; [| assumption | unfold u64; apply Z.mod_pos_bound; lia].
      cbn [map length]. rewrite u64_add_l. do 2 f_equal. lia.
Qed.

(** C7 (as the code has it).  [TrueBifurcations] writes the bifurcating
    k-mers in the order in which the occurrence set is traversed, without
    sorting: the stream handed to id assignment is the flagged elements of
    the traversal in traversal order, so two runs yield the same stream
    whenever the set is traversed in the same order. *)
Theorem TrueBifurcations_traversal_order (traversal : list Occurence.t)
    (out : list (list Z)) :
  TrueBifurcations traversal out =
  (out ++ map Occurence.GetBase
            (filter (fun o => Occurence.IsBifurcation o = true) traversal),
   u64 (Z.of_nat (length
          (filter (fun o => Occurence.IsBifurcation o = true) traversal))),
   u64 (Z.of_nat (length
          (filter (fun o => Occurence.IsBifurcation o = false) traversal)))).
Proof.
  unfold TrueBifurcations.
  rewrite TrueBifurcations_loop_spec by lia. reflexivity.
Qed.

(** C7 fails as stated: for the records [GT] and [GA] and [k = 1] the
    stream of a round whose set is traversed in insertion order is [C; A],
    which is not sorted; traversed in the opposite order the same set gives
    [A; C], and the ids assigned in read order differ between the two. *)
Lemma bifurcation_stream_not_sorted :
  let tasks := DistributeTasks 16 2 [dna "GT"; dna "GA"] in
  let stream_of traversal :=
    Round_stream (F := gset Z) shl_masked 16 read_stored (fun _ => 0) (fun _ => 0)
      traversal 1 32 "tmp" 0 tasks tasks tasks ∅ in
  stream_of (fun s => s) = Some [[1]; [0]] /\
  sorted_stream [[1]; [0]] = false /\
  stream_of (@rev Occurence.t) = Some [[0]; [1]] /\
  assigned_id [[1]; [0]] [0] = Some 1 /\
  assigned_id [[0]; [1]] [0] = Some 0.
Proof.
  cbv zeta. repeat split; vm_compute; reflexivity.
Qed.

(** ** Records of exactly [k] bases and stub vertices *)

Section Stubs.

Context {F : Type} `{CuckooFilter F}.
Variable TASK_SIZE : nat.
Variable GetId : list ascii -> Z.
Variable INVALID_VERTEX : Z.

Lemma normalize_length (r : list ascii) : length (normalize r) = length r.
Proof. unfold normalize. apply length_map. Qed.

Lemma normalize_snoc (r : list ascii) (ch : ascii) :
  normalize (r ++ [ch]) =
  normalize r ++ [if DnaChar.IsDefinite ch then ch else "N"%char].
Proof. unfold normalize. now rewrite map_app. Qed.

(** A record that stays below [TASK_SIZE] becomes one final task, if it
    fills the overlap at all. *)
Lemma DistributeRecord_short (overlapSize : nat) (record : Z) (chars : list ascii) :
  forall (start prev : Z) (buf : list ascii) (pieceCount : Z),
    (length buf + length chars < TASK_SIZE)%nat ->
    DistributeRecord TASK_SIZE overlapSize record chars start prev buf pieceCount =
    if (overlapSize <=? length buf + length chars)%nat
    then ([mkTask record prev pieceCount true
             (buf ++ normalize chars ++ ["N"%char])],
          u32 (pieceCount + 1))
    else ([], pieceCount).
Proof.
  induction chars as [|ch chars IH]; intros start prev buf pieceCount Hlen.
  - cbn [DistributeRecord length normalize map app].
    now rewrite Nat.add_0_r.
  - cbn [DistributeRecord]. cbn [length] in Hlen.
    replace (length (buf ++ [if DnaChar.IsDefinite ch then ch else "N"%char])
             =? TASK_SIZE)%nat with false
      by (symmetry; apply Nat.eqb_neq; rewrite length_app; cbn [length]; lia).
    rewrite andb_false_r.
    rewrite IH by (rewrite length_app; cbn [length]; lia).
    rewrite length_app. cbn [length].
    replace (length buf + 1 + length chars)%nat
      with (length buf + S (length chars))%nat by lia.
    change (normalize (ch :: chars))
      with ((if DnaChar.IsDefinite ch then ch else "N"%char) :: normalize chars).
    rewrite <- !app_assoc. reflexivity.
Qed.

Lemma substr_whole_window (n : list ascii) (c d : ascii) :
  StdString.substr (c :: n ++ [d]) 1 (length n) = n.
Proof.
  unfold StdString.substr. change (drop 1 (c :: n ++ [d])) with (n ++ [d]).
  apply take_app_length.
Qed.

Lemma normalize_definite (r : list ascii) :
  definite (normalize r) <-> definite r.
Proof.
  unfold definite, normalize. rewrite Forall_map.
  split; intros Hr; (eapply Forall_impl; [exact Hr|]); cbn; intros c Hc;
    destruct (DnaChar.IsDefinite c) eqn:E; try reflexivity;
    try discriminate Hc; exact E.
Qed.

(** C8 (as the code has it).  A record of exactly [k] bases becomes one
    final task starting at offset 0, and the emission pass outputs exactly
    one entry for it, at position 0: the junction entry, with the id of
    the k-mer, when the k-mer is a marked candidate with a valid id, and
    in every other case a single stub entry, although the window is both
    the start and the end of the sequence.  A stub takes the current
    value of the stub counter, which then grows by one; the counter
    starts at [V + 42]. *)
Theorem single_window_record (k : nat) (r : list ascii) (record pieceCount : Z)
    (candidateFilter : F) (occurences stub : Z) :
  length r = k -> (k + 1 < TASK_SIZE)%nat ->
  let task := mkTask record 0 pieceCount true
                ("N"%char :: normalize r ++ ["N"%char]) in
  let marked_with_id :=
    definite r /\ Contain 1 candidateFilter = true /\
    GetId (normalize r) <> INVALID_VERTEX in
  DistributeRecord TASK_SIZE (k + 1) record r 0 0 ["N"%char] pieceCount =
    ([task], u32 (pieceCount + 1)) /\
  (exists id stub',
      EdgeConstruction_task GetId INVALID_VERTEX k task candidateFilter
        occurences stub =
      Some (mkEdgeResult (u32 pieceCount)
              [ {| chr_ := u32 record; pos_ := 0; bifId_ := u64 id |} ],
            u64 (occurences + 1), stub') /\
      ((marked_with_id /\ id = GetId (normalize r) /\ stub' = stub)
       \/ (~ marked_with_id /\ id = stub /\ stub' = u64 (stub + 1)))) /\
  (forall V queues error,
      e_stub (snd (initial_state (F := F) queues V error)) = u64 (V + 42)).
Proof.
  intros Hk Hsize task marked_with_id. split; [|split].
  - rewrite DistributeRecord_short by (cbn [length]; lia).
    cbn [length]. replace (k + 1 <=? 1 + length r)%nat with true
      by (symmetry; apply Nat.leb_le; lia).
    reflexivity.
  - assert (Hn : length (normalize r) = k) by (now rewrite normalize_length).
    assert (Hlen : length (str task) = S (S k)).
    { unfold task. cbn [str length]. rewrite length_app. cbn [length]. lia. }
    assert (Hw : StdString.substr (str task) 1 k = normalize r).
    { unfold task. cbn [str]. rewrite <- Hn. apply substr_whole_window. }
    assert (Hdef : count_definite (normalize r) = Z.of_nat k <-> definite r).
    { rewrite <- Hn, count_definite_full. apply normalize_definite. }
    unfold EdgeConstruction_task. rewrite Hlen.
    cbn [EdgeConstruction_loop]. rewrite Hlen.
    replace (1 + (k + 1) <? S (S k))%nat with false
      by (symmetry; apply Nat.ltb_ge; lia).
    unfold EdgeConstruction_body. rewrite Hlen, Hw.
    change (start task) with 0. change (seqId task) with record.
    change (isFinal task) with true.
    rewrite Z.eqb_refl, Nat.eqb_refl. cbn [andb orb].
    change (u64 (0 + Z.of_nat 1 - 1)) with 0.
    unfold JunctionPosition_. change (u32 0) with 0.
    destruct ((count_definite (normalize r) =? Z.of_nat k)
              && Contain (Z.of_nat 1) candidateFilter) eqn:G.
    + apply andb_true_iff in G as [G1 G2]. apply Z.eqb_eq, Hdef in G1.
      destruct (GetId (normalize r) =? INVALID_VERTEX) eqn:E; cbn [negb].
      * rewrite E. exists stub, (u64 (stub + 1)).
        split; [reflexivity | right]. split; [|auto].
        apply Z.eqb_eq in E. intros (_ & _ & Hid). contradiction.
      * rewrite E. exists (GetId (normalize r)), stub.
        split; [reflexivity|]. left. apply Z.eqb_neq in E.
        unfold marked_with_id. auto.
    + rewrite Z.eqb_refl. exists stub, (u64 (stub + 1)).
      split; [reflexivity | right]. split; [|auto].
      intros (Hd & Hc & _). apply Hdef, Z.eqb_eq in Hd.
      change (Z.of_nat 1) with 1 in G. rewrite Hd, Hc in G. discriminate G.
  - reflexivity.
Qed.

End Stubs.

Lemma single_window_record_witness :
  DistributeRecord 16 (3 + 1) 0 (dna "ACG") 0 0 ["N"%char] 0 =
    ([mkTask 0 0 0 true ("N"%char :: normalize (dna "ACG") ++ ["N"%char])],
     u32 (0 + 1)) /\
  EdgeConstruction_task (F := gset Z) (fun _ => -1) (-1) 3
    (mkTask 0 0 0 true ("N"%char :: normalize (dna "ACG") ++ ["N"%char]))
    ∅ 0 (initial_stub 5) =
  Some (mkEdgeResult 0 [ {| chr_ := 0; pos_ := 0; bifId_ := 47 |} ], 1, 48).
Proof.
  split; [|vm_compute; reflexivity].
  apply (single_window_record (F := gset Z) 16 (fun _ => -1) (-1) 3 (dna "ACG")
           0 0 ∅ 0 (initial_stub 5)); [reflexivity | lia].
Defined.

(** C8 fails as stated: the record [ACG] with [k = 3] is a single window
    that is both the start and the end of its sequence, and the emission
    pass outputs one stub entry for it, not two. *)
Lemma start_and_end_window_one_stub :
  let task := mkTask 0 0 0 true (dna "NACGN") in
  DistributeTasks 16 (3 + 1) [dna "ACG"] = [task] /\
  start task = 0 /\ isFinal task = true /\
  (1 = length (str task) - 3 - 1)%nat /\
  exists r occurences stub,
    EdgeConstruction_task (F := gset Z) (fun _ => -1) (-1) 3 task ∅ 0
      (initial_stub 5) = Some (r, occurences, stub) /\
    junction r = [ {| chr_ := 0; pos_ := 0; bifId_ := 47 |} ] /\
    length (junction r) <> 2%nat.
Proof.
  cbv zeta. split; [vm_compute; reflexivity|].
  repeat split.
  eexists _, _, _. split; [vm_compute; reflexivity|].
  split; [reflexivity | cbn; lia].
Qed.

(** ** Candidate mask files and the error slot *)

Section Masks.

Context {F : Type} `{CuckooFilterLaws F}.
Variable shl_wide : Z -> Z -> Z.
Variable TASK_SIZE : nat.
Variable readFromFile : string -> bool -> gmap string F -> string + F.
Variable RawPositiveHash RawNegativeHash : list ascii -> Z.
Variable GetId : list ascii -> Z.
Variable INVALID_VERTEX : Z.

Lemma add_if_absent_Contain (x : Z) (f : F) :
  Contain x (add_if_absent x f) = true.
Proof.
  unfold add_if_absent. destruct (Contain x f) eqn:E; [exact E|].
  apply Contain_Add.
Qed.

Lemma add_if_absent_mono (x y : Z) (f : F) :
  Contain x f = true -> Contain x (add_if_absent y f) = true.
Proof.
  intros Hx. unfold add_if_absent. destruct (Contain y f); [exact Hx|].
  now apply Contain_Add_mono.
Qed.

Lemma add_if_absent_Size (y : Z) (f : F) :
  0 < Size f -> 0 < Size (add_if_absent y f).
Proof.
  intros Hf. unfold add_if_absent. destruct (Contain y f); [exact Hf|].
  apply Size_Add.
Qed.

Lemma fold_add_if_absent_Size (ps : list nat) (f : F) :
  0 < Size f ->
  0 < Size (fold_left (fun f p => add_if_absent (Z.of_nat p) f) ps f).
Proof.
  revert f; induction ps as [|p ps IH]; intros f Hf; [exact Hf|].
  cbn [fold_left]. apply IH. now apply add_if_absent_Size.
Qed.

Lemma fold_add_if_absent_mono (ps : list nat) (f : F) (x : Z) :
  Contain x f = true ->
  Contain x (fold_left (fun f p => add_if_absent (Z.of_nat p) f) ps f) = true.
Proof.
  revert f; induction ps as [|p ps IH]; intros f Hf; [exact Hf|].
  cbn [fold_left]. apply IH. now apply add_if_absent_mono.
Qed.

(** A recorded position is in the mask. *)
Lemma record_positions_Contain (ps : list nat) (p : nat) :
  In p ps -> Contain (Z.of_nat p) (record_positions TASK_SIZE ps) = true.
Proof.
  unfold record_positions. generalize (cf_new TASK_SIZE) as f.
  induction ps as [|q ps IH]; intros f Hin; [destruct Hin|].
  cbn [fold_left]. destruct Hin as [->|Hin].
  - apply fold_add_if_absent_mono, add_if_absent_Contain.
  - now apply IH.
Qed.

(** The mask has positive size exactly when a position was recorded. *)
Lemma record_positions_Size (ps : list nat) :
  (0 <? Size (record_positions TASK_SIZE ps)) = negb (bool_decide (ps = [])).
Proof.
  unfold record_positions. destruct ps as [|p ps].
  - cbn [fold_left]. rewrite Size_new. reflexivity.
  - rewrite bool_decide_eq_false_2 by discriminate. cbn [negb fold_left].
    apply Z.ltb_lt. apply fold_add_if_absent_Size.
    unfold add_if_absent. rewrite Contain_new. apply Size_Add.
Qed.

(** What pass 1b does with one chunk. *)
Lemma CandidateChecking_task_spec (cFilter : F) (k : nat) (dir : string)
    (round : Z) (task : Task) (st : Pass1bState) :
  Z.of_nat k < 2 ^ 64 -> (k + 2 <= length (str task))%nat ->
  0 <= p1_marks st < 2 ^ 64 ->
  let recorded := marked_positions shl_wide cFilter k (str task) in
  CandidateChecking_task shl_wide TASK_SIZE cFilter k dir round task st =
  Some {| p1_fs :=
            if bool_decide (recorded = []) then p1_fs st
            else <[CandidateMaskFileName dir (seqId task) (start task) round
                   := record_positions TASK_SIZE recorded]> (p1_fs st);
          p1_error := p1_error st;
          p1_marks := u64 (p1_marks st + Z.of_nat (length recorded)) |}.
Proof.
  intros Hk Hlen Hm recorded. unfold CandidateChecking_task.
  replace (length (str task) <? k)%nat with false
    by (symmetry; apply Nat.ltb_ge; lia).
  replace (k + 2 <=? length (str task))%nat with true
    by (symmetry; apply Nat.leb_le; lia).
  rewrite (CandidateChecking_scan_spec shl_wide TASK_SIZE cFilter k (str task)
             (p1_marks st) Hk Hlen Hm). fold recorded. rewrite record_positions_Size.
  destruct (bool_decide (recorded = [])); reflexivity.
Qed.









End Masks.

(** The exact-set filter obeys the laws. *)
#[export] Instance ExactFilter_laws : CuckooFilterLaws (gset Z).
Proof.
  split; cbn.
  - intros x f. apply bool_decide_eq_true. set_solver.
  - intros x y f Hx. apply bool_decide_eq_true in Hx.
    apply bool_decide_eq_true. set_solver.
  - intros _ x. apply bool_decide_eq_false. set_solver.
  - intros _. reflexivity.
  - intros x f.
    assert (size ({[x]} ∪ f : gset Z) <> 0%nat); [|lia].
    intros E. apply size_empty_inv in E. set_solver.
Qed.


(** ** The task distributor *)

Lemma padded_length (r : list ascii) : length (padded r) = S (S (length r)).
Proof.
  unfold padded. cbn [length]. rewrite length_app, normalize_length.
  cbn [length]. lia.
Qed.

Lemma padded_app (done chars : list ascii) :
  padded (done ++ chars) =
  ("N"%char :: normalize done) ++ (normalize chars ++ ["N"%char]).
Proof.
  unfold padded, normalize. rewrite map_app. cbn [app].
  now rewrite <- app_assoc.
Qed.

Section DistributorFacts.

Variable TASK_SIZE : nat.
Variable overlapSize : nat.
Hypothesis overlap_pos : (1 <= overlapSize)%nat.
Hypothesis overlap_fits : (overlapSize < TASK_SIZE)%nat.

(** The loop over the characters of a record cuts the padded record into
    chunks.  [done] are the characters read so far, [s] is the offset of
    the chunk being filled. *)
Lemma DistributeRecord_chunks (record : Z) (chars : list ascii) :
  forall (done : list ascii) (s : nat) (buf : list ascii) (pc : Z),
    buf = drop s ("N"%char :: normalize done) ->
    (s <= length done)%nat ->
    (length buf < TASK_SIZE)%nat ->
    Z.of_nat (length done + length chars) < 2 ^ 64 ->
    exists tasks pc',
      DistributeRecord TASK_SIZE overlapSize record chars
        (Z.of_nat (length done)) (Z.of_nat s) buf pc = (tasks, pc') /\
      if (overlapSize <=? length buf + length chars)%nat
      then chunks TASK_SIZE overlapSize record (padded (done ++ chars)) s pc
             tasks pc'
      else tasks = [] /\ pc' = pc.
Proof.
  induction chars as [|ch chars IH]; intros done s buf pc Hbuf Hs Hlt Hsize.
  - cbn [DistributeRecord length]. rewrite Nat.add_0_r, app_nil_r.
    assert (Lbuf : length buf = (S (length done) - s)%nat).
    { subst buf. rewrite length_drop. cbn [length].
      now rewrite normalize_length. }
    destruct (overlapSize <=? length buf)%nat eqn:E.
    + apply Nat.leb_le in E. eexists _, _. split; [reflexivity|].
      assert (Hd : drop s (padded done) = buf ++ ["N"%char]).
      { unfold padded.
        change ("N"%char :: normalize done ++ ["N"%char])
          with (("N"%char :: normalize done) ++ ["N"%char]).
        rewrite drop_app_le by (cbn [length]; rewrite normalize_length; lia).
        now subst buf. }
      rewrite <- Hd. apply chunks_final; rewrite padded_length; lia.
    + eexists _, _. split; [reflexivity | split; reflexivity].
  - cbn [DistributeRecord].
    set (c := if DnaChar.IsDefinite ch then ch else "N"%char).
    assert (Lbuf : length buf = (S (length done) - s)%nat).
    { subst buf. rewrite length_drop. cbn [length].
      now rewrite normalize_length. }
    assert (Hbuf' : buf ++ [c] = drop s ("N"%char :: normalize (done ++ [ch]))).
    { rewrite normalize_snoc. fold c.
      change ("N"%char :: normalize done ++ [c])
        with (("N"%char :: normalize done) ++ [c]).
      rewrite drop_app_le by (cbn [length]; rewrite normalize_length; lia).
      now subst buf. }
    assert (Ldone : length (done ++ [ch]) = S (length done))
      by (rewrite length_app; cbn [length]; lia).
    assert (Hstart : u64 (Z.of_nat (length done) + 1)
                     = Z.of_nat (length (done ++ [ch]))).
    { rewrite Ldone. cbn [length] in Hsize. rewrite u64_id; lia. }
    rewrite Hstart.
    replace (done ++ ch :: chars) with ((done ++ [ch]) ++ chars)
      by (now rewrite <- app_assoc).
    rewrite length_app. cbn [length].
    destruct (length buf + 1 =? TASK_SIZE)%nat eqn:E.
    + apply Nat.eqb_eq in E.
      replace (overlapSize <=? length buf + 1)%nat with true
        by (symmetry; apply Nat.leb_le; lia).
      cbn [andb].
      replace (overlapSize <=? length buf + S (length chars))%nat with true
        by (symmetry; apply Nat.leb_le; lia).
      assert (Hprev : u64 (Z.of_nat (length (done ++ [ch]))
                           - Z.of_nat overlapSize + 1)
                      = Z.of_nat (s + TASK_SIZE - overlapSize)).
      { rewrite Ldone. cbn [length] in Hsize. rewrite u64_id; lia. }
      rewrite Hprev.
      destruct (IH (done ++ [ch]) (s + TASK_SIZE - overlapSize)%nat
                  (drop (length buf + 1 - overlapSize) (buf ++ [c]))
                  (u32 (pc + 1))) as [tasks [pc' [E1 E2]]].
      * rewrite Hbuf', drop_drop. f_equal. lia.
      * rewrite Ldone. lia.
      * rewrite length_drop, length_app. cbn [length]. lia.
      * rewrite Ldone. cbn [length] in Hsize. lia.
      * rewrite E1. eexists _, _. split; [reflexivity|].
        replace (overlapSize <=?
                 length (drop (length buf + 1 - overlapSize) (buf ++ [c]))
                 + length chars)%nat with true in E2
          by (symmetry; apply Nat.leb_le; rewrite length_drop, length_app;
              cbn [length]; lia).
        assert (Hstr : buf ++ [c] =
                       StdString.substr (padded ((done ++ [ch]) ++ chars)) s
                         TASK_SIZE).
        { unfold StdString.substr. rewrite padded_app.
          rewrite drop_app_le
            by (cbn [length]; rewrite normalize_length, Ldone; lia).
          rewrite <- Hbuf'.
          rewrite take_app_length' by (rewrite length_app; cbn [length]; lia).
          reflexivity. }
        rewrite Hstr. apply chunks_cons; [|exact E2].
        rewrite padded_length, length_app, Ldone. lia.
    + apply Nat.eqb_neq in E. rewrite andb_false_r.
      destruct (IH (done ++ [ch]) s (buf ++ [c]) pc) as [tasks [pc' [E1 E2]]].
      * exact Hbuf'.
      * rewrite Ldone. lia.
      * rewrite length_app. cbn [length]. lia.
      * rewrite Ldone. cbn [length] in Hsize. lia.
      * rewrite E1. eexists _, _. split; [reflexivity|].
        rewrite length_app in E2. cbn [length] in E2.
        replace (length buf + 1 + length chars)%nat
          with (length buf + S (length chars))%nat in E2 by lia.
        exact E2.
Qed.

(** The tasks of a whole record. *)
Lemma DistributeRecord_record (record : Z) (r : list ascii) (pc : Z) :
  Z.of_nat (length r) < 2 ^ 64 ->
  exists tasks pc',
    DistributeRecord TASK_SIZE overlapSize record r 0 0 ["N"%char] pc
      = (tasks, pc') /\
    if (overlapSize <=? 1 + length r)%nat
    then chunks TASK_SIZE overlapSize record (padded r) 0 pc tasks pc'
    else tasks = [] /\ pc' = pc.
Proof.
  intros Hsize.
  apply (DistributeRecord_chunks record r [] 0 ["N"%char] pc);
    cbn [length]; try reflexivity; lia.
Qed.

End DistributorFacts.

Section ChunkFacts.

Variable TASK_SIZE : nat.
Variable k : nat.
Hypothesis size_fits : (k + 2 <= TASK_SIZE)%nat.

Lemma DistributeRecords_all_chunks (rs : list (list ascii)) :
  forall (i : nat) (pc : Z),
    Z.of_nat (i + length rs) < 2 ^ 64 ->
    Forall (fun r => Z.of_nat (length r) < 2 ^ 64) rs ->
    exists pc',
      all_chunks TASK_SIZE (k + 1) i pc rs
        (DistributeRecords TASK_SIZE (k + 1) rs (Z.of_nat i) pc) pc'.
Proof.
  induction rs as [|r rs IH]; intros i pc Hi Hrs.
  - exists pc. constructor.
  - cbn [DistributeRecords]. inversion Hrs as [|? ? Hr Hrs']; subst.
    destruct (DistributeRecord_record TASK_SIZE (k + 1) ltac:(lia) ltac:(lia)
                (Z.of_nat i) r pc Hr) as [tasks [pc1 [E1 E2]]].
    rewrite E1.
    replace (u64 (Z.of_nat i + 1)) with (Z.of_nat (S i))
      by (cbn [length] in Hi; rewrite u64_id; lia).
    destruct (IH (S i) pc1) as [pc' IH'];
      [cbn [length] in Hi; lia | assumption |].
    exists pc'.
    destruct (k + 1 <=? 1 + length r)%nat eqn:E.
    + eapply all_chunks_cons; eauto.
    + destruct E2 as [-> ->]. apply Nat.leb_gt in E.
      cbn [app]. apply all_chunks_short; [lia | exact IH'].
Qed.

Lemma chunks_tasks (record : Z) (P : list ascii) (s : nat) (pc : Z)
    (tasks : list Task) (pc' : Z) :
  chunks TASK_SIZE (k + 1) record P s pc tasks pc' ->
  Forall (fun t => exists st, chunk_of record P st t /\ (s <= st)%nat /\
                              (k + 2 <= length (str t) <= TASK_SIZE)%nat) tasks.
Proof.
  induction 1 as [s pc H1 H2 | s pc rest pc' H1 _ IH].
  - constructor; [|constructor]. exists s. unfold chunk_of. cbn [seqId start str].
    rewrite length_drop. repeat split; try lia.
    unfold StdString.substr. rewrite take_ge; [reflexivity|].
    rewrite length_drop. lia.
  - constructor.
    + exists s. unfold chunk_of. cbn [seqId start str].
      rewrite substr_length by lia. repeat split; try lia.
    + eapply Forall_impl; [exact IH|]. cbn beta.
      intros t [st [Hc [Hs Hl]]]. exists st. split; [exact Hc | lia].
Qed.

Lemma chunks_nonempty (record : Z) (P : list ascii) (s : nat) (pc : Z)
    (tasks : list Task) (pc' : Z) :
  chunks TASK_SIZE (k + 1) record P s pc tasks pc' -> (1 <= length tasks)%nat.
Proof. destruct 1; cbn [length]; lia. Qed.

Lemma chunks_sorted (record : Z) (P : list ascii) (s : nat) (pc : Z)
    (tasks : list Task) (pc' : Z) :
  chunks TASK_SIZE (k + 1) record P s pc tasks pc' ->
  StronglySorted (task_before k) tasks.
Proof.
  induction 1 as [s pc H1 H2 | s pc rest pc' H1 Hrest IH].
  - repeat constructor.
  - constructor; [exact IH|].
    apply chunks_tasks in Hrest.
    eapply Forall_impl; [exact Hrest|]. cbn beta.
    intros t [st [[Hq [Hst _]] [Hs _]]]. right. cbn [seqId start str].
    rewrite substr_length by lia. split; [congruence | lia].
Qed.

Lemma chunks_cover (record : Z) (P : list ascii) (s : nat) (pc : Z)
    (tasks : list Task) (pc' : Z) :
  chunks TASK_SIZE (k + 1) record P s pc tasks pc' ->
  forall q : nat,
    (s <= q)%nat -> (q + k + 2 <= length P)%nat ->
    exists t st, In t tasks /\ chunk_of record P st t /\
                 (st <= q)%nat /\ (q + k + 2 <= st + length (str t))%nat.
Proof.
  induction 1 as [s pc H1 H2 | s pc rest pc' H1 Hrest IH]; intros q Hq Hend.
  - eexists _, s. split; [left; reflexivity|].
    unfold chunk_of. cbn [seqId start str]. rewrite length_drop.
    repeat split; try lia.
    unfold StdString.substr. rewrite take_ge; [reflexivity|].
    rewrite length_drop. lia.
  - destruct (le_lt_dec (q + k + 2) (s + TASK_SIZE)) as [Hin|Hout].
    + eexists _, s. split; [left; reflexivity|].
      unfold chunk_of. cbn [seqId start str].
      rewrite substr_length by lia. repeat split; try lia.
    + destruct (IH q) as [t [st [Hin [Hc Hr]]]]; try lia.
      exists t, st. split; [right; exact Hin | split; assumption].
Qed.

Lemma chunks_pieces (record : Z) (P : list ascii) (s : nat) (pc : Z)
    (tasks : list Task) (pc' : Z) :
  chunks TASK_SIZE (k + 1) record P s pc tasks pc' ->
  0 <= pc -> pc + Z.of_nat (length tasks) < 2 ^ 32 ->
  pc' = pc + Z.of_nat (length tasks) /\
  forall (j : nat) (t : Task), tasks !! j = Some t -> piece t = pc + Z.of_nat j.
Proof.
  induction 1 as [s pc H1 H2 | s pc rest pc' H1 Hrest IH]; intros Hpc Hn.
  - cbn [length] in *. split; [apply JunctionApiFacts.u32_small; lia|].
    intros [|j] t Hj; cbn in Hj; [|discriminate].
    injection Hj as <-. cbn [piece]. lia.
  - cbn [length] in Hn.
    assert (E : u32 (pc + 1) = pc + 1)
      by (apply JunctionApiFacts.u32_small; lia).
    rewrite E in IH. destruct IH as [IH1 IH2]; [lia | lia |].
    split; [cbn [length]; lia|].
    intros [|j] t Hj; cbn in Hj.
    + injection Hj as <-. cbn [piece]. lia.
    + rewrite (IH2 j t Hj). lia.
Qed.

(** *** All records *)

Lemma all_chunks_pieces (i : nat) (pc : Z) (rs : list (list ascii))
    (ts : list Task) (pc' : Z) :
  all_chunks TASK_SIZE (k + 1) i pc rs ts pc' ->
  0 <= pc -> pc + Z.of_nat (length ts) < 2 ^ 32 ->
  pc' = pc + Z.of_nat (length ts) /\
  forall (j : nat) (t : Task), ts !! j = Some t -> piece t = pc + Z.of_nat j.
Proof.
  induction 1 as [i pc | i pc r rs rest pc' Hshort _ IH
                  | i pc r rs tasks pc1 rest pc' Hc _ IH]; intros Hpc Hn.
  - cbn [length]. split; [lia|]. intros j t Hj. destruct j; discriminate Hj.
  - now apply IH.
  - rewrite length_app in Hn.
    destruct (chunks_pieces _ _ _ _ _ _ Hc Hpc) as [E1 E2]; [lia|].
    destruct IH as [E3 E4]; [lia | lia |].
    split; [rewrite length_app; lia|].
    intros j t Hj. apply lookup_app_Some in Hj as [Hj|[Hge Hj]].
    + now apply E2.
    + rewrite (E4 _ _ Hj). lia.
Qed.

Lemma all_chunks_seqId (i : nat) (pc : Z) (rs : list (list ascii))
    (ts : list Task) (pc' : Z) :
  all_chunks TASK_SIZE (k + 1) i pc rs ts pc' ->
  Forall (fun t => Z.of_nat i <= seqId t < Z.of_nat (i + length rs)) ts.
Proof.
  induction 1 as [i pc | i pc r rs rest pc' Hshort _ IH
                  | i pc r rs tasks pc1 rest pc' Hc _ IH].
  - constructor.
  - eapply Forall_impl; [exact IH|]. cbn [length]. intros t. cbn beta. lia.
  - apply Forall_app. split.
    + apply chunks_tasks in Hc. eapply Forall_impl; [exact Hc|]. cbn beta.
      intros t [st [[Hq _] _]]. cbn [length]. lia.
    + eapply Forall_impl; [exact IH|]. cbn [length]. intros t. cbn beta. lia.
Qed.

Lemma all_chunks_sorted (i : nat) (pc : Z) (rs : list (list ascii))
    (ts : list Task) (pc' : Z) :
  all_chunks TASK_SIZE (k + 1) i pc rs ts pc' ->
  StronglySorted (task_before k) ts.
Proof.
  induction 1 as [i pc | i pc r rs rest pc' Hshort _ IH
                  | i pc r rs tasks pc1 rest pc' Hc Hrest IH].
  - constructor.
  - exact IH.
  - apply StronglySorted_app_2; [| eapply chunks_sorted; eauto | exact IH].
    intros t t' Ht Ht'. left.
    apply chunks_tasks in Hc. rewrite Forall_forall in Hc.
    destruct (Hc t Ht) as [st [[Hq _] _]].
    apply all_chunks_seqId in Hrest. rewrite Forall_forall in Hrest.
    specialize (Hrest t' Ht'). lia.
Qed.

Lemma all_chunks_in_range (i : nat) (pc : Z) (rs : list (list ascii))
    (ts : list Task) (pc' : Z) :
  all_chunks TASK_SIZE (k + 1) i pc rs ts pc' ->
  Z.of_nat (i + length rs) <= 2 ^ 32 ->
  Forall (fun r => Z.of_nat (length r) + 2 <= 2 ^ 32) rs ->
  Forall (task_in_range k) ts.
Proof.
  intros Hall.
  induction Hall as [i pc | i pc r rs rest pc' Hshort _ IH
                     | i pc r rs tasks pc1 rest pc' Hc _ IH];
    intros Hi Hrs.
  - constructor.
  - inversion Hrs; subst. apply IH; [cbn [length] in Hi; lia | assumption].
  - inversion Hrs as [|? ? Hr Hrs']; subst. apply Forall_app. split.
    + apply chunks_tasks in Hc. eapply Forall_impl; [exact Hc|]. cbn beta.
      intros t [st [[Hq [Hst [Hle _]]] [_ Hl]]].
      rewrite padded_length in Hle. unfold task_in_range.
      cbn [length] in Hi. lia.
    + apply IH; [cbn [length] in Hi; lia | assumption].
Qed.

(** Every window of [k + 2] characters of a padded record lies in a task
    of that record. *)
Lemma all_chunks_cover (i : nat) (pc : Z) (rs : list (list ascii))
    (ts : list Task) (pc' : Z) :
  all_chunks TASK_SIZE (k + 1) i pc rs ts pc' ->
  forall (j : nat) (r : list ascii) (q : nat),
    rs !! j = Some r -> (q + k + 2 <= length (padded r))%nat ->
    exists t st, In t ts /\ chunk_of (Z.of_nat (i + j)) (padded r) st t /\
                 (st <= q)%nat /\ (q + k + 2 <= st + length (str t))%nat.
Proof.
  induction 1 as [i pc | i pc r0 rs rest pc' Hshort _ IH
                  | i pc r0 rs tasks pc1 rest pc' Hc _ IH];
    intros j r q Hj Hq.
  - destruct j; discriminate Hj.
  - destruct j as [|j]; cbn in Hj.
    + injection Hj as ->. rewrite padded_length in Hq. lia.
    + destruct (IH j r q Hj Hq) as [t [st [Hin Hrest]]].
      exists t, st. split; [exact Hin|].
      replace (i + S j)%nat with (S i + j)%nat by lia. exact Hrest.
  - destruct j as [|j]; cbn in Hj.
    + injection Hj as ->.
      destruct (chunks_cover _ _ _ _ _ _ Hc q) as [t [st [Hin Hrest]]];
        [lia | lia |].
      exists t, st. split; [apply in_or_app; left; exact Hin|].
      now rewrite Nat.add_0_r.
    + destruct (IH j r q Hj Hq) as [t [st [Hin Hrest]]].
      exists t, st. split; [apply in_or_app; right; exact Hin|].
      replace (i + S j)%nat with (S i + j)%nat by lia. exact Hrest.
Qed.

End ChunkFacts.

(** ** The emission stage *)

Section EmissionFacts.

Context {F : Type} `{CuckooFilter F}.
Variable TASK_SIZE : nat.
Variable readFromFile : string -> bool -> gmap string F -> string + F.
Variable GetId : list ascii -> Z.
Variable INVALID_VERTEX : Z.
Variable k : nat.
Variable totalRounds : nat.
Variable tmpDirectory : string.
Variable fs : gmap string F.

Local Abbreviation worker_step :=
  (worker_step TASK_SIZE readFromFile GetId INVALID_VERTEX k totalRounds
     tmpDirectory fs).
Local Abbreviation step :=
  (step TASK_SIZE readFromFile GetId INVALID_VERTEX k totalRounds
     tmpDirectory fs).

(** One turn of the position loop appends at most one entry, for the
    window at [pos]. *)
Lemma EdgeConstruction_body_entries (task : Task) (candidateFilter : F)
    (pos : nat) (definiteCount : Z) (junctions : list JunctionPosition)
    (occurences stub : Z) junctions' occurences' stub' :
  EdgeConstruction_body GetId INVALID_VERTEX k task candidateFilter pos
    definiteCount (junctions, occurences, stub)
    = (junctions', occurences', stub') ->
  junctions' = junctions
  \/ exists id, junctions' =
                junctions ++ [JunctionPosition_ (seqId task)
                                (u64 (start task + Z.of_nat pos - 1)) id].
Proof.
  unfold EdgeConstruction_body.
  destruct ((definiteCount =? Z.of_nat k)
            && Contain (Z.of_nat pos) candidateFilter).
  - destruct (GetId (StdString.substr (str task) pos k) =? INVALID_VERTEX) eqn:E;
      cbn [negb].
    + rewrite E.
      destruct (((start task =? 0) && (pos =? 1)%nat)
                || (isFinal task && (pos =? length (str task) - k - 1)%nat));
        cbn [andb]; intros [= <- <- <-]; eauto.
    + rewrite E, andb_false_r. intros [= <- <- <-]; eauto.
  - rewrite Z.eqb_refl, andb_true_r.
    destruct (((start task =? 0) && (pos =? 1)%nat)
              || (isFinal task && (pos =? length (str task) - k - 1)%nat));
      intros [= <- <- <-]; eauto.
Qed.

Lemma entries_of_nil (t : Task) (lo hi : nat) : entries_of t lo hi [].
Proof. exists [], []. repeat split; constructor. Qed.

Lemma entries_of_weaken (t : Task) (lo hi hi' : nat) js :
  entries_of t lo hi js -> (hi <= hi')%nat -> entries_of t lo hi' js.
Proof.
  intros [ps [ids [Hl [Hj [Hs Hr]]]]] Hle. exists ps, ids.
  repeat split; auto. eapply Forall_impl; [exact Hr|]. cbn beta. lia.
Qed.

Lemma entries_of_snoc (t : Task) (lo pos : nat) js (id : Z) :
  entries_of t lo pos js -> (lo <= pos)%nat ->
  entries_of t lo (S pos)
    (js ++ [JunctionPosition_ (seqId t) (u64 (start t + Z.of_nat pos - 1)) id]).
Proof.
  intros [ps [ids [Hl [Hj [Hs Hr]]]]] Hle.
  exists (ps ++ [pos]), (ids ++ [id]). split; [|split; [|split]].
  - rewrite !length_app. cbn [length]. lia.
  - rewrite zip_with_app by exact Hl. now rewrite Hj.
  - apply StronglySorted_app_2; [| exact Hs | repeat constructor].
    intros x y Hx Hy. apply list_elem_of_singleton in Hy. subst y.
    rewrite Forall_forall in Hr. specialize (Hr x Hx). lia.
  - apply Forall_app. split.
    + eapply Forall_impl; [exact Hr|]. cbn beta. lia.
    + repeat constructor; lia.
Qed.

Lemma EdgeConstruction_body_entries_of (task : Task) (candidateFilter : F)
    (pos : nat) (definiteCount : Z) (junctions : list JunctionPosition)
    (occurences stub : Z) junctions' occurences' stub' :
  EdgeConstruction_body GetId INVALID_VERTEX k task candidateFilter pos
    definiteCount (junctions, occurences, stub)
    = (junctions', occurences', stub') ->
  (1 <= pos)%nat ->
  entries_of task 1 pos junctions ->
  entries_of task 1 (S pos) junctions'.
Proof.
  intros Hb Hpos He.
  destruct (EdgeConstruction_body_entries _ _ _ _ _ _ _ _ _ _ Hb)
    as [->|[id ->]].
  - eapply entries_of_weaken; [exact He | lia].
  - now apply entries_of_snoc.
Qed.

(** *** Preservation of the invariant *)

Variable ts : list Task.
Hypothesis pieces_in_order :
  forall (j : nat) (t : Task), ts !! j = Some t -> piece t = Z.of_nat j.
Hypothesis pieces_fit : Z.of_nat (length ts) < 2 ^ 32.

Lemma task_index (t : Task) :
  In t ts -> ts !! Z.to_nat (u32 (piece t)) = Some t.
Proof.
  intros Hin. apply list_elem_of_In, list_elem_of_lookup in Hin as [j Hj].
  rewrite (pieces_in_order j t Hj).
  pose proof (lookup_lt_Some _ _ _ Hj).
  rewrite JunctionApiFacts.u32_small by lia. now rewrite Nat2Z.id.
Qed.

Lemma worker_step_inv (w w' : Worker) (sh sh' : Shared) :
  worker_step w sh w' sh' ->
  worker_ok k ts w -> flushed_ok k ts sh ->
  worker_ok k ts w' /\ flushed_ok k ts sh'.
Proof.
  intros Hstep [Hq [Hr Hp]] Hf.
  inversion Hstep; subst; cbn [w_queue w_result w_phase] in *.
  - (* skip *)
    split; [|exact Hf]. inversion Hq; subst. repeat split; auto.
  - (* begin *)
    split.
    + inversion Hq; subst. repeat split; auto; cbn [pieceId junction]; try lia.
      apply entries_of_nil.
    + destruct Hf as [fl Hfl]. exists fl. exact Hfl.
  - (* flush *)
    match goal with
    | HF : FlushEdgeResults _ _ _ = _ |- _ => rename HF into Hflush
    end.
    unfold FlushEdgeResults in Hflush.
    destruct result as [|front rest]; [discriminate Hflush|].
    destruct (pieceId front =? e_currentPiece sh) eqn:E;
      [|discriminate Hflush].
    injection Hflush as <- <- <-. apply Z.eqb_eq in E.
    inversion Hr as [|? ? [t [Hin Hres]] Hrest]; subst.
    split; [repeat split; auto|].
    destruct Hf as [fl [Hw [Hc H2]]].
    exists (fl ++ [front]). cbn [e_writer e_currentPiece]. split; [|split].
    + rewrite map_app, concat_app, Hw. cbn [map concat].
      now rewrite app_nil_r.
    + rewrite length_app. cbn [length].
      pose proof (Forall2_length _ _ _ H2) as HL. rewrite length_take in HL.
      rewrite Hc, u64_id; lia.
    + pose proof (task_index t Hin) as Hidx.
      destruct Hres as [Hpid Hent].
      rewrite <- Hpid, E, Hc, Nat2Z.id in Hidx.
      rewrite length_app. cbn [length].
      replace (length fl + 1)%nat with (S (length fl)) by lia.
      rewrite (take_S_r _ _ _ Hidx).
      apply Forall2_app; [exact H2|]. constructor; [|constructor].
      split; [exact Hpid | exact Hent].
  - (* iterate *)
    destruct Hp as [Hin [Hpos [Hlen [Hpid Hent]]]].
    split.
    + repeat split; auto; cbn [pieceId junction]; try lia.
      eapply EdgeConstruction_body_entries_of; eauto.
    + destruct Hf as [fl Hfl]. exists fl. exact Hfl.
  - (* finish *)
    destruct Hp as [Hin [Hpos [Hlen [Hpid Hent]]]].
    split.
    + repeat split; auto. apply Forall_app. split; [exact Hr|].
      constructor; [|constructor]. exists task. split; [exact Hin|].
      split; [exact Hpid|]. cbn [junction].
      replace (length (str task) - k)%nat with (S pos) by lia.
      eapply EdgeConstruction_body_entries_of; eauto.
    + destruct Hf as [fl Hfl]. exists fl. exact Hfl.
  - (* game over *)
    split; [repeat split; auto | exact Hf].
  - (* exit *)
    split; [repeat split; auto | exact Hf].
Qed.

Lemma step_inv (st st' : State) :
  step st st' -> emission_inv k ts st -> emission_inv k ts st'.
Proof.
  intros Hstep [Hws Hsh]. inversion Hstep as [i ws sh w w' sh' Hi Hw]; subst.
  cbn [fst snd] in *.
  assert (Hwok : worker_ok k ts w).
  { rewrite Forall_forall in Hws. apply Hws.
    apply list_elem_of_lookup. eauto. }
  destruct (worker_step_inv w w' sh sh' Hw Hwok Hsh) as [Hw' Hsh'].
  split; [|exact Hsh']. cbn [fst].
  apply Forall_insert; assumption.
Qed.

Lemma initial_state_inv (queues : list (list Task)) (V : Z)
    (error : option string) :
  Forall (Forall (fun t => In t ts)) queues ->
  emission_inv k ts (initial_state (F := F) queues V error).
Proof.
  intros Hq. split.
  - cbn [initial_state fst]. apply Forall_map.
    eapply Forall_impl; [exact Hq|]. cbn beta. intros q Hin.
    repeat split; cbn [w_queue w_result w_phase]; auto.
  - exists []. cbn. repeat split; constructor.
Qed.

Lemma reachable_inv (queues : list (list Task)) (V : Z)
    (error : option string) (st : State) :
  Forall (Forall (fun t => In t ts)) queues ->
  rtc step (initial_state (F := F) queues V error) st ->
  emission_inv k ts st.
Proof.
  intros Hq Hrtc.
  pose proof (initial_state_inv queues V error Hq) as Hinit.
  induction Hrtc as [|x y z Hxy _ IH]; [exact Hinit|].
  apply IH. eapply step_inv; eauto.
Qed.

End EmissionFacts.

(** *** The order of the output *)

Section OutputOrder.

Variable k : nat.

Lemma entries_sorted (t : Task) (ps : list nat) :
  task_in_range k t ->
  forall ids : list Z,
    StronglySorted lt ps ->
    Forall (fun p => (1 <= p < length (str t) - k)%nat) ps ->
    let js := zip_with
                (fun p id => JunctionPosition_ (seqId t)
                               (u64 (start t + Z.of_nat p - 1)) id) ps ids in
    StronglySorted jp_lt js /\
    Forall (fun x => chr_ x = seqId t /\
                     exists p, In p ps /\ pos_ x = start t + Z.of_nat p - 1) js.
Proof.
  intros [Hseq [Hst [Hend Hlen]]].
  induction ps as [|p ps IH]; intros ids Hs Hr js.
  - subst js. cbn. split; constructor.
  - destruct ids as [|id ids]; [subst js; cbn; split; constructor|].
    inversion Hs as [|? ? Hs' Hlt]; subst.
    inversion Hr as [|? ? Hp Hr']; subst.
    destruct (IH ids Hs' Hr') as [IH1 IH2].
    assert (Hchr : u32 (seqId t) = seqId t)
      by (apply JunctionApiFacts.u32_small; lia).
    assert (Hpos : u32 (u64 (start t + Z.of_nat p - 1))
                   = start t + Z.of_nat p - 1).
    { rewrite u64_id by lia. apply JunctionApiFacts.u32_small. lia. }
    subst js. cbn [zip_with]. split.
    + constructor; [exact IH1|].
      eapply Forall_impl; [exact IH2|]. cbn beta.
      intros x [Hx [q [Hq Hxq]]]. right.
      unfold JunctionPosition_. cbn [chr_ pos_]. rewrite Hchr, Hpos.
      split; [congruence|].
      rewrite Forall_forall in Hlt.
      specialize (Hlt q ltac:(now apply list_elem_of_In)). lia.
    + constructor.
      * unfold JunctionPosition_. cbn [chr_ pos_]. rewrite Hchr, Hpos.
        split; [reflexivity|]. exists p. split; [now left | reflexivity].
      * eapply Forall_impl; [exact IH2|]. cbn beta.
        intros x [Hx [q [Hq Hxq]]]. split; [exact Hx|].
        exists q. split; [now right | exact Hxq].
Qed.

Lemma result_sorted (t : Task) (r : EdgeResult) :
  task_in_range k t -> result_of k t r ->
  StronglySorted jp_lt (junction r) /\
  Forall (fun x => chr_ x = seqId t /\
                   start t <= pos_ x <=
                     start t + Z.of_nat (length (str t)) - Z.of_nat k - 2)
    (junction r).
Proof.
  intros Hrange [_ [ps [ids [Hl [Hj [Hs Hr]]]]]].
  destruct (entries_sorted t ps Hrange ids Hs Hr) as [E1 E2].
  rewrite Hj. split; [exact E1|].
  eapply Forall_impl; [exact E2|]. cbn beta.
  intros x [Hx [p [Hp Hxp]]]. split; [exact Hx|].
  rewrite Forall_forall in Hr.
  specialize (Hr p ltac:(now apply list_elem_of_In)).
  destruct Hrange as [_ [_ [_ Hlen]]]. lia.
Qed.

Lemma results_sorted (tasks : list Task) (flushed : list EdgeResult) :
  StronglySorted (task_before k) tasks ->
  Forall (task_in_range k) tasks ->
  Forall2 (result_of k) tasks flushed ->
  StronglySorted jp_lt (concat (map junction flushed)) /\
  Forall (fun x => exists t, In t tasks /\ chr_ x = seqId t /\
                   start t <= pos_ x <=
                     start t + Z.of_nat (length (str t)) - Z.of_nat k - 2)
    (concat (map junction flushed)).
Proof.
  intros Hs Hr H2. induction H2 as [|t r tasks flushed Hres _ IH].
  - cbn. split; constructor.
  - inversion Hs as [|? ? Hs' Hbefore]; subst.
    inversion Hr as [|? ? Ht Hr']; subst.
    destruct (IH Hs' Hr') as [IH1 IH2].
    destruct (result_sorted t r Ht Hres) as [R1 R2].
    cbn [map concat]. split.
    + apply StronglySorted_app_2; [| exact R1 | exact IH1].
      intros x y Hx Hy.
      rewrite Forall_forall in R2. rewrite Forall_forall in IH2.
      rewrite Forall_forall in Hbefore.
      destruct (R2 x Hx) as [Hcx Hpx].
      destruct (IH2 y Hy) as [t' [Hin' [Hcy Hpy]]].
      specialize (Hbefore t' ltac:(now apply list_elem_of_In)).
      unfold jp_lt. rewrite Hcx, Hcy.
      destruct Hbefore as [Hlt|[Heq Hle]]; [left; exact Hlt|].
      right. split; [exact Heq | lia].
    + apply Forall_app. split.
      * eapply Forall_impl; [exact R2|]. cbn beta. intros x Hx.
        exists t. split; [now left | exact Hx].
      * eapply Forall_impl; [exact IH2|]. cbn beta.
        intros x [t' [Hin' Hx]]. exists t'. split; [now right | exact Hx].
Qed.

Lemma jp_sorted_positions (l : list JunctionPosition) :
  StronglySorted jp_lt l ->
  forall (i j : nat) (a b : JunctionPosition),
    (i < j)%nat -> l !! i = Some a -> l !! j = Some b ->
    chr_ a = chr_ b -> pos_ a < pos_ b.
Proof.
  induction 1 as [|x l Hs IH Hall]; intros i j a b Hij Hi Hj Hchr.
  - destruct i; discriminate Hi.
  - destruct j as [|j]; [lia|]. cbn in Hj. destruct i as [|i].
    + cbn in Hi. injection Hi as <-.
      rewrite Forall_forall in Hall.
      destruct (Hall b) as [Hlt|[_ Hlt]];
        [apply list_elem_of_lookup; eauto | lia | exact Hlt].
    + cbn in Hi. apply (IH i j a b); auto; lia.
Qed.

End OutputOrder.

Lemma dispatch_tasks (owner : Z -> nat) (threads : nat) (tasks : list Task) :
  Forall (Forall (fun t => In t tasks)) (dispatch owner threads tasks).
Proof.
  unfold dispatch. apply Forall_map, Forall_forall. intros i _.
  apply Forall_forall. intros t Ht.
  apply list_elem_of_filter in Ht as [_ Ht]. now apply list_elem_of_In.
Qed.

Section EmissionOrder.

Context {F : Type} `{CuckooFilter F}.
Variable TASK_SIZE : nat.
Variable readFromFile : string -> bool -> gmap string F -> string + F.
Variable GetId : list ascii -> Z.
Variable INVALID_VERTEX : Z.

(** C9 (as the code has it).  For records of fewer than [2^32 - 1] bases
    (positions are stored in 32 bits), at every moment of the emission
    stage the tuples written are the results of the pieces below
    [currentPiece], piece after piece in the order of the pieces, each
    result being entries of its own task; the tuples are in increasing
    order of chromosome and, within a chromosome, of strictly increasing
    position. *)
Theorem emission_output_ordered (k totalRounds : nat) (tmpDirectory : string)
    (fs : gmap string F) (records : list (list ascii))
    (queues : list (list Task)) (V : Z) (error : option string)
    (st : State (F := F)) :
  (k + 2 <= TASK_SIZE)%nat ->
  Z.of_nat (length records) <= 2 ^ 32 ->
  Forall (fun r => Z.of_nat (length r) + 2 <= 2 ^ 32) records ->
  let ts := DistributeTasks TASK_SIZE (k + 1) records in
  Z.of_nat (length ts) < 2 ^ 32 ->
  Forall (Forall (fun t => In t ts)) queues ->
  rtc (step TASK_SIZE readFromFile GetId INVALID_VERTEX k totalRounds
         tmpDirectory fs)
    (initial_state queues V error) st ->
  (exists flushed : list EdgeResult,
      e_writer (snd st) = concat (map junction flushed) /\
      e_currentPiece (snd st) = Z.of_nat (length flushed) /\
      Forall2 (result_of k) (take (length flushed) ts) flushed) /\
  StronglySorted jp_lt (e_writer (snd st)) /\
  (forall (i j : nat) (a b : JunctionPosition),
      (i < j)%nat ->
      e_writer (snd st) !! i = Some a -> e_writer (snd st) !! j = Some b ->
      chr_ a = chr_ b -> pos_ a < pos_ b).
Proof.
  intros Hsize Hn Hrs ts Hpieces Hq Hreach.
  assert (Hn64 : Z.of_nat (0 + length records) < 2 ^ 64)
    by (cbn [Nat.add]; lia).
  assert (Hrs64 : Forall (fun r => Z.of_nat (length r) < 2 ^ 64) records)
    by (eapply Forall_impl; [exact Hrs|]; cbn beta; lia).
  destruct (DistributeRecords_all_chunks TASK_SIZE k Hsize records 0 0
              Hn64 Hrs64) as [pc' Hall].
  change (DistributeRecords TASK_SIZE (k + 1) records (Z.of_nat 0) 0)
    with ts in Hall.
  destruct (all_chunks_pieces TASK_SIZE k Hsize _ _ _ _ _ Hall) as [_ Hp];
    [lia | lia |].
  assert (Hinv : emission_inv k ts st).
  { eapply reachable_inv; eauto. }
  destruct Hinv as [_ [flushed [Hw [Hc H2]]]].
  assert (Hsorted : StronglySorted jp_lt (e_writer (snd st))).
  { rewrite Hw.
    apply (results_sorted k (take (length flushed) ts) flushed); [| |exact H2].
    - pose proof (all_chunks_sorted TASK_SIZE k Hsize _ _ _ _ _ Hall) as Hs.
      rewrite <- (take_drop (length flushed) ts) in Hs.
      eapply StronglySorted_app_1_l; eauto.
    - apply Forall_take.
      eapply (all_chunks_in_range TASK_SIZE k Hsize); eauto. }
  split; [exists flushed; auto|]. split; [exact Hsorted|].
  now apply jp_sorted_positions.
Qed.

End EmissionOrder.

(** C9 fails as stated: positions are narrowed to 32 bits, so in the chunk
    that spans offset [2^32] of a record the entries collected in order of
    position, and flushed in that order, carry the positions
    [2^32 - 4 .. 2^32 - 1, 0, 1]. *)
Lemma emission_positions_wrap :
  exists r occurences stub,
    EdgeConstruction_task (F := gset Z) (fun _ => 7) (-1) 1 wrap_task
      ({[ 1; 2; 3; 4; 5; 6 ]} : gset Z) 0 47 = Some (r, occurences, stub) /\
    FlushEdgeResults [r] [] 65538 = (true, [], junction r, 65539) /\
    map pos_ (junction r) =
      [2 ^ 32 - 4; 2 ^ 32 - 3; 2 ^ 32 - 2; 2 ^ 32 - 1; 0; 1] /\
    map chr_ (junction r) = [0; 0; 0; 0; 0; 0] /\
    exists a b,
      junction r !! 3%nat = Some a /\ junction r !! 4%nat = Some b /\
      chr_ a = chr_ b /\ ~ pos_ a < pos_ b.
Proof.
  eexists _, _, _. split; [vm_compute; reflexivity|].
  split; [vm_compute; reflexivity|].
  split; [vm_compute; reflexivity|].
  split; [vm_compute; reflexivity|].
  eexists _, _. split; [vm_compute; reflexivity|].
  split; [vm_compute; reflexivity|].
  split; [reflexivity|]. vm_compute. discriminate.
Qed.

(** ** File names *)

Lemma append_inv_head (p a b : string) : p +:+ a = p +:+ b -> a = b.
Proof.
  induction p as [|c p IH]; cbn; [auto|]. intros [= E]. auto.
Qed.

Lemma has_underscore_pretty_N_go (x : N) :
  forall s, has_underscore s = false -> has_underscore (pretty_N_go x s) = false.
Proof.
  induction (N.lt_wf_0 x) as [x _ IH]; intros s Hs.
  destruct (N.eq_dec x 0%N) as [->|Hx].
  - now rewrite pretty_N_go_0.
  - rewrite pretty_N_go_step by lia.
    apply IH; [apply N.div_lt; lia|].
    cbn [has_underscore]. rewrite Hs, orb_false_r.
    unfold pretty_N_char. repeat case_match; reflexivity.
Qed.

Lemma has_underscore_pretty_Z (z : Z) : has_underscore (pretty z) = false.
Proof.
  assert (HN : forall n : N, has_underscore (pretty n) = false).
  { intros n. unfold pretty, pretty_N. case_decide; [reflexivity|].
    now apply has_underscore_pretty_N_go. }
  destruct z as [|p|p]; unfold pretty, pretty_Z; [reflexivity| |].
  - apply (HN (N.pos p)).
  - cbn [String.append has_underscore]. apply (HN (N.pos p)).
Qed.

(** A component without ['_'] is cut off at the first ['_']. *)
Lemma split_at_underscore (a a' x x' : string) :
  has_underscore a = false -> has_underscore a' = false ->
  a +:+ "_" +:+ x = a' +:+ "_" +:+ x' -> a = a' /\ x = x'.
Proof.
  revert a'. induction a as [|c a IH]; intros [|c' a'] Ha Ha'; cbn.
  - intros [= E]. auto.
  - intros [= E1 E2]. subst c'. cbn in Ha'. discriminate Ha'.
  - intros [= E1 E2]. subst c. cbn in Ha. discriminate Ha.
  - intros [= E1 E2]. subst c'. cbn in Ha, Ha'.
    apply orb_false_iff in Ha as [_ Ha]. apply orb_false_iff in Ha' as [_ Ha'].
    destruct (IH a' Ha Ha' E2) as [-> ->]. auto.
Qed.

(** The name of a mask file determines the sequence and the offset. *)
Lemma CandidateMaskFileName_inj (dir : string) (round s p s' p' : Z) :
  CandidateMaskFileName dir s p round = CandidateMaskFileName dir s' p' round ->
  s = s' /\ p = p'.
Proof.
  unfold CandidateMaskFileName. intros E.
  apply append_inv_head in E. apply (append_inv_head "/") in E.
  apply split_at_underscore in E as [E1 E2];
    try apply has_underscore_pretty_Z.
  apply split_at_underscore in E2 as [E2 _];
    try apply has_underscore_pretty_Z.
  split; eapply pretty_Z_inj; eauto.
Qed.

(** ** Pass 1a: the edge filter holds every edge of the input *)

Section Pass1a.

Context {F : Type} `{CuckooFilterLaws F}.
Variable shl_wide : Z -> Z -> Z.
Variable k : nat.
Hypothesis k_fits : Z.of_nat k < 2 ^ 64.

Local Abbreviation canon := (getCanonicalVal shl_wide).

Lemma definite_substr_prefix (s : list ascii) (pos n m : nat) :
  (n <= m)%nat -> definite (StdString.substr s pos m) ->
  definite (StdString.substr s pos n).
Proof.
  intros Hnm Hd. unfold StdString.substr in *.
  replace n with (n `min` m)%nat by lia.
  rewrite <- take_take. unfold definite in *. now apply Forall_take.
Qed.

Lemma FilterFiller_body_mono (s : list ascii) (pos : nat) (dc : Z) (f : F)
    (x : Z) :
  Contain x f = true ->
  Contain x (FilterFiller_body shl_wide (k + 1) s pos dc f) = true.
Proof.
  intros Hx. unfold FilterFiller_body.
  repeat match goal with
         | |- context [if ?b then _ else _] => destruct b
         end;
    repeat apply add_if_absent_mono; exact Hx.
Qed.

Lemma FilterFiller_body_adds (s : list ascii) (pos : nat) (f : F) :
  (pos + k + 1 <= length s)%nat ->
  definite (StdString.substr s pos (k + 1)) ->
  Contain (canon (StdString.substr s pos (k + 1)))
    (FilterFiller_body shl_wide (k + 1) s pos
       (count_definite (StdString.substr s pos k)) f) = true.
Proof.
  intros Hlen Hd. unfold FilterFiller_body.
  replace (k + 1 - 1)%nat with k by lia.
  replace (pos + (k + 1) - 1)%nat with (pos + k)%nat by lia.
  rewrite window_test by lia.
  assert (Hv : definite (StdString.substr s pos k))
    by (eapply definite_substr_prefix; [|exact Hd]; lia).
  apply definiteb_spec in Hv. rewrite Hv.
  assert (Hs : StdString.substr s pos (k + 1) =
               StdString.substr s pos k ++ [StdString.at_ s (pos + k)]).
  { replace (k + 1)%nat with (S k) by lia. apply substr_snoc. lia. }
  assert (Hn : DnaChar.IsDefinite (StdString.at_ s (pos + k)) = true).
  { rewrite Hs in Hd. apply definite_app in Hd as [_ Hd].
    now inversion Hd. }
  rewrite Hn, <- Hs.
  destruct ((0 <? pos)%nat
            && negb (DnaChar.IsDefinite (StdString.at_ s (pos - 1))));
    repeat first [apply add_if_absent_Contain | apply add_if_absent_mono].
Qed.

Lemma FilterFiller_loop_spec (s : list ascii) :
  forall (d pos fuel : nat) (f : F),
    (pos + k + 1 + d = length s)%nat -> (d < fuel)%nat ->
    exists f',
      FilterFiller_loop shl_wide fuel (k + 1) s pos
        (count_definite (StdString.substr s pos k)) f = Some f' /\
      (forall x, Contain x f = true -> Contain x f' = true) /\
      (forall p, (pos <= p)%nat -> (p + k + 1 <= length s)%nat ->
         definite (StdString.substr s p (k + 1)) ->
         Contain (canon (StdString.substr s p (k + 1))) f' = true).
Proof.
  induction d as [|d IH]; intros pos fuel f Hlen Hfuel;
    (destruct fuel as [|fuel]; [lia|]); cbn [FilterFiller_loop];
    replace (k + 1 - 1)%nat with k by lia.
  - replace (pos + k <? length s - 1)%nat with false
      by (symmetry; apply Nat.ltb_ge; lia).
    eexists. split; [reflexivity|]. split.
    + intros x. apply FilterFiller_body_mono.
    + intros p Hp Hend Hd. replace p with pos by lia.
      apply FilterFiller_body_adds; [lia | now replace pos with p by lia].
  - replace (pos + k <? length s - 1)%nat with true
      by (symmetry; apply Nat.ltb_lt; lia).
    rewrite <- count_definite_slide by lia.
    rewrite u64_id.
    2:{ pose proof (count_definite_bounds (StdString.substr s (S pos) k)) as B.
        rewrite substr_length in B by lia. lia. }
    destruct (IH (S pos) fuel
                (FilterFiller_body shl_wide (k + 1) s pos
                   (count_definite (StdString.substr s pos k)) f))
      as [f' [E [M A]]]; [lia | lia |].
    exists f'. split; [exact E|]. split.
    + intros x Hx. apply M. now apply FilterFiller_body_mono.
    + intros p Hp Hend Hd.
      destruct (Nat.eq_dec p pos) as [->|Hne].
      * apply M. now apply FilterFiller_body_adds.
      * apply A; [lia | exact Hend | exact Hd].
Qed.

Lemma FilterFiller_task_spec (t : Task) (f : F) :
  exists f',
    FilterFiller_task shl_wide (k + 1) t f = Some f' /\
    (forall x, Contain x f = true -> Contain x f' = true) /\
    (forall p, (p + k + 1 <= length (str t))%nat ->
       definite (StdString.substr (str t) p (k + 1)) ->
       Contain (canon (StdString.substr (str t) p (k + 1))) f' = true).
Proof.
  unfold FilterFiller_task.
  destruct (length (str t) <? k + 1)%nat eqn:E.
  - apply Nat.ltb_lt in E. exists f. split; [reflexivity|].
    split; [auto|]. intros p Hp. lia.
  - apply Nat.ltb_ge in E. replace (k + 1 - 1)%nat with k by lia.
    destruct (FilterFiller_loop_spec (str t) (length (str t) - k - 1) 0
                (length (str t)) f) as [f' [E' [M A]]]; [lia | lia |].
    exists f'. split; [exact E'|]. split; [exact M|].
    intros p Hp Hd. apply A; [lia | exact Hp | exact Hd].
Qed.

Lemma FilterFillerWorker_spec (queue : list Task) :
  forall f : F,
  exists f',
    FilterFillerWorker shl_wide (k + 1) queue f = Some f' /\
    (forall x, Contain x f = true -> Contain x f' = true) /\
    (forall t p, In t queue -> (p + k + 1 <= length (str t))%nat ->
       definite (StdString.substr (str t) p (k + 1)) ->
       Contain (canon (StdString.substr (str t) p (k + 1))) f' = true).
Proof.
  induction queue as [|t queue IH]; intros f.
  - exists f. split; [reflexivity|]. split; [auto|]. intros ? ? [].
  - cbn [FilterFillerWorker].
    destruct (FilterFiller_task_spec t f) as [f1 [E1 [M1 A1]]].
    rewrite E1. destruct (IH f1) as [f' [E' [M' A']]].
    exists f'. split; [exact E'|]. split; [auto|].
    intros t' p [<-|Hin] Hp Hd; [apply M'; now apply A1 | eauto].
Qed.

End Pass1a.

(** ** Pass 2: what the occurrence set accounts for *)

Lemma lookup_map {A B : Type} (f : A -> B) (l : list A) (i : nat) :
  map f l !! i = option_map f (l !! i).
Proof.
  revert i; induction l as [|x l IH]; intros [|i]; cbn; auto.
Qed.

Section Pass2Facts.

Context {F : Type} `{CuckooFilter F}.
Variable TASK_SIZE : nat.
Variable readFromFile : string -> bool -> gmap string F -> string + F.
Variable RawPositiveHash RawNegativeHash : list ascii -> Z.
Variable k : nat.

Local Abbreviation now_at s pos :=
  (candidate_occurence RawPositiveHash RawNegativeHash k s pos).

Lemma find_occurence_Some (now : Occurence.t) (set : OccurenceSet) (i : nat) :
  find_occurence now set = Some i ->
  exists it, set !! i = Some it /\ Occurence.body it = Occurence.body now.
Proof.
  revert i; induction set as [|e set IH]; intros i; cbn [find_occurence];
    [discriminate|].
  unfold Occurence.EqualBase. case_bool_decide as E.
  - intros [= <-]. exists e. split; [reflexivity | exact E].
  - destruct (find_occurence now set) as [j|]; [|discriminate].
    intros [= <-]. destruct (IH j eq_refl) as [it [H1 H2]].
    exists it. split; [exact H1 | exact H2].
Qed.

Lemma find_occurence_None (now : Occurence.t) (set : OccurenceSet) :
  find_occurence now set = None ->
  ~ In (Occurence.body now) (map Occurence.body set).
Proof.
  induction set as [|e set IH]; cbn [find_occurence map]; [intros _ []|].
  unfold Occurence.EqualBase. case_bool_decide as E; [discriminate|].
  destruct (find_occurence now set); [discriminate|].
  intros _ [Hin|Hin]; [congruence | now apply IH].
Qed.

Lemma accounts_for_app (set : OccurenceSet) (e x : Occurence.t) :
  accounts_for set x -> accounts_for (set ++ [e]) x.
Proof.
  intros [e' [Hin Hrest]]. exists e'. split; [|exact Hrest].
  apply in_or_app. now left.
Qed.

Lemma map_body_flag (set : OccurenceSet) (i : nat) (it : Occurence.t) :
  set !! i = Some it ->
  map Occurence.body (<[i := Occurence.MakeBifurcation it]> set)
  = map Occurence.body set.
Proof.
  revert i; induction set as [|e set IH]; intros [|i] Hi; cbn in Hi;
    try discriminate.
  - injection Hi as ->. reflexivity.
  - cbn [map]. f_equal. cbn. f_equal. now apply IH.
Qed.

Lemma accounts_for_flag (set : OccurenceSet) (i : nat) (it x : Occurence.t) :
  set !! i = Some it ->
  accounts_for set x ->
  accounts_for (<[i := Occurence.MakeBifurcation it]> set) x.
Proof.
  intros Hi [e [Hin [Hb Hf]]].
  apply list_elem_of_In, list_elem_of_lookup in Hin as [j Hj].
  destruct (Nat.eq_dec i j) as [<-|Hne].
  - exists (Occurence.MakeBifurcation it). split; [|split].
    + apply list_elem_of_In, list_elem_of_lookup. exists i.
      apply list_lookup_insert_eq. now apply lookup_lt_Some in Hi.
    + rewrite Hi in Hj. injection Hj as ->. exact Hb.
    + left. reflexivity.
  - exists e. split; [|split; [exact Hb | exact Hf]].
    apply list_elem_of_In, list_elem_of_lookup. exists j.
    now rewrite list_lookup_insert_ne.
Qed.

(** Merging the occurrence at [pos] into the set. *)
Lemma FinalFiltering_candidate_spec (s : list ascii) (pos : nat)
    (set : OccurenceSet) :
  distinct_bodies set ->
  let set' := FinalFiltering_candidate RawPositiveHash RawNegativeHash k s pos set in
  distinct_bodies set' /\
  accounts_for set' (now_at s pos) /\
  (forall x, accounts_for set x -> accounts_for set' x).
Proof.
  intros Hd. unfold FinalFiltering_candidate, insert_occurence.
  set (now := now_at s pos).
  destruct (find_occurence now set) as [i|] eqn:Efind.
  - destruct (find_occurence_Some now set i Efind) as [it [Hi Hb]].
    rewrite Hi. cbn [negb andb orb].
    destruct (Occurence.IsBifurcation it) eqn:Eflag; cbn [negb].
    + split; [exact Hd|]. split; [|auto].
      exists it. split; [|split; [exact Hb | left; exact Eflag]].
      apply list_elem_of_In, list_elem_of_lookup. eauto.
    + match goal with
      | |- context [if ?c then _ else _] => destruct c eqn:Econd
      end.
      * split; [|split].
        -- unfold distinct_bodies. now rewrite (map_body_flag set i it Hi).
        -- exists (Occurence.MakeBifurcation it). split; [|split].
           ++ apply list_elem_of_In, list_elem_of_lookup. exists i.
              apply list_lookup_insert_eq. now apply lookup_lt_Some in Hi.
           ++ exact Hb.
           ++ left. reflexivity.
        -- intros x. now apply accounts_for_flag.
      * split; [exact Hd|]. split; [|auto].
        apply orb_false_iff in Econd as [Econd _].
        apply orb_false_iff in Econd as [Econd _].
        apply orb_false_iff in Econd as [E1 E2].
        apply negb_false_iff, Ascii.eqb_eq in E1, E2.
        exists it. split; [|split; [exact Hb | right; split; assumption]].
        apply list_elem_of_In, list_elem_of_lookup. eauto.
  - rewrite lookup_app_r by lia. rewrite Nat.sub_diag. cbn [lookup list_lookup].
    cbn [negb andb]. split; [|split].
    + unfold distinct_bodies. rewrite map_app. cbn [map].
      apply NoDup_app. split; [exact Hd|]. split.
      * intros x Hx Hx'. apply list_elem_of_singleton in Hx'. subst x.
        apply (find_occurence_None now set Efind). now apply list_elem_of_In.
      * apply NoDup_singleton.
    + exists now. split; [apply in_or_app; right; now left|].
      split; [reflexivity | right; split; reflexivity].
    + intros x. apply accounts_for_app.
Qed.

Lemma FinalFiltering_body_spec (candidateFilter : F) (s : list ascii)
    (pos : nat) (set : OccurenceSet) :
  distinct_bodies set ->
  let set' := FinalFiltering_body RawPositiveHash RawNegativeHash
                candidateFilter k s pos set in
  distinct_bodies set' /\
  (Contain (Z.of_nat pos) candidateFilter = true ->
   accounts_for set' (now_at s pos)) /\
  (forall x, accounts_for set x -> accounts_for set' x).
Proof.
  intros Hd. unfold FinalFiltering_body.
  destruct (Contain (Z.of_nat pos) candidateFilter).
  - destruct (FinalFiltering_candidate_spec s pos set Hd) as [D [A M]].
    repeat split; auto.
  - repeat split; auto. discriminate.
Qed.

Lemma FinalFiltering_loop_spec (candidateFilter : F) (s : list ascii) :
  forall (d pos fuel : nat) (set : OccurenceSet),
    (pos + k + 1 + d = length s)%nat -> (d < fuel)%nat ->
    distinct_bodies set ->
    exists set',
      FinalFiltering_loop RawPositiveHash RawNegativeHash fuel candidateFilter
        k s pos set = Some set' /\
      distinct_bodies set' /\
      (forall x, accounts_for set x -> accounts_for set' x) /\
      (forall p, (pos <= p)%nat -> (p + k + 1 <= length s)%nat ->
         Contain (Z.of_nat p) candidateFilter = true ->
         accounts_for set' (now_at s p)).
Proof.
  induction d as [|d IH]; intros pos fuel set Hlen Hfuel Hd;
    (destruct fuel as [|fuel]; [lia|]); cbn [FinalFiltering_loop];
    destruct (FinalFiltering_body_spec candidateFilter s pos set Hd)
      as [D [A M]].
  - replace (pos + (k + 1) <? length s)%nat with false
      by (symmetry; apply Nat.ltb_ge; lia).
    eexists. split; [reflexivity|]. split; [exact D|]. split; [exact M|].
    intros p Hp Hend Hc. replace p with pos in * by lia. now apply A.
  - replace (pos + (k + 1) <? length s)%nat with true
      by (symmetry; apply Nat.ltb_lt; lia).
    destruct (IH (S pos) fuel _ ltac:(lia) ltac:(lia) D)
      as [set' [E [D' [M' A']]]].
    exists set'. split; [exact E|]. split; [exact D'|]. split; [auto|].
    intros p Hp Hend Hc. destruct (Nat.eq_dec p pos) as [->|Hne].
    + apply M'. now apply A.
    + apply A'; [lia | exact Hend | exact Hc].
Qed.

(** [readFromFile] yields the filter stored under a path. *)
Hypothesis reads_back :
  forall path fs f, fs !! path = Some f -> readFromFile path false fs = inr f.

Lemma FinalFiltering_task_spec (dir : string) (round : Z) (fs : gmap string F)
    (t : Task) (st : Pass2State) :
  distinct_bodies (p2_set st) ->
  exists st',
    FinalFiltering_task TASK_SIZE readFromFile RawPositiveHash RawNegativeHash
      k dir round fs t st = Some st' /\
    distinct_bodies (p2_set st') /\
    (forall x, accounts_for (p2_set st) x -> accounts_for (p2_set st') x) /\
    (forall mask p,
       fs !! CandidateMaskFileName dir (seqId t) (start t) round = Some mask ->
       (1 <= p)%nat -> (p + k + 1 <= length (str t))%nat ->
       Contain (Z.of_nat p) mask = true ->
       accounts_for (p2_set st') (now_at (str t) p)).
Proof.
  intros Hd. unfold FinalFiltering_task.
  destruct (length (str t) <? k)%nat eqn:E1.
  { apply Nat.ltb_lt in E1. exists st. repeat split; auto. intros; lia. }
  destruct (k + 2 <=? length (str t))%nat eqn:E2.
  2:{ apply Nat.leb_gt in E2. exists st. repeat split; auto. intros; lia. }
  apply Nat.leb_le in E2. unfold load_mask.
  destruct (readFromFile _ false fs) as [msg|f] eqn:Er.
  - destruct (FinalFiltering_loop_spec (cf_new TASK_SIZE) (str t)
                (length (str t) - k - 2) 1 (length (str t)) (p2_set st))
      as [set' [E [D [M _]]]]; [lia | lia | exact Hd |].
    rewrite E. eexists. split; [reflexivity|]. cbn [p2_set].
    split; [exact D|]. split; [exact M|].
    intros mask p Hfile. rewrite (reads_back _ _ _ Hfile) in Er. discriminate.
  - destruct (FinalFiltering_loop_spec f (str t)
                (length (str t) - k - 2) 1 (length (str t)) (p2_set st))
      as [set' [E [D [M A]]]]; [lia | lia | exact Hd |].
    rewrite E. eexists. split; [reflexivity|]. cbn [p2_set].
    split; [exact D|]. split; [exact M|].
    intros mask p Hfile Hp Hend Hc.
    rewrite (reads_back _ _ _ Hfile) in Er. injection Er as <-.
    now apply A.
Qed.

Lemma CandidateFinalFilteringWorker_spec (dir : string) (round : Z)
    (fs : gmap string F) (queue : list Task) :
  forall st : Pass2State,
    distinct_bodies (p2_set st) ->
    exists st',
      CandidateFinalFilteringWorker TASK_SIZE readFromFile RawPositiveHash
        RawNegativeHash k dir round fs queue st = Some st' /\
      distinct_bodies (p2_set st') /\
      (forall x, accounts_for (p2_set st) x -> accounts_for (p2_set st') x) /\
      (forall t mask p,
         In t queue ->
         fs !! CandidateMaskFileName dir (seqId t) (start t) round = Some mask ->
         (1 <= p)%nat -> (p + k + 1 <= length (str t))%nat ->
         Contain (Z.of_nat p) mask = true ->
         accounts_for (p2_set st') (now_at (str t) p)).
Proof.
  induction queue as [|t queue IH]; intros st Hd.
  - exists st. repeat split; auto. intros ? ? ? [].
  - cbn [CandidateFinalFilteringWorker].
    destruct (FinalFiltering_task_spec dir round fs t st Hd)
      as [st1 [E1 [D1 [M1 A1]]]].
    rewrite E1. destruct (IH st1 D1) as [st' [E' [D' [M' A']]]].
    exists st'. split; [exact E'|]. split; [exact D'|]. split; [auto|].
    intros t' mask p [<-|Hin] Hfile Hp Hend Hc.
    + apply M'. eapply A1; eauto.
    + eapply A'; eauto.
Qed.

(** Two occurrences of one k-mer with different flanks: the k-mer is
    flagged. *)
Lemma accounts_for_two (set : OccurenceSet) (x y : Occurence.t) :
  distinct_bodies set ->
  accounts_for set x -> accounts_for set y ->
  Occurence.body x = Occurence.body y ->
  (Occurence.prev x <> Occurence.prev y \/ Occurence.next x <> Occurence.next y) ->
  exists e, In e set /\ Occurence.body e = Occurence.body x /\
            Occurence.isBifurcation e = true.
Proof.
  intros Hd [e [He [Hbe Hfe]]] [e' [He' [Hbe' Hfe']]] Hb Hdiff.
  assert (e = e').
  { apply list_elem_of_In, list_elem_of_lookup in He as [i Hi].
    apply list_elem_of_In, list_elem_of_lookup in He' as [j Hj].
    assert (i = j).
    { eapply (NoDup_lookup _ i j); [exact Hd | |]; rewrite lookup_map.
      - rewrite Hi. reflexivity.
      - rewrite Hj. cbn. f_equal. congruence. }
    subst j. congruence. }
  subst e'. exists e. split; [exact He|]. split; [exact Hbe|].
  destruct Hfe as [Hf|[P1 N1]]; [exact Hf|].
  destruct Hfe' as [Hf|[P2 N2]]; [exact Hf|].
  exfalso. destruct Hdiff as [Hp|Hn]; [apply Hp | apply Hn]; congruence.
Qed.

End Pass2Facts.

(** ** Pass 1b as a stage: the mask files *)

Section Stage1b.

Context {F : Type} `{CuckooFilterLaws F}.
Variable shl_wide : Z -> Z -> Z.
Variable TASK_SIZE : nat.
Variable cFilter : F.
Variable k : nat.
Hypothesis k_fits : Z.of_nat k < 2 ^ 64.
Variable dir : string.
Variable round : Z.

Local Abbreviation name t :=
  (CandidateMaskFileName dir (seqId t) (start t) round).
Local Abbreviation marked t :=
  (marked_positions shl_wide cFilter k (str t)).
Local Abbreviation mask t := (record_positions TASK_SIZE (marked t)).

(** A file stays as it is when the tasks that write it write the same. *)
Lemma CandidateCheckingWorker_keeps (queue : list Task) :
  forall (st : Pass1bState) (n : string) (m : F),
    Forall (fun t => (k + 2 <= length (str t))%nat) queue ->
    0 <= p1_marks st < 2 ^ 64 ->
    p1_fs st !! n = Some m ->
    (forall t, In t queue -> name t = n -> mask t = m) ->
    exists st',
      CandidateCheckingWorker shl_wide TASK_SIZE cFilter k dir round queue st
        = Some st' /\
      p1_fs st' !! n = Some m /\ p1_error st' = p1_error st.
Proof.
  induction queue as [|t queue IH]; intros st n m Hsz Hm Hn Hsame.
  - exists st. repeat split; auto.
  - cbn [CandidateCheckingWorker]. inversion Hsz as [|? ? Ht Hsz']; subst.
    rewrite (CandidateChecking_task_spec shl_wide TASK_SIZE cFilter k dir
               round t st k_fits Ht Hm).
    set (st1 := {| p1_fs := _; p1_error := _; p1_marks := _ |}).
    destruct (IH st1 n m) as [st' [E [K1 K2]]]; auto.
    + cbn [st1 p1_marks]. unfold u64. apply Z.mod_pos_bound. lia.
    + cbn [st1 p1_fs]. case_bool_decide; [exact Hn|].
      destruct (decide (name t = n)) as [En|En].
      * rewrite En, lookup_insert_eq. f_equal. apply Hsame; [now left | exact En].
      * now rewrite lookup_insert_ne.
    + intros t' Hin'. apply Hsame. now right.
    + exists st'. repeat split; auto.
Qed.

(** After the stage the mask of every chunk with a recorded position is
    on file, provided no other chunk claims the file with another
    mask. *)
Lemma CandidateCheckingWorker_writes (queue : list Task) :
  forall st : Pass1bState,
    Forall (fun t => (k + 2 <= length (str t))%nat) queue ->
    0 <= p1_marks st < 2 ^ 64 ->
    exists st',
      CandidateCheckingWorker shl_wide TASK_SIZE cFilter k dir round queue st
        = Some st' /\
      p1_error st' = p1_error st /\
      (forall t, In t queue -> marked t <> [] ->
         (forall t', In t' queue -> name t' = name t -> mask t' = mask t) ->
         p1_fs st' !! name t = Some (mask t)).
Proof.
  induction queue as [|t queue IH]; intros st Hsz Hm.
  - exists st. repeat split; auto. intros ? [].
  - cbn [CandidateCheckingWorker]. inversion Hsz as [|? ? Ht Hsz']; subst.
    rewrite (CandidateChecking_task_spec shl_wide TASK_SIZE cFilter k dir
               round t st k_fits Ht Hm).
    set (st1 := {| p1_fs := _; p1_error := _; p1_marks := _ |}).
    assert (Hm1 : 0 <= p1_marks st1 < 2 ^ 64)
      by (cbn [st1 p1_marks]; unfold u64; apply Z.mod_pos_bound; lia).
    destruct (IH st1 Hsz' Hm1) as [st' [E [K W]]].
    exists st'. split; [exact E|]. split; [exact K|].
    intros t0 [<-|Hin] Hmarked Hsame.
    + destruct (CandidateCheckingWorker_keeps queue st1 (name t) (mask t)
                  Hsz' Hm1) as [st'' [E' [K1 _]]].
      * cbn [st1 p1_fs]. rewrite bool_decide_eq_false_2 by exact Hmarked.
        apply lookup_insert_eq.
      * intros t' Hin' Hname. apply Hsame; [now right | exact Hname].
      * rewrite E in E'. injection E' as <-. exact K1.
    + apply W; auto. intros t' Hin'. apply Hsame. now right.
Qed.

End Stage1b.

(** ** Windows of the records and the tasks that hold them *)

Section Sites.

Variable TASK_SIZE : nat.
Variable k : nat.
Hypothesis size_fits : (k + 2 <= TASK_SIZE)%nat.

Lemma substr_lookup (s : list ascii) (a n i : nat) :
  StdString.substr s a n !! i = if decide (i < n)%nat then s !! (a + i)%nat else None.
Proof.
  unfold StdString.substr. rewrite lookup_take. case_decide; [|reflexivity].
  apply lookup_drop.
Qed.

Lemma substr_substr (s : list ascii) (a n b m : nat) :
  (b + m <= n)%nat ->
  StdString.substr (StdString.substr s a n) b m = StdString.substr s (a + b) m.
Proof.
  intros Hle. apply list_eq. intros i. rewrite !substr_lookup.
  case_decide; [|reflexivity].
  rewrite decide_True by lia. f_equal. lia.
Qed.

Lemma substr_app_middle (A W B : list ascii) :
  StdString.substr (A ++ W ++ B) (length A) (length W) = W.
Proof.
  unfold StdString.substr. rewrite drop_app_length. apply take_app_length.
Qed.

Lemma all_chunks_sizes (i : nat) (pc : Z) (rs : list (list ascii))
    (ts : list Task) (pc' : Z) :
  all_chunks TASK_SIZE (k + 1) i pc rs ts pc' ->
  Forall (fun t => (k + 2 <= length (str t))%nat) ts.
Proof.
  induction 1 as [i pc | i pc r rs rest pc' Hshort _ IH
                  | i pc r rs tasks pc1 rest pc' Hc _ IH].
  - constructor.
  - exact IH.
  - apply Forall_app. split; [|exact IH].
    apply (chunks_tasks TASK_SIZE k size_fits) in Hc.
    eapply Forall_impl; [exact Hc|]. cbn beta.
    intros t [st [_ [_ Hl]]]. lia.
Qed.

Lemma sorted_unique {A : Type} (R : A -> A -> Prop) (l : list A) :
  StronglySorted R l ->
  forall same : A -> A -> Prop,
    (forall x y, R x y -> ~ same x y) ->
    (forall x y, same x y -> same y x) ->
    forall x y, In x l -> In y l -> same x y -> x = y.
Proof.
  induction 1 as [|a l Hs IH Hall]; intros same Hdiff Hsym x y Hx Hy Hxy;
    [destruct Hx|].
  rewrite Forall_forall in Hall.
  destruct Hx as [<-|Hx], Hy as [<-|Hy]; auto.
  - exfalso. apply (Hdiff a y); [|exact Hxy].
    apply Hall. now apply list_elem_of_In.
  - exfalso. apply (Hdiff a x); [|now apply Hsym].
    apply Hall. now apply list_elem_of_In.
  - eapply IH; eauto.
Qed.

(** Two tasks of the input with the same sequence and offset are the same
    task. *)
Lemma all_chunks_unique (pc : Z) (rs : list (list ascii))
    (ts : list Task) (pc' : Z) :
  all_chunks TASK_SIZE (k + 1) 0 pc rs ts pc' ->
  forall t t', In t ts -> In t' ts ->
    seqId t = seqId t' -> start t = start t' -> t = t'.
Proof.
  intros Hall t t' Ht Ht' Hseq Hstart.
  pose proof (all_chunks_sorted TASK_SIZE k size_fits _ _ _ _ _ Hall) as Hs.
  pose proof (all_chunks_sizes _ _ _ _ _ Hall) as Hsz.
  rewrite Forall_forall in Hsz.
  assert (Hs' : StronglySorted
                  (fun a b => task_before k a b /\ (k + 2 <= length (str a))%nat)
                  ts).
  { clear Ht Ht' Hall. induction Hs as [|a l Hs IH Hall']; constructor.
    - apply IH. intros x Hx. apply Hsz. now right.
    - eapply Forall_impl; [exact Hall'|]. cbn beta. intros b Hb.
      split; [exact Hb|]. apply Hsz. now left. }
  apply (sorted_unique _ ts Hs'
           (fun a b => seqId a = seqId b /\ start a = start b)); auto.
  - intros x y [[Hlt|[Heq Hle]] Hlen] [E1 E2]; lia.
  - intros x y [E1 E2]. split; congruence.
Qed.

(** A window of [k + 2] characters of a padded record is found in a
    task, at some position [p] with its left flank at [p - 1]. *)
Lemma window_site (pc : Z) (rs : list (list ascii)) (ts : list Task) (pc' : Z)
    (r A W B : list ascii) :
  all_chunks TASK_SIZE (k + 1) 0 pc rs ts pc' ->
  In r rs -> padded r = A ++ W ++ B -> length W = (k + 2)%nat ->
  exists t p, In t ts /\ (1 <= p)%nat /\ (p + k + 1 <= length (str t))%nat /\
              StdString.substr (str t) (p - 1) (k + 2) = W.
Proof.
  intros Hall Hr HP HW.
  apply list_elem_of_In, list_elem_of_lookup in Hr as [j Hj].
  destruct (all_chunks_cover TASK_SIZE k size_fits _ _ _ _ _ Hall j r
              (length A) Hj) as [t [st [Hin [[_ [_ [Hle Hstr]]] [Hst Hend]]]]].
  { rewrite HP, !length_app. lia. }
  exists t, (length A - st + 1)%nat. split; [exact Hin|].
  split; [lia|]. split; [lia|].
  replace (length A - st + 1 - 1)%nat with (length A - st)%nat by lia.
  rewrite Hstr, substr_substr by lia.
  replace (st + (length A - st))%nat with (length A) by lia.
  rewrite HP, <- HW. apply substr_app_middle.
Qed.

(** The parts of a window: left flank, k-mer, right flank. *)
Lemma site_parts (s : list ascii) (p : nat) (x y : ascii) (w : list ascii) :
  (1 <= p)%nat -> (p + k + 1 <= length s)%nat -> length w = k ->
  StdString.substr s (p - 1) (k + 2) = x :: w ++ [y] ->
  StdString.at_ s (p - 1) = x /\ StdString.substr s p k = w /\
  StdString.at_ s (p + k) = y /\
  StdString.substr s (p - 1) (k + 1) = x :: w /\
  StdString.substr s p (k + 1) = w ++ [y].
Proof.
  intros Hp Hend Hw Hs.
  replace (k + 2)%nat with (S (S k)) in Hs by lia.
  rewrite substr_cons in Hs by lia.
  replace (S (p - 1)) with p in Hs by lia.
  rewrite substr_snoc in Hs by lia.
  injection Hs as Hx Hrest.
  apply app_inj_2 in Hrest as [Hw' Hy]; [|reflexivity].
  injection Hy as Hy.
  repeat split; auto.
  - replace (k + 1)%nat with (S k) by lia. rewrite substr_cons by lia.
    replace (S (p - 1)) with p by lia. congruence.
  - replace (k + 1)%nat with (S k) by lia. rewrite substr_snoc by lia.
    congruence.
Qed.

End Sites.

(** ** Strands *)

Lemma ReverseCompliment_cons (c : ascii) (s : list ascii) :
  DnaChar.ReverseCompliment (c :: s) =
  DnaChar.ReverseCompliment s ++ [DnaChar.ReverseChar c].
Proof.
  change (c :: s) with ([c] ++ s). now rewrite ReverseCompliment_app.
Qed.

Lemma ReverseCompliment_snoc (s : list ascii) (c : ascii) :
  DnaChar.ReverseCompliment (s ++ [c]) =
  DnaChar.ReverseChar c :: DnaChar.ReverseCompliment s.
Proof. now rewrite ReverseCompliment_app. Qed.

Lemma canonical_cases (v : list ascii) :
  canonical v =
  match StdString.compare v (DnaChar.ReverseCompliment v) with
  | Gt => DnaChar.ReverseCompliment v
  | _ => v
  end.
Proof.
  unfold canonical, lex_min. rewrite (compare_antisym _ v).
  destruct (StdString.compare v (DnaChar.ReverseCompliment v)); reflexivity.
Qed.

Lemma canonical_either (v : list ascii) :
  canonical v = v \/ canonical v = DnaChar.ReverseCompliment v.
Proof.
  rewrite canonical_cases.
  destruct (StdString.compare v (DnaChar.ReverseCompliment v)); auto.
Qed.

(** K-mers with the same canonical form are equal or reverse complements
    of each other. *)
Lemma canonical_eq_cases (w v : list ascii) :
  definite w -> definite v -> canonical w = canonical v ->
  w = v \/ w = DnaChar.ReverseCompliment v.
Proof.
  intros Dw Dv E.
  destruct (canonical_either w) as [Hw|Hw], (canonical_either v) as [Hv|Hv];
    rewrite Hw, Hv in E.
  - now left.
  - now right.
  - right. rewrite <- E. symmetry. now apply ReverseCompliment_involutive.
  - left. rewrite <- (ReverseCompliment_involutive w Dw), E.
    now apply ReverseCompliment_involutive.
Qed.

(** What [Set] stores: the canonical k-mer and the flanks as given. *)
Lemma Set_stores (h1 h2 : Z) (w : list ascii) (posExtend posPrev : ascii)
    (isBif : bool) :
  let now := Occurence.Set_ h1 h2 w posExtend posPrev isBif in
  Occurence.body now = Occurence.codes (canonical w) /\
  Occurence.prev now = posPrev /\ Occurence.next now = posExtend /\
  Occurence.isBifurcation now = isBif.
Proof.
  cbv zeta. unfold Occurence.Set_. rewrite canonical_cases.
  cbn [Occurence.body Occurence.prev Occurence.next Occurence.isBifurcation].
  destruct (StdString.compare w (DnaChar.ReverseCompliment w)); auto.
Qed.

(** ** Marked positions *)

Section MarkedSites.

Context {F : Type} `{CuckooFilter F}.
Variable shl_wide : Z -> Z -> Z.
Variable cFilter : F.
Variable k : nat.

Local Abbreviation canon := (getCanonicalVal shl_wide).

Lemma LITERAL_NoDup : NoDup DnaChar.LITERAL.
Proof.
  unfold DnaChar.LITERAL. repeat constructor;
    rewrite ?list_elem_of_In; cbn; intuition discriminate.
Qed.

Lemma filter_two (P : ascii -> bool) (c1 c2 : ascii) :
  DnaChar.IsDefinite c1 = true -> DnaChar.IsDefinite c2 = true ->
  c1 <> c2 -> P c1 = true -> P c2 = true ->
  1 < Z.of_nat (length (filter (fun c => P c = true) DnaChar.LITERAL)).
Proof.
  intros D1 D2 Hne P1 P2.
  assert (Hincl : incl [c1; c2]
                    (filter (fun c => P c = true) DnaChar.LITERAL)).
  { intros c [<-|[<-|[]]]; apply list_elem_of_In, list_elem_of_filter;
      (split; [assumption|]); apply list_elem_of_In, IsDefinite_LITERAL;
      assumption. }
  apply NoDup_incl_length in Hincl.
  - cbn [length] in Hincl. lia.
  - repeat constructor; rewrite ?list_elem_of_In; cbn; intuition congruence.
Qed.

Lemma in_marked_positions (s : list ascii) (p : nat) :
  (1 <= p)%nat -> (p + k + 1 <= length s)%nat ->
  definite (StdString.substr s p k) ->
  spec_candidate shl_wide cFilter k s p = true ->
  In p (marked_positions shl_wide cFilter k s).
Proof.
  intros Hp Hend Hd Hc. unfold marked_positions.
  apply list_elem_of_In, list_elem_of_filter. split.
  - split; [now apply definiteb_spec | exact Hc].
  - apply list_elem_of_In, in_seq. lia.
Qed.

(** Two successors: the observed one or one whose edge is in the filter. *)
Lemma marked_by_successors (s : list ascii) (p : nat) (c1 c2 : ascii) :
  (1 <= p)%nat -> (p + k + 1 <= length s)%nat ->
  definite (StdString.substr s p k) ->
  DnaChar.IsDefinite c1 = true -> DnaChar.IsDefinite c2 = true -> c1 <> c2 ->
  (c1 = StdString.at_ s (p + k)
   \/ Contain (canon (StdString.substr s p k ++ [c1])) cFilter = true) ->
  (c2 = StdString.at_ s (p + k)
   \/ Contain (canon (StdString.substr s p k ++ [c2])) cFilter = true) ->
  In p (marked_positions shl_wide cFilter k s).
Proof.
  intros Hp Hend Hd D1 D2 Hne Q1 Q2.
  apply in_marked_positions; auto.
  unfold spec_candidate. apply orb_true_iff. right. apply Z.ltb_lt.
  unfold spec_outCount.
  pose proof (filter_two
                (fun c => Ascii.eqb c (StdString.at_ s (p + k))
                          || Contain (canon (StdString.substr s p k ++ [c]))
                               cFilter) c1 c2 D1 D2 Hne) as Hcount.
  cbv beta in Hcount.
  assert (forall c,
             c = StdString.at_ s (p + k)
             \/ Contain (canon (StdString.substr s p k ++ [c])) cFilter = true ->
             Ascii.eqb c (StdString.at_ s (p + k))
             || Contain (canon (StdString.substr s p k ++ [c])) cFilter = true)
    as Hq.
  { intros c [->|Hc]; apply orb_true_iff;
      [left; apply Ascii.eqb_refl | right; exact Hc]. }
  specialize (Hcount (Hq c1 Q1) (Hq c2 Q2)).
  destruct (DnaChar.IsDefinite (StdString.at_ s (p + k))); lia.
Qed.

(** Two predecessors, likewise. *)
Lemma marked_by_predecessors (s : list ascii) (p : nat) (c1 c2 : ascii) :
  (1 <= p)%nat -> (p + k + 1 <= length s)%nat ->
  definite (StdString.substr s p k) ->
  DnaChar.IsDefinite c1 = true -> DnaChar.IsDefinite c2 = true -> c1 <> c2 ->
  (c1 = StdString.at_ s (p - 1)
   \/ Contain (canon (c1 :: StdString.substr s p k)) cFilter = true) ->
  (c2 = StdString.at_ s (p - 1)
   \/ Contain (canon (c2 :: StdString.substr s p k)) cFilter = true) ->
  In p (marked_positions shl_wide cFilter k s).
Proof.
  intros Hp Hend Hd D1 D2 Hne Q1 Q2.
  apply in_marked_positions; auto.
  unfold spec_candidate. apply orb_true_iff. left. apply Z.ltb_lt.
  unfold spec_inCount.
  pose proof (filter_two
                (fun c => Ascii.eqb c (StdString.at_ s (p - 1))
                          || Contain (canon (c :: StdString.substr s p k))
                               cFilter) c1 c2 D1 D2 Hne) as Hcount.
  cbv beta in Hcount.
  assert (forall c,
             c = StdString.at_ s (p - 1)
             \/ Contain (canon (c :: StdString.substr s p k)) cFilter = true ->
             Ascii.eqb c (StdString.at_ s (p - 1))
             || Contain (canon (c :: StdString.substr s p k)) cFilter = true)
    as Hq.
  { intros c [->|Hc]; apply orb_true_iff;
      [left; apply Ascii.eqb_refl | right; exact Hc]. }
  specialize (Hcount (Hq c1 Q1) (Hq c2 Q2)).
  destruct (DnaChar.IsDefinite (StdString.at_ s (p - 1))); lia.
Qed.

End MarkedSites.

(** ** The branching k-mers a round reports *)

Lemma flagged_in_stream (it : list Occurence.t) (e : Occurence.t)
    (out : list (list Z)) :
  In e it -> Occurence.isBifurcation e = true ->
  In (Occurence.body e) (TrueBifurcations it out).1.1.
Proof.
  intros He Hf. unfold TrueBifurcations.
  rewrite TrueBifurcations_loop_spec by lia. cbn [fst].
  apply in_or_app. right.
  change (Occurence.body e) with (Occurence.GetBase e). apply in_map.
  apply list_elem_of_In, list_elem_of_filter. split; [exact Hf|].
  now apply list_elem_of_In.
Qed.

Section Completeness.

Context {F : Type} `{CuckooFilterLaws F}.
Variable shl_wide : Z -> Z -> Z.
Variable TASK_SIZE : nat.
Variable readFromFile : string -> bool -> gmap string F -> string + F.
Variable RawPositiveHash RawNegativeHash : list ascii -> Z.
Variable traversal : OccurenceSet -> list Occurence.t.
Variable k : nat.
Variable records : list (list ascii).

Hypothesis size_fits : (k + 2 <= TASK_SIZE)%nat.
Hypothesis k_fits : Z.of_nat k < 2 ^ 64.
Hypothesis records_fit : Z.of_nat (length records) < 2 ^ 64.
Hypothesis lengths_fit :
  Forall (fun r => Z.of_nat (length r) < 2 ^ 64) records.

Local Abbreviation ts := (DistributeTasks TASK_SIZE (k + 1) records).
Local Abbreviation canon := (getCanonicalVal shl_wide).
Local Abbreviation now_at s pos :=
  (candidate_occurence RawPositiveHash RawNegativeHash k s pos).
Local Abbreviation rc := DnaChar.ReverseCompliment.
Local Abbreviation RC := DnaChar.ReverseChar.

Lemma tasks_all_chunks :
  exists pc', all_chunks TASK_SIZE (k + 1) 0 0 records ts pc'.
Proof.
  apply (DistributeRecords_all_chunks TASK_SIZE k size_fits records 0 0).
  - cbn [Nat.add]. exact records_fit.
  - exact lengths_fit.
Qed.

(** A factor of a record with the character after it is a window of a
    task. *)
Lemma right_site (r e : list ascii) :
  In r records -> length e = (k + 1)%nat -> occurs_in e (normalize r) ->
  exists t p y,
    In t ts /\ (1 <= p)%nat /\ (p + k + 1 <= length (str t))%nat /\
    StdString.substr (str t) (p - 1) (k + 2) = e ++ [y].
Proof.
  intros Hr He [pre [post E]]. destruct tasks_all_chunks as [pc' Hc].
  assert (exists y B, post ++ ["N"%char] = y :: B) as [y [B EB]]
    by (destruct post as [|y B]; cbn [app]; eauto).
  destruct (window_site TASK_SIZE k size_fits 0 records ts pc' r
              ("N"%char :: pre) (e ++ [y]) B Hc Hr) as (t & p & Hs).
  - unfold padded. rewrite E. cbn [app].
    rewrite <- !app_assoc, EB. reflexivity.
  - rewrite length_app. cbn [length]. lia.
  - exists t, p, y. exact Hs.
Qed.

(** A place where a k-mer is read with its two flanks is a window of a
    task. *)
Lemma read_site (x y : ascii) (w : list ascii) :
  length w = k -> read_with_flanks records x w y ->
  exists t p,
    In t ts /\ (1 <= p)%nat /\ (p + k + 1 <= length (str t))%nat /\
    StdString.at_ (str t) (p - 1) = x /\ StdString.substr (str t) p k = w /\
    StdString.at_ (str t) (p + k) = y.
Proof.
  intros Hw (r & Hr & pre & post & E). destruct tasks_all_chunks as [pc' Hc].
  destruct (window_site TASK_SIZE k size_fits 0 records ts pc' r pre
              (x :: w ++ [y]) post Hc Hr E) as (t & p & Ht & Hp & Hend & Hs).
  { cbn [length]. rewrite length_app. cbn [length]. lia. }
  destruct (site_parts TASK_SIZE k size_fits (str t) p x y w Hp Hend Hw Hs)
    as (Ex & Ew & Ey & _ & _).
  exists t, p. auto 10.
Qed.

Section Filled.

(** The edge filter after pass 1a. *)
Variable cFilter : F.
Hypothesis filled :
  forall t p, In t ts -> (p + k + 1 <= length (str t))%nat ->
    definite (StdString.substr (str t) p (k + 1)) ->
    Contain (canon (StdString.substr (str t) p (k + 1))) cFilter = true.

Lemma edge_contained (e : list ascii) :
  length e = (k + 1)%nat -> edge_present records e ->
  Contain (canon e) cFilter = true.
Proof.
  assert (Hocc : forall e r,
             length e = (k + 1)%nat -> definite e -> In r records ->
             occurs_in e (normalize r) ->
             Contain (canon e) cFilter = true).
  { clear e. intros e r He Hd Hr Ho.
    destruct (right_site r e Hr He Ho) as (t & p & y & Ht & Hp & Hend & Hs).
    destruct e as [|x w]; cbn [length] in He; [lia|].
    destruct (site_parts TASK_SIZE k size_fits (str t) p x y w Hp Hend
                ltac:(lia) Hs) as (_ & _ & _ & E & _).
    rewrite <- E. apply filled; [exact Ht | lia | rewrite E; exact Hd]. }
  intros He [Hd [r [Hr [Ho|Ho]]]].
  - eapply Hocc; eauto.
  - rewrite <- (getCanonicalVal_ReverseCompliment shl_wide e Hd).
    eapply Hocc; eauto.
    + now rewrite ReverseCompliment_length.
    + now apply ReverseCompliment_definite.
Qed.

(** Every place where a branching k-mer is read, on either strand, is
    a position that pass 1b marks. *)
Lemma branching_marked (v w : list ascii) (t : Task) (p : nat) :
  branching records k v -> definite w -> canonical w = canonical v ->
  (1 <= p)%nat -> (p + k + 1 <= length (str t))%nat ->
  StdString.substr (str t) p k = w ->
  In p (marked_positions shl_wide cFilter k (str t)).
Proof.
  intros [Hv (a & b & Hab & Hbr)] Dw Hcan Hp Hend Ew.
  assert (Dv : definite v).
  { destruct Hbr as [[Ha _]|[Ha _]].
    - apply (proj1 (definite_app _ _) (proj1 Ha)).
    - apply (proj1 (definite_cons _ _) (proj1 Ha)). }
  assert (Hin : forall e, length e = (k + 1)%nat -> edge_present records e ->
                  Contain (canon e) cFilter = true /\
                  Contain (canon (rc e)) cFilter = true).
  { intros e He Hpres. split; [now apply edge_contained|].
    rewrite (getCanonicalVal_ReverseCompliment shl_wide e (proj1 Hpres)).
    now apply edge_contained. }
  assert (Hne : RC a <> RC b).
  { intros E. apply Hab.
    destruct Hbr as [[Ha Hb]|[Ha Hb]].
    - pose proof (proj2 (proj1 (definite_app _ _) (proj1 Ha))) as Da.
      pose proof (proj2 (proj1 (definite_app _ _) (proj1 Hb))) as Db.
      apply definite_cons in Da as [Da _]. apply definite_cons in Db as [Db _].
      eapply ReverseChar_inj; eauto.
    - pose proof (proj1 (definite_cons _ _) (proj1 Ha)) as [Da _].
      pose proof (proj1 (definite_cons _ _) (proj1 Hb)) as [Db _].
      eapply ReverseChar_inj; eauto. }
  destruct (canonical_eq_cases w v Dw Dv Hcan) as [->| ->];
    destruct Hbr as [[Ha Hb]|[Ha Hb]].
  - pose proof (proj2 (proj1 (definite_app _ _) (proj1 Ha))) as Da.
    pose proof (proj2 (proj1 (definite_app _ _) (proj1 Hb))) as Db.
    apply definite_cons in Da as [Da _]. apply definite_cons in Db as [Db _].
    apply (marked_by_successors shl_wide cFilter k (str t) p a b);
      [exact Hp | exact Hend | now rewrite Ew | exact Da | exact Db
      | exact Hab | right | right]; rewrite Ew;
      apply Hin; auto; rewrite length_app; cbn [length]; lia.
  - pose proof (proj1 (definite_cons _ _) (proj1 Ha)) as [Da _].
    pose proof (proj1 (definite_cons _ _) (proj1 Hb)) as [Db _].
    apply (marked_by_predecessors shl_wide cFilter k (str t) p a b);
      [exact Hp | exact Hend | now rewrite Ew | exact Da | exact Db
      | exact Hab | right | right]; rewrite Ew;
      apply Hin; auto; cbn [length]; lia.
  - pose proof (proj2 (proj1 (definite_app _ _) (proj1 Ha))) as Da.
    pose proof (proj2 (proj1 (definite_app _ _) (proj1 Hb))) as Db.
    apply definite_cons in Da as [Da _]. apply definite_cons in Db as [Db _].
    apply (marked_by_predecessors shl_wide cFilter k (str t) p (RC a) (RC b));
      [exact Hp | exact Hend | now rewrite Ew
      | now apply ReverseChar_definite | now apply ReverseChar_definite
      | exact Hne | right | right]; rewrite Ew, <- ReverseCompliment_snoc;
      apply Hin; auto; rewrite length_app; cbn [length]; lia.
  - pose proof (proj1 (definite_cons _ _) (proj1 Ha)) as [Da _].
    pose proof (proj1 (definite_cons _ _) (proj1 Hb)) as [Db _].
    apply (marked_by_successors shl_wide cFilter k (str t) p (RC a) (RC b));
      [exact Hp | exact Hend | now rewrite Ew
      | now apply ReverseChar_definite | now apply ReverseChar_definite
      | exact Hne | right | right]; rewrite Ew, <- ReverseCompliment_cons;
      apply Hin; auto; cbn [length]; lia.
Qed.

End Filled.

(** [readFromFile] yields the filter stored under a path. *)
Hypothesis reads_back :
  forall path fs f, fs !! path = Some f -> readFromFile path false fs = inr f.

(** The iterator of the set yields every element. *)
Hypothesis traversal_all : forall s, traversal s ≡ₚ s.

Variable realSize : nat.
Variable dir : string.
Variable round : Z.

(** The orders in which the workers take the tasks. *)
Variables order1a order1b order2 : list Task.
Hypothesis perm1a : order1a ≡ₚ ts.
Hypothesis perm1b : order1b ≡ₚ ts.
Hypothesis perm2 : order2 ≡ₚ ts.

Variable fs : gmap string F.

Lemma Round_passes :
  exists cFilter st1 st2,
    FilterFillerWorker shl_wide (k + 1) order1a (cf_new realSize) = Some cFilter /\
    CandidateCheckingWorker shl_wide TASK_SIZE cFilter k dir round order1b
      {| p1_fs := fs; p1_error := None; p1_marks := 0 |} = Some st1 /\
    p1_error st1 = None /\
    CandidateFinalFilteringWorker TASK_SIZE readFromFile RawPositiveHash
      RawNegativeHash k dir round (p1_fs st1) order2
      {| p2_set := []; p2_error := None |} = Some st2 /\
    forall v, branching records k v -> read_differently records v ->
      exists e, In e (p2_set st2) /\
                Occurence.body e = Occurence.codes (canonical v) /\
                Occurence.isBifurcation e = true.
Proof.
  destruct (FilterFillerWorker_spec shl_wide k k_fits order1a (cf_new realSize))
    as (cFilter & E1 & _ & A1).
  assert (filled : forall t p, In t ts -> (p + k + 1 <= length (str t))%nat ->
            definite (StdString.substr (str t) p (k + 1)) ->
            Contain (canon (StdString.substr (str t) p (k + 1))) cFilter = true).
  { intros t p Ht. apply A1.
    apply (Permutation_in _ (Permutation_sym perm1a) Ht). }
  destruct tasks_all_chunks as [pc' Hc].
  pose proof (all_chunks_sizes TASK_SIZE k size_fits 0 0 records ts pc' Hc)
    as Hsizes.
  destruct (CandidateCheckingWorker_writes shl_wide TASK_SIZE cFilter k k_fits
              dir round order1b
              {| p1_fs := fs; p1_error := None; p1_marks := 0 |})
    as (st1 & E2 & Eerr & W).
  { rewrite Forall_forall in Hsizes. apply Forall_forall. intros t Ht.
    apply Hsizes. now rewrite <- perm1b. }
  { cbn [p1_marks]. lia. }
  destruct (CandidateFinalFilteringWorker_spec TASK_SIZE readFromFile
              RawPositiveHash RawNegativeHash k reads_back dir round
              (p1_fs st1) order2 {| p2_set := []; p2_error := None |})
    as (st2 & E3 & D & _ & A3).
  { cbn [p2_set]. unfold distinct_bodies. cbn [map]. constructor. }
  exists cFilter, st1, st2. split; [exact E1|]. split; [exact E2|].
  split; [exact Eerr|]. split; [exact E3|].
  assert (Acc : forall t p,
             In t ts -> (1 <= p)%nat -> (p + k + 1 <= length (str t))%nat ->
             In p (marked_positions shl_wide cFilter k (str t)) ->
             accounts_for (p2_set st2) (now_at (str t) p)).
  { intros t p Ht Hp Hend Hm. eapply A3.
    - apply (Permutation_in _ (Permutation_sym perm2) Ht).
    - apply W.
      + apply (Permutation_in _ (Permutation_sym perm1b) Ht).
      + intros E. rewrite E in Hm. destruct Hm.
      + intros t' Ht' Hname.
        apply CandidateMaskFileName_inj in Hname as [Hs Hst].
        rewrite (all_chunks_unique TASK_SIZE k size_fits 0 records ts pc' Hc
                   t' t (Permutation_in _ perm1b Ht') Ht Hs Hst).
        reflexivity.
    - exact Hp.
    - exact Hend.
    - apply record_positions_Contain. exact Hm. }
  intros v Hv (x1 & w1 & y1 & x2 & w2 & y2 & R1 & R2 & D1 & D2 & C1 & C2 & Hdiff).
  assert (Hread : forall x w y,
             read_with_flanks records x w y -> definite w ->
             canonical w = canonical v ->
             exists now,
               accounts_for (p2_set st2) now /\
               Occurence.body now = Occurence.codes (canonical v) /\
               Occurence.prev now = x /\ Occurence.next now = y).
  { intros x w y R Dw C.
    assert (Hw : length w = k).
    { destruct Hv as [Hlen (a & b & _ & Hbr)].
      assert (Dv : definite v).
      { destruct Hbr as [[Ha _]|[Ha _]].
        - apply (proj1 (definite_app _ _) (proj1 Ha)).
        - apply (proj1 (definite_cons _ _) (proj1 Ha)). }
      destruct (canonical_eq_cases w v Dw Dv C) as [->| ->];
        [exact Hlen | now rewrite ReverseCompliment_length]. }
    destruct (read_site x y w Hw R) as (t & p & Ht & Hp & Hend & Ex & Ew & Ey).
    exists (now_at (str t) p). split.
    - apply (Acc t p Ht Hp Hend).
      apply (branching_marked cFilter filled v w t p Hv Dw C Hp Hend Ew).
    - unfold candidate_occurence. rewrite Ex, Ew, Ey.
      destruct (Set_stores (RawPositiveHash w) (RawNegativeHash w) w y x false)
        as (Hb & Hpr & Hn & _).
      rewrite Hb, C. auto. }
  destruct (Hread x1 w1 y1 R1 D1 C1) as (n1 & A1' & B1 & P1 & N1).
  destruct (Hread x2 w2 y2 R2 D2 C2) as (n2 & A2' & B2 & P2 & N2).
  destruct (accounts_for_two (p2_set st2) n1 n2 D A1' A2')
    as (e & He & Hbe & Hfe).
  - congruence.
  - rewrite P1, P2, N1, N2. exact Hdiff.
  - exists e. split; [exact He|]. split; [congruence | exact Hfe].
Qed.

(** C1.  With filters that have room for what is added to them, mask
    files that are read back as written and tasks of at least k + 2
    characters, a round ends (it returns the stream, or throws after a
    join), and when it returns the stream, every k-mer that has two
    distinct definite successor bases or two distinct definite
    predecessor bases over both strands of the records, and that is read
    at two places (each on either strand) with different characters
    observed beside it, is in the stream, as its canonical k-mer,
    whatever the order in which the workers take the tasks and the
    iterator traverses the occurrence set, and whatever else the edge
    filter reports as contained. *)
Theorem branching_kmers_reported :
  (exists outcome,
     Round shl_wide TASK_SIZE readFromFile RawPositiveHash RawNegativeHash
       traversal k realSize dir round order1a order1b order2 fs []
     = Some outcome) /\
  (forall stream,
     Round_stream shl_wide TASK_SIZE readFromFile RawPositiveHash
       RawNegativeHash traversal k realSize dir round order1a order1b order2 fs
     = Some stream ->
     forall v, branching records k v -> read_differently records v ->
               In (Occurence.codes (canonical v)) stream).
Proof.
  destruct Round_passes as (cFilter & st1 & st2 & E1 & E2 & Eerr & E3 & B).
  unfold Round_stream, Round. rewrite E1, E2, Eerr. cbn [after_join].
  rewrite E3.
  destruct (p2_error st2); cbn [after_join].
  - split; [eexists; reflexivity | discriminate].
  - destruct (TrueBifurcations (traversal (p2_set st2)) [])
      as [[out' tp] fp] eqn:ET.
    split; [eexists; reflexivity|].
    intros stream [= <-] v Hv Hread.
    destruct (B v Hv Hread) as (e & He & Hbe & Hfe).
    rewrite <- Hbe.
    pose proof (flagged_in_stream (traversal (p2_set st2)) e []) as X.
    rewrite ET in X. apply X; [|exact Hfe].
    apply (Permutation_in _ (Permutation_sym (traversal_all _)) He).
Qed.

End Completeness.

Lemma branching_kmers_reported_witness :
  Round_stream (F := gset Z) shl_masked 16 read_stored (fun _ => 0) (fun _ => 0)
    (fun s => s) 3 8 "tmp" 0
    (DistributeTasks 16 4 two_strand_sample)
    (DistributeTasks 16 4 two_strand_sample)
    (DistributeTasks 16 4 two_strand_sample) ∅ = Some [[0; 1; 2]] /\
  In (Occurence.codes (canonical (dna "ACG"))) [[0; 1; 2]].
Proof.
  assert (E : Round_stream (F := gset Z) shl_masked 16 read_stored
                (fun _ => 0) (fun _ => 0) (fun s => s) 3 8 "tmp" 0
                (DistributeTasks 16 4 two_strand_sample)
                (DistributeTasks 16 4 two_strand_sample)
                (DistributeTasks 16 4 two_strand_sample) ∅ = Some [[0; 1; 2]])
    by (vm_compute; reflexivity).
  split; [exact E|].
  refine (proj2 (branching_kmers_reported (F := gset Z) shl_masked 16
                   read_stored (fun _ => 0) (fun _ => 0) (fun s => s) 3
                   two_strand_sample _ _ _ _ _ _ 8 "tmp" 0 _ _ _ _ _ _ ∅)
            _ E (dna "ACG") _ _).
  - cbn. lia.
  - reflexivity.
  - reflexivity.
  - unfold two_strand_sample. repeat (constructor; [reflexivity|]). constructor.
  - intros path fs f Hf. unfold read_stored. rewrite Hf. reflexivity.
  - intros s. reflexivity.
  - reflexivity.
  - reflexivity.
  - reflexivity.
  - split; [reflexivity|]. exists "T"%char, "A"%char.
    split; [discriminate|]. left. split.
    + split; [repeat constructor|]. exists (dna "ACGT").
      split; [left; reflexivity|]. left. exists [], []. reflexivity.
    + split; [repeat constructor|]. exists (dna "TCGTA").
      split; [right; left; reflexivity|]. right. exists [], ["A"%char].
      reflexivity.
  - exists "N"%char, (dna "ACG"), "T"%char, "T"%char, (dna "CGT"), "A"%char.
    split; [exists (dna "ACGT"); split; [left; reflexivity|];
            exists [], ["N"%char]; reflexivity|].
    split; [exists (dna "TCGTA"); split; [right; left; reflexivity|];
            exists ["N"%char], ["N"%char]; reflexivity|].
    split; [repeat constructor|]. split; [repeat constructor|].
    split; [reflexivity|]. split; [reflexivity|]. left. discriminate.
Defined.

(** For an even k the round misses a branching k-mer that is its own
    reverse complement and occurs once: in AATG the 2-mer AT is followed by
    G, and on the other strand (CATT) by T, yet the stream of the round is
    empty. *)
Lemma palindrome_not_reported :
  branching palindrome_sample 2 (dna "AT") /\
  Round_stream (F := gset Z) shl_masked 16 read_stored (fun _ => 0) (fun _ => 0)
    (fun s => s) 2 8 "tmp" 0
    (DistributeTasks 16 3 palindrome_sample)
    (DistributeTasks 16 3 palindrome_sample)
    (DistributeTasks 16 3 palindrome_sample) ∅ = Some [] /\
  ~ In (Occurence.codes (canonical (dna "AT"))) [].
Proof.
  split; [|split; [vm_compute; reflexivity | intros []]].
  split; [reflexivity|]. exists "G"%char, "T"%char.
  split; [discriminate|]. left. split.
  - split; [repeat constructor|]. exists (dna "AATG").
    split; [left; reflexivity|]. left. exists ["A"%char], []. reflexivity.
  - split; [repeat constructor|]. exists (dna "AATG").
    split; [left; reflexivity|]. right. exists [], ["G"%char]. reflexivity.
Qed.

(** The round also misses a branching k-mer whose two successors are read
    on different strands with the same characters beside it: in CAC the
    1-mer A stands between C and C, in CTC its reverse complement T does
    too, so the two occurrences carry the same observed flanks although A
    is followed by C on one strand and by G on the other. *)
Lemma mixed_strands_not_reported :
  branching mixed_sample 1 (dna "A") /\
  Round_stream (F := gset Z) shl_masked 16 read_stored (fun _ => 0) (fun _ => 0)
    (fun s => s) 1 8 "tmp" 0
    (DistributeTasks 16 2 mixed_sample)
    (DistributeTasks 16 2 mixed_sample)
    (DistributeTasks 16 2 mixed_sample) ∅ = Some [[1]] /\
  ~ In (Occurence.codes (canonical (dna "A"))) [[1]].
Proof.
  split; [|split; [vm_compute; reflexivity | intros [E|[]]; discriminate E]].
  split; [reflexivity|]. exists "C"%char, "G"%char.
  split; [discriminate|]. left. split.
  - split; [repeat constructor|]. exists (dna "CAC").
    split; [left; reflexivity|]. left. exists ["C"%char], []. reflexivity.
  - split; [repeat constructor|]. exists (dna "CTC").
    split; [right; left; reflexivity|]. right. exists [], ["C"%char].
    reflexivity.
Qed.

(** ** The junction position file: out-of-order tuples, sizes, damaged files *)

Module JunctionApiMore.
Import JunctionApi JunctionApiFacts.

Lemma WriteJunction_below (pos : JunctionPosition) (w : JunctionPositionWriter) :
  chr_ pos <= w_nowChr w -> WriteJunction pos w = Some (put pos w).
Proof.
  intros Hc. unfold WriteJunction.
  replace (Z.to_nat (chr_ pos - w_nowChr w)) with 0%nat by lia.
  cbn [WriteJunction_fuel WriteJunction_loop].
  replace (w_nowChr w <? chr_ pos) with false
    by (symmetry; apply Z.ltb_ge; lia).
  reflexivity.
Qed.

Lemma WriteAll_attributed (l : list JunctionPosition) :
  forall w, 0 <= w_nowChr w -> Forall wf l ->
    exists w', WriteAll l w = Some w' /\
               w_nowChr w' = top_chr (w_nowChr w) l /\
               w_out w' = w_out w ++ layout (w_nowChr w)
                                       (attributed (w_nowChr w) l).
Proof.
  induction l as [|p l IH]; intros w Hc Hwf.
  - exists w. split; [reflexivity|]. split; [reflexivity|].
    cbn [attributed layout]. now rewrite app_nil_r.
  - inversion Hwf as [|? ? Hp Hl]; subst. destruct Hp as [Hchr _].
    cbn [WriteAll attributed layout top_chr map fold_left chr_ pos_ bifId_].
    destruct (Z.le_gt_cases (chr_ p) (w_nowChr w)) as [Hle|Hgt].
    + rewrite (WriteJunction_below p w Hle).
      destruct (IH (put p w)) as [w' [E1 [E2 E3]]]; [exact Hc | exact Hl |].
      exists w'. split; [exact E1|]. cbn [put w_nowChr w_out] in E2, E3.
      rewrite Z.max_l by lia. split; [exact E2|].
      rewrite E3. rewrite Z.sub_diag. cbn [Z.to_nat separators repeat concat app].
      unfold record. now rewrite <- !app_assoc.
    + rewrite WriteJunction_pad by lia.
      destruct (IH {| w_nowChr := chr_ p;
                      w_out := w_out w ++ separators (Z.to_nat (chr_ p - w_nowChr w))
                                 ++ record (pos_ p) (bifId_ p) |})
        as [w' [E1 [E2 E3]]]; [cbn [w_nowChr]; lia | exact Hl |].
      exists w'. split; [exact E1|]. cbn [w_nowChr w_out] in E2, E3.
      rewrite Z.max_r by lia. split; [exact E2|].
      rewrite E3. now rewrite <- !app_assoc.
Qed.

Lemma attributed_facts (l : list JunctionPosition) :
  forall c, 0 <= c < 2 ^ 32 -> Forall wf l -> Forall no_sentinel l ->
    Forall wf (attributed c l) /\ Forall no_sentinel (attributed c l) /\
    chr_sorted (attributed c l) /\
    match attributed c l with [] => True | p :: _ => c <= chr_ p end.
Proof.
  induction l as [|p l IH]; intros c Hc Hwf Hns.
  - cbn [attributed chr_sorted]. repeat split; constructor.
  - inversion Hwf as [|? ? Hp Hl]; subst.
    inversion Hns as [|? ? Np Nl]; subst.
    destruct Hp as [Hchr [Hpos Hbif]].
    destruct (IH (Z.max c (chr_ p)) ltac:(lia) Hl Nl) as [W [N [S L]]].
    cbn [attributed]. split; [|split; [|split]].
    + constructor; [|exact W]. repeat split; cbn [chr_ pos_ bifId_]; lia.
    + constructor; [|exact N]. exact Np.
    + cbn [chr_sorted]. split; [|exact S].
      destruct (attributed (Z.max c (chr_ p)) l); [exact I|].
      cbn [chr_]. exact L.
    + cbn [chr_]. lia.
Qed.

(** X1.  A stream written in any order of [chr] is read back with every
    tuple on the largest [chr] written up to it: [WriteJunction] pads
    with separators only when [chr] exceeds its counter and writes no
    chromosome number, so a tuple with a smaller [chr] lands on the
    chromosome the writer has reached. *)
Theorem unsorted_stream_attribution (l : list JunctionPosition) :
  Forall wf l -> Forall no_sentinel l ->
  exists file, file_of l = Some file /\ ReadAll file = Some (attributed 0 l).
Proof.
  intros Hwf Hns.
  destruct (WriteAll_attributed l writer_open) as [w' [E1 [_ E2]]];
    [cbn; lia | exact Hwf |].
  cbn [writer_open w_out w_nowChr app] in E2.
  destruct (attributed_facts l 0 ltac:(lia) Hwf Hns) as [W [N [S L]]].
  exists (w_out w'). unfold file_of. rewrite E1. split; [reflexivity|].
  rewrite E2. unfold ReadAll, reader_open.
  apply ReadAll_fuel_layout; try assumption; try lia.
  pose proof (layout_length (attributed 0 l) 0) as Hlen. lia.
Qed.

Lemma unsorted_stream_attribution_witness :
  exists file,
    file_of unsorted_sample = Some file /\
    ReadAll file = Some (attributed 0 unsorted_sample).
Proof.
  apply (unsorted_stream_attribution unsorted_sample).
  - repeat constructor; cbn; lia.
  - repeat constructor; vm_compute; congruence.
Defined.

Lemma top_chr_ge (l : list JunctionPosition) : forall c, c <= top_chr c l.
Proof.
  unfold top_chr. induction l as [|p l IH]; intros c; cbn [map fold_left];
    [lia|]. specialize (IH (Z.max c (chr_ p))). lia.
Qed.

Lemma layout_attributed_length (l : list JunctionPosition) :
  forall c,
    Z.of_nat (length (layout c (attributed c l))) =
    12 * (Z.of_nat (length l) + (top_chr c l - c)).
Proof.
  induction l as [|p l IH]; intros c.
  - cbn [attributed layout length top_chr map fold_left]. lia.
  - cbn [attributed layout chr_ pos_ bifId_].
    rewrite !length_app, separators_length, record_length, !Nat2Z.inj_add.
    rewrite IH. cbn [length].
    change (top_chr c (p :: l)) with (top_chr (Z.max c (chr_ p)) l).
    pose proof (top_chr_ge l (Z.max c (chr_ p))). lia.
Qed.

(** X2.  The file of a stream has one 12-byte record per tuple and one
    per chromosome step: its size is 12 times the number of tuples plus
    the largest [chr] written. *)
Theorem file_size (l : list JunctionPosition) :
  Forall wf l ->
  exists file, file_of l = Some file /\
               Z.of_nat (length file) = 12 * (Z.of_nat (length l) + top_chr 0 l).
Proof.
  intros Hwf.
  destruct (WriteAll_attributed l writer_open) as [w' [E1 [_ E2]]];
    [cbn; lia | exact Hwf |].
  cbn [writer_open w_out w_nowChr app] in E2.
  exists (w_out w'). unfold file_of. rewrite E1. split; [reflexivity|].
  rewrite E2, layout_attributed_length. lia.
Qed.

Lemma file_size_witness :
  exists file, file_of unsorted_sample = Some file /\
               Z.of_nat (length file) = 12 * (3 + 3).
Proof.
  apply (file_size unsorted_sample). repeat constructor; cbn; lia.
Defined.

(** The reader at the end of the data: after any number of separators
    fewer than 12 bytes are left. *)
Lemma NextJunctionPosition_fuel_stop (tail : list byte) :
  (length tail < 12)%nat ->
  forall (j fuel : nat) (c : Z),
    (j < fuel)%nat ->
    exists r',
      NextJunctionPosition_fuel fuel
        {| r_nowChr := c; r_in := separators j ++ tail; r_ok := true |}
      = Some (None, r').
Proof.
  intros Ht. induction j as [|j IH]; intros fuel c Hf;
    (destruct fuel as [|fuel]; [lia|]).
  - cbn [separators repeat concat app NextJunctionPosition_fuel].
    unfold read. cbn [r_ok r_in andb r_nowChr].
    destruct (4 <=? length tail)%nat eqn:E4; cbn [r_ok r_in andb r_nowChr].
    + apply Nat.leb_le in E4.
      replace (8 <=? length (drop 4 tail))%nat with false
        by (symmetry; apply Nat.leb_gt; rewrite length_drop; lia).
      eexists. reflexivity.
    + eexists. reflexivity.
  - rewrite separators_S, <- app_assoc. cbn [NextJunctionPosition_fuel].
    destruct (read_record c SEPARATOR_POS SEPARATOR_BIF (separators j ++ tail)
                SEPARATOR_POS_range SEPARATOR_BIF_range) as [E1 E2].
    rewrite E1, E2. rewrite Z.eqb_refl. cbn [negb andb].
    unfold incr_r. cbn [r_nowChr r_in r_ok]. apply IH. lia.
Qed.

Lemma ReadAll_fuel_layout_tail (l : list JunctionPosition) (j : nat)
    (tail : list byte) :
  (length tail < 12)%nat ->
  forall (fuel : nat) (c : Z),
    (length l < fuel)%nat -> 0 <= c ->
    match l with [] => True | p :: _ => c <= chr_ p end ->
    chr_sorted l -> Forall wf l -> Forall no_sentinel l ->
    ReadAll_fuel fuel
      {| r_nowChr := c; r_in := layout c l ++ separators j ++ tail;
         r_ok := true |} = Some l.
Proof.
  intros Ht. induction l as [|p l IH]; intros fuel c Hf Hc Hfst Hs Hwf Hns.
  - destruct fuel; [simpl in Hf; lia|]. cbn [ReadAll_fuel layout app].
    unfold NextJunctionPosition. cbn [r_in].
    destruct (NextJunctionPosition_fuel_stop tail Ht j
                (S (length (separators j ++ tail))) c) as [r' ->];
      [rewrite length_app, separators_length; lia | reflexivity].
  - destruct fuel as [|fuel]; [simpl in Hf; lia|].
    inversion Hwf as [|? ? Hp Hl]; subst.
    inversion Hns as [|? ? Np Nl]; subst.
    destruct Hp as [Hchr [Hpos Hbif]]. destruct Np as [Np Nb].
    cbn [ReadAll_fuel layout]. unfold NextJunctionPosition. cbn [r_in].
    rewrite <- !app_assoc.
    rewrite NextJunctionPosition_fuel_skip; try lia; try assumption.
    + replace (c + Z.of_nat (Z.to_nat (chr_ p - c))) with (chr_ p) by lia.
      rewrite IH; try assumption.
      * destruct p; reflexivity.
      * simpl in Hf. lia.
      * lia.
      * destruct l as [|q l]; [exact I | apply Hs].
      * destruct l; [exact I | apply Hs].
    + rewrite !length_app, separators_length. lia.
Qed.

Lemma chr_sorted_prefix (l1 l2 : list JunctionPosition) :
  chr_sorted (l1 ++ l2) -> chr_sorted l1.
Proof.
  induction l1 as [|p l1 IH]; [intros _; exact I|].
  cbn [app chr_sorted]. intros [Hp Hs]. split; [|now apply IH].
  destruct l1 as [|q l1]; [exact I | exact Hp].
Qed.

Lemma file_of_layout (l : list JunctionPosition) :
  Forall wf l -> chr_sorted l -> file_of l = Some (layout 0 l).
Proof.
  intros Hwf Hs.
  assert (Hfst : match l with [] => True | p :: _ => 0 <= chr_ p end).
  { destruct l as [|p l]; [exact I|]. inversion Hwf as [|? ? [Hc _] _]. lia. }
  destruct (WriteAll_layout l writer_open) as [w' [E1 E2]];
    try assumption; [cbn; lia|].
  unfold file_of. rewrite E1. cbn [writer_open w_out w_nowChr app] in E2.
  now rewrite E2.
Qed.

(** The layout of a stream up to a tuple and after it. *)
Lemma layout_split (l1 l2 : list JunctionPosition) (p : JunctionPosition) :
  forall c,
    exists j,
      layout c (l1 ++ [p])
      = layout c l1 ++ separators j ++ record (pos_ p) (bifId_ p) /\
      layout c (l1 ++ p :: l2) = layout c (l1 ++ [p]) ++ layout (chr_ p) l2.
Proof.
  induction l1 as [|q l1 IH]; intros c.
  - exists (Z.to_nat (chr_ p - c)). cbn [app layout].
    rewrite !app_nil_r. split; [reflexivity|]. now rewrite <- !app_assoc.
  - destruct (IH (chr_ q)) as (j & E1 & E2). exists j.
    cbn [app layout]. rewrite E2, E1. now rewrite <- !app_assoc.
Qed.

(** A prefix of separators and a record that stops short of the end of
    the record is some separators and fewer than 12 bytes. *)
Lemma take_separators (rest : list byte) :
  forall (j m : nat),
    (m < 12 * j + 12)%nat ->
    exists (j' : nat) (tail : list byte),
      take m (separators j ++ rest) = separators j' ++ tail /\
      (length tail < 12)%nat.
Proof.
  induction j as [|j IH]; intros m Hm.
  - exists 0%nat, (take m rest). cbn [separators repeat concat app].
    split; [reflexivity|]. rewrite length_take. lia.
  - destruct (le_lt_dec 12 m) as [Hge|Hlt].
    + destruct (IH (m - 12)%nat ltac:(lia)) as (j' & tail & E & Ht).
      exists (S j'), tail. split; [|exact Ht].
      rewrite !separators_S, <- !app_assoc.
      rewrite take_app_ge by (rewrite record_length; lia).
      rewrite record_length, E. reflexivity.
    + exists 0%nat, (take m (separators (S j) ++ rest)).
      split; [reflexivity|]. rewrite length_take. lia.
Qed.

(** X3.  A file cut at any byte is read as the tuples whose records lie
    wholly before the cut, whether the cut falls inside the record of a
    tuple or inside the separators written before it; and a file followed
    by fewer than 12 stray bytes is read as the file without them.  The
    reader returns [false] at the first record it cannot read whole, so
    the damage goes unnoticed. *)
Theorem truncated_file_read (l1 l2 : list JunctionPosition)
    (p : JunctionPosition) :
  Forall wf (l1 ++ p :: l2) -> chr_sorted (l1 ++ p :: l2) ->
  Forall no_sentinel (l1 ++ p :: l2) ->
  exists file file1 file2,
    file_of (l1 ++ p :: l2) = Some file /\ file_of l1 = Some file1 /\
    file_of (l1 ++ [p]) = Some file2 /\
    (forall n, (length file1 <= n < length file2)%nat ->
               ReadAll (take n file) = Some l1) /\
    (forall tail, (length tail < 12)%nat ->
                  ReadAll (file ++ tail) = Some (l1 ++ p :: l2)).
Proof.
  intros Hwf Hs Hns.
  assert (Hwf1 : Forall wf l1) by (apply Forall_app in Hwf; tauto).
  assert (Hns1 : Forall no_sentinel l1) by (apply Forall_app in Hns; tauto).
  assert (Hs1 : chr_sorted l1) by (eapply chr_sorted_prefix; eauto).
  assert (Hwfp : Forall wf (l1 ++ [p])).
  { apply Forall_app in Hwf as [? Hp]. apply Forall_app. split; [assumption|].
    inversion Hp; subst. now constructor. }
  assert (Hsp : chr_sorted (l1 ++ [p])).
  { apply (chr_sorted_prefix _ l2). now rewrite <- app_assoc. }
  assert (Hfst : forall l, Forall wf l ->
             match l with [] => True | q :: _ => 0 <= chr_ q end).
  { intros [|q l] H; [exact I|]. inversion H as [|? ? [Hc _] _]. lia. }
  exists (layout 0 (l1 ++ p :: l2)), (layout 0 l1), (layout 0 (l1 ++ [p])).
  rewrite !file_of_layout by assumption.
  split; [reflexivity|]. split; [reflexivity|]. split; [reflexivity|].
  destruct (layout_split l1 l2 p 0) as (j & E1 & E2). split.
  - intros n Hn. rewrite E2, E1, <- !app_assoc.
    rewrite E1, !length_app, separators_length, record_length in Hn.
    rewrite take_app_ge by lia.
    destruct (take_separators (record (pos_ p) (bifId_ p) ++ layout (chr_ p) l2)
                j (n - length (layout 0 l1)) ltac:(lia))
      as (j' & tail & -> & Ht).
    unfold ReadAll, reader_open.
    apply (ReadAll_fuel_layout_tail l1 j' tail Ht); try assumption;
      [|lia|exact (Hfst l1 Hwf1)].
    rewrite length_app. pose proof (layout_length l1 0). lia.
  - intros tail Ht. unfold ReadAll, reader_open.
    apply (ReadAll_fuel_layout_tail (l1 ++ p :: l2) 0 tail Ht);
      try assumption; [|lia|exact (Hfst _ Hwf)].
    cbn [separators repeat concat app].
    pose proof (layout_length (l1 ++ p :: l2) 0) as HL.
    rewrite (length_app (layout 0 (l1 ++ p :: l2))). lia.
Qed.

Lemma truncated_file_read_witness :
  exists file,
    file_of sample = Some file /\ length file = 48%nat /\
    ReadAll (take 30 file) = Some [ {| chr_ := 0; pos_ := 5; bifId_ := 7 |} ] /\
    ReadAll (take 40 file) = Some [ {| chr_ := 0; pos_ := 5; bifId_ := 7 |} ] /\
    ReadAll (file ++ [Byte.x05; Byte.x00; Byte.x00; Byte.x00; Byte.x07])
    = Some sample.
Proof.
  destruct (truncated_file_read
              [ {| chr_ := 0; pos_ := 5; bifId_ := 7 |} ] []
              {| chr_ := 2; pos_ := 1; bifId_ := 9 |})
    as (file & file1 & file2 & E & E1 & E2 & Hcut & Htail).
  - repeat constructor; cbn; lia.
  - cbn. lia.
  - repeat constructor; vm_compute; congruence.
  - exists file. split; [exact E|].
    assert (L1 : length file1 = 12%nat).
    { vm_compute in E1. injection E1 as <-. reflexivity. }
    assert (L2 : length file2 = 48%nat).
    { vm_compute in E2. injection E2 as <-. reflexivity. }
    assert (L : length file = 48%nat).
    { vm_compute in E. injection E as <-. reflexivity. }
    split; [exact L|]. split; [apply Hcut; lia|].
    split; [apply Hcut; lia|]. apply Htail. cbn. lia.
Defined.

(** One call of the reader on any input. *)
Lemma NextJunctionPosition_fuel_any (fuel : nat) :
  forall r : JunctionPositionReader,
    (length (r_in r) < 12 * fuel)%nat -> r_ok r = true -> 0 <= r_nowChr r ->
    12 * r_nowChr r + Z.of_nat (length (r_in r)) < 12 * 2 ^ 32 ->
    exists res r',
      NextJunctionPosition_fuel fuel r = Some (res, r') /\
      match res with
      | None => True
      | Some p =>
          wf p /\ no_sentinel p /\ r_ok r' = true /\ r_nowChr r' = chr_ p /\
          r_nowChr r <= chr_ p /\
          12 * chr_ p + Z.of_nat (length (r_in r')) + 12
          <= 12 * r_nowChr r + Z.of_nat (length (r_in r))
      end.
Proof.
  induction fuel as [|fuel IH]; intros r Hf Hok Hc Hpot; [lia|].
  destruct r as [c input ok]. cbn [r_in r_ok r_nowChr] in *. subst ok.
  cbn [NextJunctionPosition_fuel]. unfold read. cbn [r_ok r_in andb r_nowChr].
  destruct (4 <=? length input)%nat eqn:E4; cbn [r_ok r_in andb r_nowChr].
  2:{ eexists _, _. split; [reflexivity | exact I]. }
  apply Nat.leb_le in E4.
  destruct (8 <=? length (drop 4 input))%nat eqn:E8.
  2:{ eexists _, _. split; [reflexivity | exact I]. }
  apply Nat.leb_le in E8. rewrite length_drop in E8.
  set (p := le_combine (take 4 input)).
  set (b := le_combine (take 8 (drop 4 input))).
  assert (Hp : 0 <= p < 2 ^ 32).
  { pose proof (le_combine_bound (take 4 input)) as B.
    rewrite length_take in B. replace (4 `min` length input)%nat with 4%nat in B by lia.
    exact B. }
  assert (Hb : 0 <= b < 2 ^ 64).
  { pose proof (le_combine_bound (take 8 (drop 4 input))) as B.
    rewrite length_take, length_drop in B.
    replace (8 `min` (length input - 4))%nat with 8%nat in B by lia.
    exact B. }
  destruct (negb (p =? SEPARATOR_POS) && negb (b =? SEPARATOR_BIF)) eqn:Esep.
  - eexists _, _. split; [reflexivity|].
    apply andb_true_iff in Esep as [N1 N2].
    apply negb_true_iff, Z.eqb_neq in N1, N2.
    cbn [r_ok r_nowChr r_in chr_]. rewrite !length_drop.
    repeat split; cbn [chr_ pos_ bifId_]; try assumption; try lia.
  - destruct (IH (incr_r {| r_nowChr := c; r_in := drop 8 (drop 4 input);
                            r_ok := true |}))
      as [res [r' [E Hres]]].
    + cbn [incr_r r_in]. rewrite !length_drop. lia.
    + reflexivity.
    + cbn [incr_r r_nowChr]. unfold u32. apply Z.mod_pos_bound. lia.
    + cbn [incr_r r_nowChr r_in]. rewrite !length_drop, u32_small by lia. lia.
    + exists res, r'. split; [exact E|].
      destruct res as [q|]; [|exact I].
      cbn [incr_r r_nowChr r_in] in Hres.
      rewrite !length_drop, u32_small in Hres by lia.
      destruct Hres as (W & N & O & C & L & P).
      repeat split; try assumption; try apply W; try apply N; lia.
Qed.

Lemma ReadAll_fuel_any (fuel : nat) :
  forall r : JunctionPositionReader,
    (length (r_in r) < 12 * fuel)%nat -> r_ok r = true -> 0 <= r_nowChr r ->
    12 * r_nowChr r + Z.of_nat (length (r_in r)) < 12 * 2 ^ 32 ->
    exists l,
      ReadAll_fuel fuel r = Some l /\
      Forall wf l /\ Forall no_sentinel l /\ chr_sorted l /\
      match l with [] => True | p :: _ => r_nowChr r <= chr_ p end /\
      (12 * length l <= length (r_in r))%nat.
Proof.
  induction fuel as [|fuel IH]; intros r Hf Hok Hc Hpot; [lia|].
  cbn [ReadAll_fuel]. unfold NextJunctionPosition.
  destruct (NextJunctionPosition_fuel_any (S (length (r_in r))) r
              ltac:(lia) Hok Hc Hpot) as [res [r' [E Hres]]].
  rewrite E. destruct res as [p|].
  - destruct Hres as (W & N & O & C & L & P).
    destruct (IH r') as [l [El (Wl & Nl & Sl & Fl & Ll)]]; try lia; try assumption.
    rewrite El. exists (p :: l). split; [reflexivity|].
    split; [now constructor|]. split; [now constructor|].
    split; [|split; [exact L | cbn [length]; lia]].
    cbn [chr_sorted]. split; [|exact Sl].
    destruct l as [|q l]; [exact I|]. lia.
  - exists []. split; [reflexivity|]. cbn [chr_sorted length].
    repeat split; try constructor. lia.
Qed.

(** X4.  On any file (of fewer than [2^32] records) the reader comes to
    an end, and the tuples it yields have non-decreasing [chr], no
    all-ones field, and are at most one per 12 bytes of the file. *)
Theorem reader_on_any_file (file : list byte) :
  Z.of_nat (length file) < 12 * 2 ^ 32 ->
  exists l,
    ReadAll file = Some l /\
    Forall wf l /\ Forall no_sentinel l /\ chr_sorted l /\
    (12 * length l <= length file)%nat.
Proof.
  intros Hlen. unfold ReadAll.
  destruct (ReadAll_fuel_any (S (length file)) (reader_open file))
    as [l [E (W & N & S & _ & L)]]; cbn [reader_open r_in r_ok r_nowChr];
    try lia; try reflexivity.
  exists l. repeat split; assumption.
Qed.

Lemma reader_on_any_file_witness :
  exists l,
    ReadAll (repeat Byte.xff 12 ++ repeat Byte.x01 13) = Some l /\
    Forall wf l /\ Forall no_sentinel l /\ chr_sorted l /\
    (12 * length l <= 25)%nat.
Proof.
  apply (reader_on_any_file (repeat Byte.xff 12 ++ repeat Byte.x01 13)).
  cbn. lia.
Defined.

End JunctionApiMore.

(** ** File names, keys and flanks *)

Lemma string_length_app (a b : string) :
  String.length (a +:+ b) = (String.length a + String.length b)%nat.
Proof.
  induction a as [|c a IH]; [reflexivity|].
  change (String c a +:+ b) with (String c (a +:+ b)).
  cbn [String.length]. now rewrite IH.
Qed.

Lemma append_inv_tail (s a b : string) : a +:+ s = b +:+ s -> a = b.
Proof.
  revert b. induction a as [|c a IH]; intros [|c' b] E.
  - reflexivity.
  - apply (f_equal String.length) in E.
    rewrite !string_length_app in E. cbn [String.length] in E. lia.
  - apply (f_equal String.length) in E.
    rewrite !string_length_app in E. cbn [String.length] in E. lia.
  - change (String c (a +:+ s) = String c' (b +:+ s)) in E.
    injection E as -> E. f_equal. now apply IH.
Qed.

(** X5.  Within a directory the name of a mask file determines the
    sequence, the offset and the round: the mask files of two chunks, or of
    two rounds of a chunk, never share a name. *)
Theorem CandidateMaskFileName_injective (dir : string) (s p r s' p' r' : Z) :
  CandidateMaskFileName dir s p r = CandidateMaskFileName dir s' p' r' ->
  s = s' /\ p = p' /\ r = r'.
Proof.
  unfold CandidateMaskFileName. intros E.
  apply append_inv_head in E. apply (append_inv_head "/") in E.
  apply split_at_underscore in E as [E1 E2];
    try apply has_underscore_pretty_Z.
  apply split_at_underscore in E2 as [E2 E3];
    try apply has_underscore_pretty_Z.
  apply append_inv_tail in E3.
  repeat split; eapply pretty_Z_inj; eauto.
Qed.

Lemma CandidateMaskFileName_injective_witness :
  (0 = 0 /\ 65534 = 65534 /\ 1 = 1) /\
  CandidateMaskFileName "tmp" 0 65534 1 = "tmp/0_65534_1.tmp"%string.
Proof.
  split; [|vm_compute; reflexivity].
  apply (CandidateMaskFileName_injective "tmp" 0 65534 1 0 65534 1).
  reflexivity.
Defined.

Lemma MakeUpChar_inj (c d : ascii) :
  DnaChar.IsDefinite c = true -> DnaChar.IsDefinite d = true ->
  DnaChar.MakeUpChar c = DnaChar.MakeUpChar d -> c = d.
Proof.
  intros Hc Hd.
  destruct (IsDefinite_cases c Hc) as [-> | [-> | [-> | ->]]];
    destruct (IsDefinite_cases d Hd) as [-> | [-> | [-> | ->]]];
    cbn; intros E; try reflexivity; discriminate E.
Qed.

Lemma packed_inj (s1 : list ascii) :
  forall s2, definite s1 -> definite s2 -> length s1 = length s2 ->
    packed s1 = packed s2 -> s1 = s2.
Proof.
  induction s1 as [|c s1 IH]; intros [|d s2] D1 D2 L E; try discriminate L;
    [reflexivity|].
  apply definite_cons in D1 as [Hc D1]. apply definite_cons in D2 as [Hd D2].
  cbn [packed] in E.
  pose proof (MakeUpChar_range c). pose proof (MakeUpChar_range d).
  assert (DnaChar.MakeUpChar c = DnaChar.MakeUpChar d /\ packed s1 = packed s2)
    as [E1 E2] by lia.
  f_equal; [now apply MakeUpChar_inj|].
  apply IH; auto.
Qed.

Lemma canonical_definite (e : list ascii) : definite e -> definite (canonical e).
Proof.
  intros D. rewrite canonical_cases.
  destruct (StdString.compare e (DnaChar.ReverseCompliment e)); auto;
    now apply ReverseCompliment_definite.
Qed.

Lemma canonical_length (e : list ascii) : length (canonical e) = length e.
Proof.
  rewrite canonical_cases.
  destruct (StdString.compare e (DnaChar.ReverseCompliment e)); auto;
    now rewrite ReverseCompliment_length.
Qed.

(** X6.  For edges of at most 15 bases the key of the edge filter is
    exact: two edges of the same length get the same key exactly when
    their canonical forms are equal, that is when they are the same edge
    read on the same or on opposite strands. *)
Theorem edge_keys_exact shl (e1 e2 : list ascii) :
  definite e1 -> definite e2 -> length e1 = length e2 ->
  (length e1 <= 15)%nat ->
  (getCanonicalVal shl e1 = getCanonicalVal shl e2 <->
   canonical e1 = canonical e2).
Proof.
  intros D1 D2 L Hlen. rewrite !getCanonicalVal_lex_min. split.
  - rewrite !convertToInt_packed by (rewrite canonical_length; lia).
    apply packed_inj; auto using canonical_definite.
    now rewrite !canonical_length.
  - now intros ->.
Qed.

Lemma edge_keys_exact_witness :
  getCanonicalVal shl_masked (dna "ACGT") = getCanonicalVal shl_masked (dna "ACGA")
  <-> canonical (dna "ACGT") = canonical (dna "ACGA").
Proof.
  apply (edge_keys_exact shl_masked (dna "ACGT") (dna "ACGA")).
  - repeat constructor.
  - repeat constructor.
  - reflexivity.
  - cbn. lia.
Defined.

Section Flanks.

Context {F : Type} `{CuckooFilterLaws F}.
Variable shl_wide : Z -> Z -> Z.
Variable TASK_SIZE : nat.
Variable cFilter : F.

(** X7.  A definite window next to an indefinite character (the sentinel
    at either end of a record, or an [N] inside it) is a candidate
    whatever the edge filter holds: its count starts at 2, and the
    position is recorded in the mask of the chunk. *)
Theorem flank_window_marked (k : nat) (s : list ascii) (marks : Z) (p : nat) :
  Z.of_nat k < 2 ^ 64 -> 0 <= marks < 2 ^ 64 ->
  (1 <= p)%nat -> (p + k + 1 <= length s)%nat ->
  definite (StdString.substr s p k) ->
  DnaChar.IsDefinite (StdString.at_ s (p - 1)) = false
  \/ DnaChar.IsDefinite (StdString.at_ s (p + k)) = false ->
  is_candidate shl_wide cFilter k s p = true /\
  exists marks' mask,
    CandidateChecking_scan shl_wide TASK_SIZE cFilter k s marks
      = Some (marks', mask) /\
    Contain (Z.of_nat p) mask = true.
Proof.
  intros Hk Hm Hp Hend Hd Hflank.
  assert (Hc : spec_candidate shl_wide cFilter k s p = true).
  { unfold spec_candidate. apply orb_true_iff.
    destruct Hflank as [E|E]; [left | right]; apply Z.ltb_lt.
    - unfold spec_inCount. rewrite E. lia.
    - unfold spec_outCount. rewrite E. lia. }
  split; [now rewrite is_candidate_spec|].
  rewrite (CandidateChecking_scan_spec shl_wide TASK_SIZE cFilter k s marks Hk
             ltac:(lia) Hm).
  eexists _, _. split; [reflexivity|].
  apply record_positions_Contain. now apply in_marked_positions.
Qed.

End Flanks.

Lemma flank_window_marked_witness :
  is_candidate (F := gset Z) shl_masked ∅ 3 (dna "NACGTN") 1 = true /\
  exists marks' mask,
    CandidateChecking_scan (F := gset Z) shl_masked 16 ∅ 3 (dna "NACGTN") 0
      = Some (marks', mask) /\
    Contain 1 mask = true.
Proof.
  apply (flank_window_marked (F := gset Z) shl_masked 16 ∅ 3 (dna "NACGTN") 0 1).
  - lia.
  - lia.
  - lia.
  - cbn. lia.
  - repeat constructor.
  - left. reflexivity.
Defined.

(** ** The tasks of the distributor *)

Section TaskFacts.

Variable TASK_SIZE : nat.
Variable k : nat.
Hypothesis size_fits : (k + 2 <= TASK_SIZE)%nat.

Lemma padded_chars (r : list ascii) : Forall task_char (padded r).
Proof.
  unfold padded. constructor; [now right|]. apply Forall_app. split.
  - unfold normalize. apply Forall_forall. intros c Hc.
    apply list_elem_of_In, in_map_iff in Hc as [x [<- _]].
    destruct (DnaChar.IsDefinite x) eqn:E; [now left | now right].
  - constructor; [now right | constructor].
Qed.

Lemma chunks_shape (record : Z) (P : list ascii) (s : nat) (pc : Z)
    (tasks : list Task) (pc' : Z) :
  chunks TASK_SIZE (k + 1) record P s pc tasks pc' ->
  Forall (fun t => exists st, chunk_of record P st t /\
                     (k + 2 <= length (str t) <= TASK_SIZE)%nat /\
                     (if isFinal t
                      then (st + length (str t))%nat = length P
                      else length (str t) = TASK_SIZE)) tasks.
Proof.
  induction 1 as [s pc Hlo Hhi | s pc rest pc' Hlt _ IH].
  - constructor; [|constructor]. exists s. cbn [str isFinal].
    rewrite length_drop. split; [|split; lia].
    unfold chunk_of. cbn [seqId start str]. rewrite length_drop.
    repeat split; try lia. unfold StdString.substr.
    rewrite take_ge; [reflexivity | rewrite length_drop; lia].
  - constructor; [|exact IH]. exists s. cbn [str isFinal].
    rewrite substr_length by lia. split; [|split; lia].
    unfold chunk_of. cbn [seqId start str]. rewrite substr_length by lia.
    repeat split; lia.
Qed.

Lemma all_chunks_shape (i : nat) (pc : Z) (rs : list (list ascii))
    (ts : list Task) (pc' : Z) :
  all_chunks TASK_SIZE (k + 1) i pc rs ts pc' ->
  Forall (fun t => exists j r st,
            rs !! j = Some r /\ chunk_of (Z.of_nat (i + j)) (padded r) st t /\
            (k + 2 <= length (str t) <= TASK_SIZE)%nat /\
            (if isFinal t
             then (st + length (str t))%nat = length (padded r)
             else length (str t) = TASK_SIZE)) ts.
Proof.
  induction 1 as [i pc | i pc r0 rs rest pc' Hshort _ IH
                  | i pc r0 rs tasks pc1 rest pc' Hc _ IH].
  - constructor.
  - eapply Forall_impl; [exact IH|]. cbn beta.
    intros t (j & r & st & Hj & Hrest). exists (S j), r, st.
    split; [exact Hj|]. now replace (i + S j)%nat with (S i + j)%nat by lia.
  - apply Forall_app. split.
    + eapply Forall_impl; [exact (chunks_shape _ _ _ _ _ _ Hc)|]. cbn beta.
      intros t (st & Hrest). exists 0%nat, r0, st. split; [reflexivity|].
      now rewrite Nat.add_0_r.
    + eapply Forall_impl; [exact IH|]. cbn beta.
      intros t (j & r & st & Hj & Hrest). exists (S j), r, st.
      split; [exact Hj|]. now replace (i + S j)%nat with (S i + j)%nat by lia.
Qed.

Variable records : list (list ascii).
Hypothesis records_fit : Z.of_nat (length records) < 2 ^ 64.
Hypothesis lengths_fit :
  Forall (fun r => Z.of_nat (length r) < 2 ^ 64) records.

Local Abbreviation ts := (DistributeTasks TASK_SIZE (k + 1) records).

Lemma DistributeTasks_all_chunks :
  exists pc', all_chunks TASK_SIZE (k + 1) 0 0 records ts pc'.
Proof.
  apply (DistributeRecords_all_chunks TASK_SIZE k size_fits records 0 0).
  - cbn [Nat.add]. exact records_fit.
  - exact lengths_fit.
Qed.

(** X8.  Every task is a chunk of its padded record: it carries the
    number of the record and its offset in it, holds between [k + 2] and
    [TASK_SIZE] characters, all of them [A], [C], [G], [T] or [N]; a task
    that is not final is a whole chunk of [TASK_SIZE] characters and a
    final one ends with the closing sentinel of the record. *)
Theorem DistributeTasks_task_shape :
  Forall (task_shape TASK_SIZE k records) ts.
Proof.
  destruct DistributeTasks_all_chunks as [pc' Hc].
  eapply Forall_impl; [exact (all_chunks_shape _ _ _ _ _ Hc)|]. cbn beta.
  intros t (j & r & st & Hj & Hchunk & Hsize & Hfin).
  exists j, r, st. cbn [Nat.add] in Hchunk.
  split; [exact Hj|]. split; [exact Hchunk|]. split; [exact Hsize|].
  split; [|exact Hfin].
  destruct Hchunk as (_ & _ & _ & ->). unfold StdString.substr.
  apply Forall_take, Forall_drop, padded_chars.
Qed.

(** X9.  No window is lost at a chunk border: every [k]-mer of a record
    together with the characters before and after it (the sentinels at
    the ends of the record included) lies inside some task, at the
    position that the task's offset gives. *)
Theorem DistributeTasks_covers_windows (j : nat) (r : list ascii) (q : nat) :
  records !! j = Some r -> (q + k + 2 <= length (padded r))%nat ->
  exists t p,
    In t ts /\ seqId t = Z.of_nat j /\
    (1 <= p)%nat /\ (p + k + 1 <= length (str t))%nat /\
    start t + Z.of_nat p - 1 = Z.of_nat q /\
    StdString.substr (str t) (p - 1) (k + 2)
    = StdString.substr (padded r) q (k + 2).
Proof.
  intros Hj Hq. destruct DistributeTasks_all_chunks as [pc' Hc].
  destruct (all_chunks_cover TASK_SIZE k size_fits 0 0 records ts pc' Hc
              j r q Hj Hq) as (t & st & Ht & Hchunk & Hlo & Hhi).
  destruct Hchunk as (Hseq & Hstart & Hfit & Hstr).
  exists t, (q - st + 1)%nat. split; [exact Ht|]. split; [exact Hseq|].
  split; [lia|]. split; [lia|]. split; [lia|].
  rewrite Hstr at 1.
  replace (q - st + 1 - 1)%nat with (q - st)%nat by lia.
  rewrite (substr_substr TASK_SIZE k size_fits) by lia.
  f_equal. lia.
Qed.

(** X10.  The pieces are numbered in the order in which the tasks are
    pushed: the [j]-th task of a stage has piece number [j]. *)
Theorem DistributeTasks_pieces_consecutive (j : nat) (t : Task) :
  Z.of_nat (length ts) < 2 ^ 32 ->
  ts !! j = Some t -> piece t = Z.of_nat j.
Proof.
  intros Hlen Hj. destruct DistributeTasks_all_chunks as [pc' Hc].
  destruct (all_chunks_pieces TASK_SIZE k size_fits _ _ _ _ _ Hc) as [_ Hp];
    [lia | lia |].
  rewrite (Hp j t Hj). lia.
Qed.

End TaskFacts.

Lemma DistributeTasks_task_shape_witness :
  Forall (task_shape 5 1 [dna "ACGTAC"; dna "GX"])
    (DistributeTasks 5 (1 + 1) [dna "ACGTAC"; dna "GX"]).
Proof.
  apply (DistributeTasks_task_shape 5 1).
  - lia.
  - cbn. lia.
  - repeat (constructor; [cbn; lia|]). constructor.
Defined.

Lemma DistributeTasks_covers_windows_witness :
  exists t p,
    In t (DistributeTasks 5 (1 + 1) [dna "ACGTAC"; dna "GX"]) /\
    seqId t = 0 /\ (1 <= p)%nat /\ (p + 1 + 1 <= length (str t))%nat /\
    start t + Z.of_nat p - 1 = 4 /\
    StdString.substr (str t) (p - 1) (1 + 2) = dna "TAC".
Proof.
  apply (DistributeTasks_covers_windows 5 1 ltac:(lia)
           [dna "ACGTAC"; dna "GX"] ltac:(cbn; lia)
           ltac:(repeat (constructor; [cbn; lia|]); constructor)
           0%nat (dna "ACGTAC") 4%nat).
  - reflexivity.
  - cbn. lia.
Defined.

Lemma DistributeTasks_pieces_consecutive_witness :
  piece (mkTask 0 3 1 true (dna "GTACN")) = 1.
Proof.
  apply (DistributeTasks_pieces_consecutive 5 1 ltac:(lia)
           [dna "ACGTAC"; dna "GX"] ltac:(cbn; lia)
           ltac:(repeat (constructor; [cbn; lia|]); constructor) 1%nat).
  - cbn. lia.
  - reflexivity.
Defined.

(** ** Pass 1a over the tasks of the distributor *)

Section EdgeFilter.

Context {F : Type} `{CuckooFilterLaws F}.
Variable shl_wide : Z -> Z -> Z.
Variable TASK_SIZE : nat.
Variable k : nat.
Variable records : list (list ascii).

(** X11.  After pass 1a the edge filter holds every edge of the input:
    for every definite (k+1)-mer that occurs in a record, on either
    strand, the filter answers [Contain] for its canonical key, whatever
    the order in which the workers took the tasks (for a filter with room
    for what is added to it). *)
Theorem edge_filter_holds_every_edge (realSize : nat) (order : list Task)
    (e : list ascii) :
  (k + 2 <= TASK_SIZE)%nat -> Z.of_nat k < 2 ^ 64 ->
  Z.of_nat (length records) < 2 ^ 64 ->
  Forall (fun r => Z.of_nat (length r) < 2 ^ 64) records ->
  order ≡ₚ DistributeTasks TASK_SIZE (k + 1) records ->
  length e = (k + 1)%nat -> edge_present records e ->
  exists cFilter,
    FilterFillerWorker shl_wide (k + 1) order (cf_new realSize) = Some cFilter /\
    Contain (getCanonicalVal shl_wide e) cFilter = true.
Proof.
  intros Hsize Hk Hn Hrs Hperm He Hedge.
  destruct (FilterFillerWorker_spec shl_wide k Hk order (cf_new realSize))
    as (cFilter & E & _ & A).
  exists cFilter. split; [exact E|].
  apply (edge_contained shl_wide TASK_SIZE k records Hsize Hn Hrs cFilter);
    [|exact He | exact Hedge].
  intros t p Ht. apply A.
  apply (Permutation_in _ (Permutation_sym Hperm) Ht).
Qed.

End EdgeFilter.

Lemma edge_filter_holds_every_edge_witness :
  exists cFilter : gset Z,
    FilterFillerWorker shl_masked (3 + 1)
      (rev (DistributeTasks 16 (3 + 1) branching_sample)) (cf_new 8)
    = Some cFilter /\
    Contain (getCanonicalVal shl_masked (dna "TCGT")) cFilter = true.
Proof.
  apply (edge_filter_holds_every_edge (F := gset Z) shl_masked 16 3
           branching_sample 8 (rev (DistributeTasks 16 (3 + 1) branching_sample))
           (dna "TCGT")).
  - lia.
  - lia.
  - cbn. lia.
  - repeat (constructor; [cbn; lia|]). constructor.
  - symmetry. apply Permutation_rev.
  - reflexivity.
  - split; [repeat constructor|]. exists (dna "ACGA").
    split; [right; left; reflexivity|]. right. exists [], []. reflexivity.
Defined.

(** ** Pass 2: what a flag stands for *)

Section Pass2Evidence.

Context {F : Type} `{CuckooFilter F}.
Variable TASK_SIZE : nat.
Variable readFromFile : string -> bool -> gmap string F -> string + F.
Variable RawPositiveHash RawNegativeHash : list ascii -> Z.
Variable k : nat.

Local Abbreviation now_at s pos :=
  (candidate_occurence RawPositiveHash RawNegativeHash k s pos).

Lemma candidate_occurence_unflagged (s : list ascii) (pos : nat) :
  Occurence.isBifurcation (now_at s pos) = false.
Proof.
  unfold candidate_occurence, Occurence.Set_.
  destruct (StdString.compare _ _); reflexivity.
Qed.

Lemma evidence_app (seen more : list Occurence.t) (set : OccurenceSet) :
  evidence seen set -> evidence (seen ++ more) set.
Proof.
  intros Hev e He. destruct (Hev e He) as (i & x & Hi & Hb & Hp & Hn & Hf).
  exists i, x. split; [now apply lookup_app_l_Some|].
  repeat split; try assumption.
  intros Hflag. destruct (Hf Hflag) as (j & y & Hij & Hj & Hc).
  exists j, y. split; [exact Hij|]. split; [now apply lookup_app_l_Some | exact Hc].
Qed.

Lemma evidence_candidate (seen : list Occurence.t) (s : list ascii) (pos : nat)
    (set : OccurenceSet) :
  evidence seen set ->
  evidence (seen ++ [now_at s pos])
    (FinalFiltering_candidate RawPositiveHash RawNegativeHash k s pos set).
Proof.
  intros Hev. unfold FinalFiltering_candidate, insert_occurence.
  set (now := now_at s pos).
  destruct (find_occurence now set) as [i|] eqn:Efind.
  - destruct (find_occurence_Some now set i Efind) as [it [Hi Hb]].
    rewrite Hi. cbn [negb andb orb].
    destruct (Occurence.IsBifurcation it) eqn:Eflag; cbn [negb];
      [now apply evidence_app|].
    match goal with
    | |- context [if ?c then _ else _] => destruct c eqn:Econd
    end; [|now apply evidence_app].
    intros e He.
    apply list_elem_of_In, list_elem_of_lookup in He as [j Hj].
    destruct (Nat.eq_dec i j) as [<-|Hne].
    + rewrite list_lookup_insert_eq in Hj by (now apply lookup_lt_Some in Hi).
      injection Hj as <-.
      assert (Hit : In it set)
        by (apply list_elem_of_In, list_elem_of_lookup; eauto).
      destruct (Hev it Hit) as (a & x & Ha & Hxb & Hxp & Hxn & _).
      exists a, x. split; [now apply lookup_app_l_Some|].
      cbn [Occurence.MakeBifurcation Occurence.body Occurence.prev
             Occurence.next Occurence.isBifurcation].
      repeat split; try assumption. intros _.
      exists (length seen), now.
      split; [now apply lookup_lt_Some in Ha|].
      split; [now rewrite lookup_app_r, Nat.sub_diag by lia|].
      split; [congruence|]. rewrite Hxp, Hxn.
      unfold Occurence.Next, Occurence.Prev in Econd.
      apply orb_true_iff in Econd as [Econd|E5].
      * apply orb_true_iff in Econd as [Econd|E4].
        -- apply orb_true_iff in Econd as [E2|E3].
           ++ left. apply negb_true_iff, Ascii.eqb_neq in E2. exact E2.
           ++ right. left. apply negb_true_iff, Ascii.eqb_neq in E3. exact E3.
        -- right. right. left. apply Z.ltb_lt in E4.
           destruct (Ascii.eqb (Occurence.prev now) "N") eqn:EN;
             destruct (DnaChar.IsDefinite (Occurence.prev it)) eqn:ED;
             try lia.
           apply Ascii.eqb_eq in EN. auto.
      * right. right. right. apply Z.ltb_lt in E5.
        destruct (Ascii.eqb (Occurence.next now) "N") eqn:EN;
          destruct (DnaChar.IsDefinite (Occurence.next it)) eqn:ED;
          try lia.
        apply Ascii.eqb_eq in EN. auto.
    + rewrite list_lookup_insert_ne in Hj by exact Hne.
      apply (evidence_app seen [now] set Hev).
      apply list_elem_of_In, list_elem_of_lookup. eauto.
  - rewrite lookup_app_r by lia. rewrite Nat.sub_diag. cbn [lookup list_lookup].
    cbn [negb andb].
    intros e He. apply in_app_or in He as [He|[<-|[]]].
    + now apply (evidence_app seen [now] set Hev).
    + exists (length seen), now.
      split; [now rewrite lookup_app_r, Nat.sub_diag by lia|].
      repeat split. unfold now. rewrite candidate_occurence_unflagged.
      discriminate.
Qed.

Lemma trace_inv_candidate (seen : list Occurence.t) (s : list ascii) (pos : nat)
    (set : OccurenceSet) :
  trace_inv seen set ->
  trace_inv (seen ++ [now_at s pos])
    (FinalFiltering_candidate RawPositiveHash RawNegativeHash k s pos set).
Proof.
  intros (D & A & E).
  destruct (FinalFiltering_candidate_spec RawPositiveHash RawNegativeHash k
              s pos set D) as (D' & A' & M').
  split; [exact D'|]. split; [|now apply evidence_candidate].
  intros x Hx. apply in_app_or in Hx as [Hx|[<-|[]]]; [|exact A'].
  apply M'. now apply A.
Qed.

Local Abbreviation met mask s ps :=
  (map (candidate_occurence RawPositiveHash RawNegativeHash k s)
     (filter (fun p => Contain (Z.of_nat p) mask = true) ps)).

Lemma trace_inv_loop (mask : F) (s : list ascii) :
  forall (d pos fuel : nat) (set : OccurenceSet) (seen : list Occurence.t),
    (pos + k + 1 + d = length s)%nat -> (d < fuel)%nat ->
    trace_inv seen set ->
    exists set',
      FinalFiltering_loop RawPositiveHash RawNegativeHash fuel mask k s pos set
      = Some set' /\
      trace_inv (seen ++ met mask s (seq pos (S d))) set'.
Proof.
  assert (Hbody : forall pos set seen,
             trace_inv seen set ->
             trace_inv (seen ++ met mask s [pos])
               (FinalFiltering_body RawPositiveHash RawNegativeHash mask k s
                  pos set)).
  { intros pos set seen Hinv. unfold FinalFiltering_body.
    rewrite filter_cons, filter_nil.
    destruct (Contain (Z.of_nat pos) mask) eqn:E.
    - rewrite decide_True by reflexivity. cbn [map].
      now apply trace_inv_candidate.
    - rewrite decide_False by discriminate. cbn [map].
      now rewrite app_nil_r. }
  induction d as [|d IH]; intros pos fuel set seen Hlen Hfuel Hinv;
    (destruct fuel as [|fuel]; [lia|]); cbn [FinalFiltering_loop].
  - replace (pos + (k + 1) <? length s)%nat with false
      by (symmetry; apply Nat.ltb_ge; lia).
    eexists. split; [reflexivity|]. now apply Hbody.
  - replace (pos + (k + 1) <? length s)%nat with true
      by (symmetry; apply Nat.ltb_lt; lia).
    destruct (IH (S pos) fuel _ (seen ++ met mask s [pos])
                ltac:(lia) ltac:(lia) (Hbody pos set seen Hinv))
      as [set' [E Hinv']].
    exists set'. split; [exact E|].
    change (seq pos (S (S d))) with ([pos] ++ seq (S pos) (S d)).
    rewrite filter_app, map_app, app_assoc. exact Hinv'.
Qed.

Lemma fst_load_mask (dir : string) (round : Z) (t : Task) (fs : gmap string F)
    (error : option string) :
  fst (load_mask TASK_SIZE readFromFile dir round t fs error)
  = fst (load_mask TASK_SIZE readFromFile dir round t fs None).
Proof. unfold load_mask. destruct (readFromFile _ _ _); reflexivity. Qed.

Local Abbreviation occurences_of dir round fs :=
  (task_occurences TASK_SIZE readFromFile RawPositiveHash RawNegativeHash k
     dir round fs).

Lemma trace_inv_task (dir : string) (round : Z) (fs : gmap string F)
    (t : Task) (st : Pass2State) (seen : list Occurence.t) :
  trace_inv seen (p2_set st) ->
  exists st',
    FinalFiltering_task TASK_SIZE readFromFile RawPositiveHash RawNegativeHash
      k dir round fs t st = Some st' /\
    trace_inv (seen ++ occurences_of dir round fs t) (p2_set st').
Proof.
  intros Hinv. unfold FinalFiltering_task, task_occurences.
  destruct (length (str t) <? k)%nat eqn:E1.
  { apply Nat.ltb_lt in E1.
    replace (k + 2 <=? length (str t))%nat with false
      by (symmetry; apply Nat.leb_gt; lia).
    exists st. split; [reflexivity|]. now rewrite app_nil_r. }
  destruct (k + 2 <=? length (str t))%nat eqn:E2.
  2:{ exists st. split; [reflexivity|]. now rewrite app_nil_r. }
  apply Nat.leb_le in E2.
  rewrite <- (fst_load_mask dir round t fs (p2_error st)).
  destruct (load_mask TASK_SIZE readFromFile dir round t fs (p2_error st))
    as [mask error].
  destruct (trace_inv_loop mask (str t) (length (str t) - k - 2) 1
              (length (str t)) (p2_set st) seen ltac:(lia) ltac:(lia) Hinv)
    as [set' [E Hinv']].
  rewrite E. eexists. split; [reflexivity|]. cbn [p2_set fst].
  now replace (length (str t) - k - 1)%nat with (S (length (str t) - k - 2))
    by lia.
Qed.

Lemma trace_inv_worker (dir : string) (round : Z) (fs : gmap string F)
    (queue : list Task) :
  forall (st : Pass2State) (seen : list Occurence.t),
    trace_inv seen (p2_set st) ->
    exists st',
      CandidateFinalFilteringWorker TASK_SIZE readFromFile RawPositiveHash
        RawNegativeHash k dir round fs queue st = Some st' /\
      trace_inv (seen ++ flat_map (occurences_of dir round fs) queue)
        (p2_set st').
Proof.
  induction queue as [|t queue IH]; intros st seen Hinv.
  - exists st. split; [reflexivity|]. cbn [flat_map]. now rewrite app_nil_r.
  - cbn [CandidateFinalFilteringWorker flat_map].
    destruct (trace_inv_task dir round fs t st seen Hinv) as [st1 [E1 H1]].
    rewrite E1. destruct (IH st1 _ H1) as [st' [E' H']].
    exists st'. split; [exact E'|]. now rewrite app_assoc.
Qed.

Lemma trace_inv_nil : trace_inv [] [].
Proof.
  split; [constructor|]. split; [intros ? []|]. intros ? [].
Qed.

Local Abbreviation trace dir round fs queue :=
  (queue_occurences TASK_SIZE readFromFile RawPositiveHash RawNegativeHash k
     dir round fs queue).

(** X12.  Pass 2 flags a k-mer only on the evidence of two candidate
    occurrences: a flagged element of the occurrence set carries the
    flanks of an occurrence met earlier, and a later occurrence of the
    same k-mer differs from it in a flank, or both have no definite
    character on the same side.  A k-mer met at one candidate position
    only is never flagged. *)
Theorem flag_has_two_occurences (dir : string) (round : Z)
    (fs : gmap string F) (queue : list Task) :
  exists st',
    CandidateFinalFilteringWorker TASK_SIZE readFromFile RawPositiveHash
      RawNegativeHash k dir round fs queue
      {| p2_set := []; p2_error := None |} = Some st' /\
    forall e, In e (p2_set st') -> Occurence.isBifurcation e = true ->
      exists i j x y,
        (i < j)%nat /\ trace dir round fs queue !! i = Some x /\
        trace dir round fs queue !! j = Some y /\
        Occurence.body x = Occurence.body e /\ conflicting x y.
Proof.
  destruct (trace_inv_worker dir round fs queue
              {| p2_set := []; p2_error := None |} [] trace_inv_nil)
    as [st' [E (_ & _ & Hev)]].
  exists st'. split; [exact E|]. cbn [app] in Hev.
  intros e He Hflag.
  destruct (Hev e He) as (i & x & Hi & Hb & _ & _ & Hf).
  destruct (Hf Hflag) as (j & y & Hij & Hj & Hc).
  exists i, j, x, y. repeat split; try assumption; apply Hc.
Qed.

(** X13.  After pass 2 the occurrence set holds each k-mer met at a
    candidate position exactly once and nothing else, and a k-mer two of
    whose candidate occurrences differ in a flank is flagged. *)
Theorem occurence_set_of_trace (dir : string) (round : Z)
    (fs : gmap string F) (queue : list Task) :
  exists st',
    CandidateFinalFilteringWorker TASK_SIZE readFromFile RawPositiveHash
      RawNegativeHash k dir round fs queue
      {| p2_set := []; p2_error := None |} = Some st' /\
    NoDup (map Occurence.body (p2_set st')) /\
    (forall b, In b (map Occurence.body (p2_set st')) <->
               In b (map Occurence.body (trace dir round fs queue))) /\
    (forall x y, In x (trace dir round fs queue) ->
                 In y (trace dir round fs queue) ->
                 Occurence.body x = Occurence.body y ->
                 Occurence.prev x <> Occurence.prev y
                 \/ Occurence.next x <> Occurence.next y ->
                 exists e, In e (p2_set st') /\
                           Occurence.body e = Occurence.body x /\
                           Occurence.isBifurcation e = true).
Proof.
  destruct (trace_inv_worker dir round fs queue
              {| p2_set := []; p2_error := None |} [] trace_inv_nil)
    as [st' [E (D & A & Hev)]].
  exists st'. split; [exact E|]. cbn [app] in A, Hev.
  split; [exact D|]. split.
  - intros b. rewrite !in_map_iff. split.
    + intros (e & <- & He).
      destruct (Hev e He) as (i & x & Hi & Hb & _).
      exists x. split; [exact Hb|].
      apply list_elem_of_In, list_elem_of_lookup. eauto.
    + intros (x & <- & Hx). destruct (A x Hx) as (e & He & Hb & _).
      exists e. auto.
  - intros x y Hx Hy Hb Hdiff.
    apply (accounts_for_two (p2_set st') x y D (A x Hx) (A y Hy) Hb Hdiff).
Qed.

End Pass2Evidence.

(** ** The emission pass: masks of all rounds, entries at the record ends *)

Section MergedMasks.

Context {F : Type} `{CuckooFilterLaws F}.
Variable TASK_SIZE : nat.
Variable readFromFile : string -> bool -> gmap string F -> string + F.

Lemma copy_fold_mono (tempFilter : F) (ps : list nat) :
  forall (c : F) (x : Z),
    Contain x c = true ->
    Contain x (fold_left (fun c pos => if Contain (Z.of_nat pos) tempFilter
                                       then Add (Z.of_nat pos) c else c)
                 ps c) = true.
Proof.
  induction ps as [|p ps IH]; intros c x Hx; cbn [fold_left]; [exact Hx|].
  apply IH. destruct (Contain (Z.of_nat p) tempFilter); [|exact Hx].
  now apply Contain_Add_mono.
Qed.

Lemma copy_fold_adds (tempFilter : F) (ps : list nat) :
  forall (c : F) (p : nat),
    In p ps -> Contain (Z.of_nat p) tempFilter = true ->
    Contain (Z.of_nat p)
      (fold_left (fun c pos => if Contain (Z.of_nat pos) tempFilter
                               then Add (Z.of_nat pos) c else c)
         ps c) = true.
Proof.
  induction ps as [|q ps IH]; intros c p Hin Hp; [destruct Hin|].
  cbn [fold_left]. destruct Hin as [->|Hin]; [|now apply IH].
  rewrite Hp. apply copy_fold_mono. apply Contain_Add.
Qed.

Lemma union_masks_merges (dir : string) (task : Task) (fs : gmap string F)
    (masks : Z -> F) (n : nat) :
  forall (first : Z) (f : F),
    (forall j, (j < n)%nat ->
       readFromFile
         (CandidateMaskFileName dir (seqId task) (start task)
            (first + Z.of_nat j)) true fs = inr (masks (first + Z.of_nat j))) ->
    exists f',
      union_masks readFromFile n first dir task fs f = (f', None) /\
      (forall x, Contain x f = true -> Contain x f' = true) /\
      (forall j p, (j < n)%nat -> (p < length (str task))%nat ->
         Contain (Z.of_nat p) (masks (first + Z.of_nat j)) = true ->
         Contain (Z.of_nat p) f' = true).
Proof.
  induction n as [|n IH]; intros first f Hread; cbn [union_masks].
  - exists f. split; [reflexivity|]. split; [auto|]. intros j p Hj. lia.
  - pose proof (Hread 0%nat ltac:(lia)) as Hfirst.
    rewrite Z.add_0_r in Hfirst. rewrite Hfirst.
    destruct (IH (first + 1)
                (copy_positions (length (str task)) (masks first) f))
      as (f' & E & M & A).
    { intros j Hj. replace (first + 1 + Z.of_nat j)
        with (first + Z.of_nat (S j)) by lia. apply Hread. lia. }
    exists f'. split; [exact E|]. split.
    + intros x Hx. apply M. unfold copy_positions. now apply copy_fold_mono.
    + intros j p Hj Hp Hc. destruct j as [|j].
      * apply M. rewrite Z.add_0_r in Hc. unfold copy_positions.
        apply copy_fold_adds; [|exact Hc]. apply in_seq. lia.
      * replace (first + Z.of_nat (S j)) with (first + 1 + Z.of_nat j) in Hc
          by lia.
        apply (A j p); [lia | exact Hp | exact Hc].
Qed.

(** X14.  In the emission pass the candidate mask of a task is the union
    of its masks of all rounds: when the mask file of every round is
    read, a position of the task that the mask of some round contains is
    contained in the merged mask, and no error is reported (for a filter
    with room for what is added to it). *)
Theorem masks_of_all_rounds_merged (totalRounds : nat) (dir : string)
    (task : Task) (fs : gmap string F) (masks : Z -> F)
    (error : option string) :
  (forall j, (j < totalRounds)%nat ->
     readFromFile
       (CandidateMaskFileName dir (seqId task) (start task) (Z.of_nat j))
       true fs = inr (masks (Z.of_nat j))) ->
  exists f,
    load_masks TASK_SIZE readFromFile totalRounds dir task fs error
    = (f, error) /\
    forall j p, (j < totalRounds)%nat -> (p < length (str task))%nat ->
      Contain (Z.of_nat p) (masks (Z.of_nat j)) = true ->
      Contain (Z.of_nat p) f = true.
Proof.
  intros Hread.
  destruct (union_masks_merges dir task fs masks totalRounds 0
              (cf_new TASK_SIZE)) as (f & E & _ & A).
  { intros j Hj. rewrite Z.add_0_l. now apply Hread. }
  exists f. unfold load_masks. rewrite E. split; [reflexivity|].
  intros j p Hj Hp Hc. apply (A j p Hj Hp). now rewrite Z.add_0_l.
Qed.

End MergedMasks.

Lemma masks_of_all_rounds_merged_witness :
  let task := mkTask 0 0 0 true (dna "NACGTN") in
  let fs : gmap string (gset Z) :=
    <[CandidateMaskFileName "tmp" 0 0 0 := {[ 1 ]}]>
      (<[CandidateMaskFileName "tmp" 0 0 1 := {[ 2 ]}]> ∅) in
  exists f : gset Z,
    load_masks 16 read_stored 2 "tmp" task fs None = (f, None) /\
    forall j p, (j < 2)%nat -> (p < 6)%nat ->
      Contain (Z.of_nat p)
        ((fun r => if r =? 0 then {[ 1 ]} else {[ 2 ]} : gset Z) (Z.of_nat j)) = true ->
      Contain (Z.of_nat p) f = true.
Proof.
  intros task fs.
  apply (masks_of_all_rounds_merged (F := gset Z) 16 read_stored 2 "tmp" task fs
           (fun r => if r =? 0 then {[ 1 ]} else {[ 2 ]}) None).
  intros j Hj. destruct j as [|[|j]]; [reflexivity | reflexivity | lia].
Defined.

Section RecordEnds.

Context {F : Type} `{CuckooFilter F}.
Variable GetId : list ascii -> Z.
Variable INVALID_VERTEX : Z.
Variable k : nat.
Variable task : Task.
Variable candidateFilter : F.

Local Abbreviation here pos :=
  (JunctionPosition_ (seqId task) (u64 (start task + Z.of_nat pos - 1))).

Local Abbreviation at_end pos :=
  (((start task =? 0) && (pos =? 1)%nat)
   || (isFinal task && (pos =? length (str task) - k - 1)%nat)).

(** One turn of the position loop adds at most one entry, and adds one
    when the window is the first or the last of a record. *)
Lemma EdgeConstruction_body_one (pos : nat) (dc : Z)
    (js : list JunctionPosition) (occ stub : Z) :
  exists extra occ' stub',
    EdgeConstruction_body GetId INVALID_VERTEX k task candidateFilter pos dc
      (js, occ, stub) = (js ++ extra, occ', stub') /\
    (extra = [] \/ exists id, extra = [here pos id]) /\
    (at_end pos = true -> exists id, extra = [here pos id]).
Proof.
  unfold EdgeConstruction_body.
  destruct ((dc =? Z.of_nat k) && Contain (Z.of_nat pos) candidateFilter).
  - destruct (GetId (StdString.substr (str task) pos k) =? INVALID_VERTEX) eqn:E;
      cbn [negb].
    + rewrite E. destruct (at_end pos); cbn [andb].
      * eexists [_], _, _. split; [reflexivity|]. split; eauto.
      * exists [], occ, stub. rewrite app_nil_r. split; [reflexivity|].
        split; [now left | discriminate].
    + rewrite E, andb_false_r.
      eexists [_], _, _. split; [reflexivity|]. split; eauto.
  - rewrite Z.eqb_refl. destruct (at_end pos); cbn [andb].
    + eexists [_], _, _. split; [reflexivity|]. split; eauto.
    + exists [], occ, stub. rewrite app_nil_r. split; [reflexivity|].
      split; [now left | discriminate].
Qed.

Lemma EdgeConstruction_loop_appends :
  forall (d pos fuel : nat) (dc : Z) (js : list JunctionPosition) (occ stub : Z),
    (pos + k + 1 + d = length (str task))%nat -> (d < fuel)%nat ->
    exists more occ' stub',
      EdgeConstruction_loop GetId INVALID_VERTEX fuel k task candidateFilter
        pos dc (js, occ, stub) = Some (js ++ more, occ', stub') /\
      (at_end pos = true -> exists id rest, more = here pos id :: rest) /\
      (isFinal task = true ->
       exists id pre, more = pre ++ [here (pos + d) id]).
Proof.
  induction d as [|d IH]; intros pos fuel dc js occ stub Hlen Hfuel;
    (destruct fuel as [|fuel]; [lia|]); cbn [EdgeConstruction_loop];
    destruct (EdgeConstruction_body_one pos dc js occ stub)
      as (extra & occ1 & stub1 & E & Hone & Hend); rewrite E.
  - replace (pos + (k + 1) <? length (str task))%nat with false
      by (symmetry; apply Nat.ltb_ge; lia).
    exists extra, occ1, stub1. split; [reflexivity|]. split.
    + intros He. destruct (Hend He) as [id ->]. eauto.
    + intros Hfin. destruct Hend as [id ->].
      * rewrite Hfin. cbn [andb].
        replace (pos =? length (str task) - k - 1)%nat with true
          by (symmetry; apply Nat.eqb_eq; lia).
        apply orb_true_r.
      * exists id, []. now rewrite Nat.add_0_r.
  - replace (pos + (k + 1) <? length (str task))%nat with true
      by (symmetry; apply Nat.ltb_lt; lia).
    destruct (IH (S pos) fuel
                (next_definiteCount k (str task) pos dc) (js ++ extra) occ1 stub1)
      as (more & occ' & stub' & E' & _ & Hlast); [lia | lia |].
    rewrite E'. exists (extra ++ more), occ', stub'.
    split; [now rewrite app_assoc|]. split.
    + intros He. destruct (Hend He) as [id ->]. eauto.
    + intros Hfin. destruct (Hlast Hfin) as (id & pre & ->).
      exists id, (extra ++ pre).
      replace (pos + S d)%nat with (S pos + d)%nat by lia.
      now rewrite app_assoc.
Qed.

Lemma EdgeConstruction_task_ends (occurences stub : Z) :
  (k + 2 <= length (str task))%nat ->
  exists r occurences' stub',
    EdgeConstruction_task GetId INVALID_VERTEX k task candidateFilter
      occurences stub = Some (r, occurences', stub') /\
    (start task = 0 ->
     exists id rest, junction r = JunctionPosition_ (seqId task) 0 id :: rest) /\
    (isFinal task = true ->
     exists id pre,
       junction r =
       pre ++ [JunctionPosition_ (seqId task)
                 (u64 (start task + Z.of_nat (length (str task) - k - 1) - 1))
                 id]).
Proof.
  intros Hlen. unfold EdgeConstruction_task.
  destruct (EdgeConstruction_loop_appends (length (str task) - k - 2) 1
              (length (str task))
              (count_definite (StdString.substr (str task) 1 k))
              [] occurences stub) as (more & occ' & stub' & E & Hfirst & Hlast);
    [lia | lia |].
  rewrite E. cbn [app]. eexists _, _, _. split; [reflexivity|].
  cbn [pieceId junction]. split.
  - intros Hs. destruct Hfirst as (id & rest & ->).
    + rewrite Hs. reflexivity.
    + exists id, rest. rewrite Hs. reflexivity.
  - intros Hfin. destruct (Hlast Hfin) as (id & pre & ->).
    exists id, pre.
    now replace (1 + (length (str task) - k - 2))%nat
      with (length (str task) - k - 1)%nat by lia.
Qed.

Hypothesis k_fits : Z.of_nat k < 2 ^ 64.

Local Abbreviation entry :=
  (entry_at GetId INVALID_VERTEX k task candidateFilter).
Local Abbreviation entries :=
  (entries_from GetId INVALID_VERTEX k task candidateFilter).

Lemma entry_at_length (pos : nat) (stub : Z) :
  (length (fst (entry pos stub)) <= 1)%nat.
Proof.
  unfold entry_at.
  destruct (junction_here GetId INVALID_VERTEX k task candidateFilter pos);
    [cbn; lia|].
  destruct (record_end k task pos); cbn; lia.
Qed.

(** One turn of the position loop, with [definiteCount] the number of
    definite characters of the window, adds the entries of the window. *)
Lemma EdgeConstruction_body_entry (pos : nat) (js : list JunctionPosition)
    (occ stub : Z) :
  (pos + k <= length (str task))%nat ->
  EdgeConstruction_body GetId INVALID_VERTEX k task candidateFilter pos
    (count_definite (StdString.substr (str task) pos k)) (js, occ, stub)
  = (js ++ fst (entry pos stub),
     match fst (entry pos stub) with [] => occ | _ => u64 (occ + 1) end,
     snd (entry pos stub)).
Proof.
  intros Hpos.
  unfold EdgeConstruction_body, entry_at, junction_here, record_end.
  rewrite window_test by exact Hpos.
  destruct (definiteb (StdString.substr (str task) pos k)); cbn [andb];
    destruct (Contain (Z.of_nat pos) candidateFilter); cbn [andb];
    destruct (GetId (StdString.substr (str task) pos k) =? INVALID_VERTEX) eqn:E;
    cbn [negb andb]; rewrite ?E, ?Z.eqb_refl, ?andb_false_r, ?andb_true_r;
    destruct (at_end pos); cbn [fst snd andb]; rewrite ?app_nil_r;
    reflexivity.
Qed.

Lemma EdgeConstruction_loop_entries :
  forall (d pos fuel : nat) (js : list JunctionPosition) (occ stub : Z),
    (pos + k + 1 + d = length (str task))%nat -> (d < fuel)%nat ->
    0 <= occ < 2 ^ 64 ->
    EdgeConstruction_loop GetId INVALID_VERTEX fuel k task candidateFilter pos
      (count_definite (StdString.substr (str task) pos k)) (js, occ, stub)
    = Some (js ++ fst (entries (seq pos (S d)) stub),
            u64 (occ + Z.of_nat (length (fst (entries (seq pos (S d)) stub)))),
            snd (entries (seq pos (S d)) stub)).
Proof.
  induction d as [|d IH]; intros pos fuel js occ stub Hlen Hfuel Hocc;
    (destruct fuel as [|fuel]; [lia|]); cbn [EdgeConstruction_loop];
    rewrite EdgeConstruction_body_entry by lia;
    pose proof (entry_at_length pos stub) as Hone.
  - replace (pos + (k + 1) <? length (str task))%nat with false
      by (symmetry; apply Nat.ltb_ge; lia).
    cbn [seq entries_from].
    destruct (entry pos stub) as [e s1]. cbn [fst snd] in *.
    rewrite app_nil_r. f_equal. f_equal. f_equal.
    destruct e as [|x [|y e]]; cbn [length] in *; [|reflexivity|lia].
    rewrite Z.add_0_r. symmetry. now apply u64_id.
  - replace (pos + (k + 1) <? length (str task))%nat with true
      by (symmetry; apply Nat.ltb_lt; lia).
    unfold next_definiteCount. rewrite <- count_definite_slide by lia.
    rewrite u64_id.
    2:{ pose proof (count_definite_bounds
                      (StdString.substr (str task) (S pos) k)) as B.
        rewrite substr_length in B by lia. lia. }
    change (seq pos (S (S d))) with (pos :: seq (S pos) (S d)).
    cbn [entries_from].
    destruct (entry pos stub) as [e s1]. cbn [fst snd] in *.
    rewrite IH; [|lia|lia|].
    + destruct (entries (seq (S pos) (S d)) s1) as [es s2]. cbn [fst snd].
      rewrite <- app_assoc, length_app. f_equal. f_equal. f_equal.
      destruct e as [|x [|y e]]; cbn [length] in *; [f_equal; lia| |lia].
      rewrite u64_add_l. f_equal. lia.
    + destruct e; [exact Hocc|]. unfold u64. apply Z.mod_pos_bound. lia.
Qed.

(** X15.  The result of a task is one entry per window that calls for
    one, in the order of the positions: the junction, with the id of the
    k-mer, where the window is definite, the merged mask contains the
    position and the k-mer has an id; otherwise a stub, with the current
    value of the stub counter, where the window is the first of a record
    or the last of one; nothing elsewhere.  [occurences] grows by the
    number of entries.  So the result of a task that starts a record
    begins with an entry at position 0, and the result of a final task
    ends with an entry at the position of the last window. *)
Theorem task_result_entries (occurences stub : Z) :
  (k + 2 <= length (str task))%nat -> 0 <= occurences < 2 ^ 64 ->
  let es :=
    fst (task_entries GetId INVALID_VERTEX k task candidateFilter stub) in
  EdgeConstruction_task GetId INVALID_VERTEX k task candidateFilter
    occurences stub
  = Some (mkEdgeResult (u32 (piece task)) es,
          u64 (occurences + Z.of_nat (length es)),
          snd (task_entries GetId INVALID_VERTEX k task candidateFilter stub)) /\
  (start task = 0 ->
   exists id rest, es = JunctionPosition_ (seqId task) 0 id :: rest) /\
  (isFinal task = true ->
   exists id pre,
     es = pre ++ [JunctionPosition_ (seqId task)
                    (u64 (start task + Z.of_nat (length (str task) - k - 1) - 1))
                    id]).
Proof.
  intros Hlen Hocc es.
  assert (E : EdgeConstruction_task GetId INVALID_VERTEX k task candidateFilter
                occurences stub
              = Some (mkEdgeResult (u32 (piece task)) es,
                      u64 (occurences + Z.of_nat (length es)),
                      snd (task_entries GetId INVALID_VERTEX k task
                             candidateFilter stub))).
  { unfold EdgeConstruction_task.
    rewrite (EdgeConstruction_loop_entries (length (str task) - k - 2) 1
               (length (str task)) [] occurences stub) by lia.
    unfold es, task_entries.
    replace (S (length (str task) - k - 2)) with (length (str task) - k - 1)%nat
      by lia.
    reflexivity. }
  split; [exact E|].
  destruct (EdgeConstruction_task_ends occurences stub Hlen)
    as (r & occ' & stub' & E' & Hfirst & Hlast).
  rewrite E in E'. injection E' as <- _ _. cbn [junction] in Hfirst, Hlast.
  auto.
Qed.

End RecordEnds.

Lemma task_result_entries_witness :
  let task := mkTask 0 0 0 true (dna "NACGTAN") in
  EdgeConstruction_task (F := gset Z) (fun _ => 7) (-1) 3 task {[ 2 ]} 0 47
  = Some (mkEdgeResult 0
            [ {| chr_ := 0; pos_ := 0; bifId_ := 47 |};
              {| chr_ := 0; pos_ := 1; bifId_ := 7 |};
              {| chr_ := 0; pos_ := 2; bifId_ := 48 |} ], 3, 49).
Proof.
  intros task.
  rewrite (proj1 (task_result_entries (F := gset Z) (fun _ => 7) (-1) 3 task
                    {[ 2 ]} ltac:(lia) 0 47 ltac:(cbn; lia) ltac:(lia))).
  vm_compute. reflexivity.
Defined.

(** ** The emission stage comes to an end *)

Section ProgressFacts.

Context {F : Type} `{CuckooFilter F}.
Variable TASK_SIZE : nat.
Variable readFromFile : string -> bool -> gmap string F -> string + F.
Variable GetId : list ascii -> Z.
Variable INVALID_VERTEX : Z.
Variable k : nat.
Variable totalRounds : nat.
Variable tmpDirectory : string.
Variable fs : gmap string F.

Local Abbreviation worker_step :=
  (worker_step TASK_SIZE readFromFile GetId INVALID_VERTEX k totalRounds
     tmpDirectory fs).
Local Abbreviation step :=
  (step TASK_SIZE readFromFile GetId INVALID_VERTEX k totalRounds
     tmpDirectory fs).

(** *** The measure *)

Lemma worker_step_weight (w w' : @Worker F) (sh sh' : Shared) :
  worker_step w sh w' sh' -> (worker_weight w' < worker_weight w)%nat.
Proof.
  intros Hstep. inversion Hstep; subst; unfold worker_weight;
    cbn [w_queue w_result w_phase phase_weight map list_sum fold_right length];
    rewrite ?length_app; cbn [length]; try lia.
  match goal with
  | HF : FlushEdgeResults _ _ _ = _ |- _ => rename HF into Hflush
  end.
  unfold FlushEdgeResults in Hflush.
  destruct result as [|front rest]; [discriminate Hflush|].
  destruct (pieceId front =? e_currentPiece sh); [|discriminate Hflush].
  injection Hflush as <- _ _. cbn [length]. lia.
Qed.

Lemma list_sum_insert (f : @Worker F -> nat) (ws : list (@Worker F))
    (i : nat) (w w' : @Worker F) :
  ws !! i = Some w -> (f w' < f w)%nat ->
  (list_sum (map f (<[i := w']> ws)) < list_sum (map f ws))%nat.
Proof.
  revert i. induction ws as [|x ws IH]; intros [|i] Hi Hlt; cbn in Hi;
    try discriminate.
  - injection Hi as ->. change (<[0%nat:=w']> (w :: ws)) with (w' :: ws).
    simpl. lia.
  - change (<[S i:=w']> (x :: ws)) with (x :: <[i:=w']> ws).
    specialize (IH i Hi Hlt). simpl. lia.
Qed.

Lemma step_weight (st st' : @State F) :
  step st st' -> (state_weight st' < state_weight st)%nat.
Proof.
  intros Hstep. inversion Hstep as [i ws sh w w' sh' Hi Hw]; subst.
  unfold state_weight. cbn [fst].
  apply (list_sum_insert worker_weight ws i w w' Hi).
  eapply worker_step_weight; eauto.
Qed.

(** X16.  The emission stage cannot run forever: every step of a worker
    (taking a task, a turn of the position loop, a flush that succeeds,
    leaving) lowers a bound on the work left, so a run from a state takes
    at most as many steps as the bound of that state, which is the number
    of characters queued plus a constant per task and worker. *)
Theorem emission_steps_bounded (n : nat) (st st' : @State F) :
  nsteps step n st st' -> (n + state_weight st' <= state_weight st)%nat.
Proof.
  induction 1 as [|n x y z Hxy _ IH]; [lia|].
  pose proof (step_weight x y Hxy). lia.
Qed.

(** *** The invariant *)



Variable n : nat.
Hypothesis pieces_fit : Z.of_nat n < 2 ^ 32.


(** *** Some worker can move *)





(** *** The initial state *)

Variable ts : list Task.
Hypothesis tasks_n : length ts = n.
Hypothesis pieces_in_order :
  forall (j : nat) (t : Task), ts !! j = Some t -> piece t = Z.of_nat j.
Hypothesis sizes : Forall (fun t => (k + 2 <= length (str t))%nat) ts.




End ProgressFacts.

Section EmissionEnds.

Context {F : Type} `{CuckooFilter F}.
Variable TASK_SIZE : nat.
Variable readFromFile : string -> bool -> gmap string F -> string + F.
Variable GetId : list ascii -> Z.
Variable INVALID_VERTEX : Z.
Variable k : nat.
Variable totalRounds : nat.
Variable tmpDirectory : string.
Variable fs : gmap string F.
Variable records : list (list ascii).

Local Abbreviation ts := (DistributeTasks TASK_SIZE (k + 1) records).
Local Abbreviation step :=
  (step TASK_SIZE readFromFile GetId INVALID_VERTEX k totalRounds
     tmpDirectory fs).

Hypothesis size_fits : (k + 2 <= TASK_SIZE)%nat.
Hypothesis records_fit : Z.of_nat (length records) < 2 ^ 64.
Hypothesis lengths_fit :
  Forall (fun r => Z.of_nat (length r) < 2 ^ 64) records.
Hypothesis pieces_fit : Z.of_nat (length ts) < 2 ^ 32.

(** The queues hold every task once, each queue in the order in which
    the tasks were pushed. *)
Variable queues : list (list Task).
Hypothesis queues_hold : concat queues ≡ₚ ts.
Hypothesis queues_in_order :
  Forall (StronglySorted (fun a b => piece a < piece b)) queues.

Variable V : Z.
Variable error : option string.




End EmissionEnds.

(** ** The initial pass, short records, the counters of a round *)

Section InitialPassFacts.

Context {F : Type} `{CuckooFilterLaws F}.
Variable shl_wide : Z -> Z -> Z.
Variable k : nat.

Local Abbreviation key s pos :=
  (getCanonicalVal shl_wide (StdString.substr s pos (k + 1))).

Lemma initial_fold_mono (s : list ascii) (ps : list nat) :
  forall (f : F) (x : Z),
    Contain x f = true ->
    Contain x (fold_left (fun f pos => Add (key s pos) f) ps f) = true.
Proof.
  induction ps as [|p ps IH]; intros f x Hx; cbn [fold_left]; [exact Hx|].
  apply IH. now apply Contain_Add_mono.
Qed.

Lemma initial_fold_adds (s : list ascii) (ps : list nat) :
  forall (f : F) (p : nat),
    In p ps ->
    Contain (key s p) (fold_left (fun f pos => Add (key s pos) f) ps f) = true.
Proof.
  induction ps as [|q ps IH]; intros f p Hin; [destruct Hin|].
  cbn [fold_left]. destruct Hin as [->|Hin]; [|now apply IH].
  apply initial_fold_mono. apply Contain_Add.
Qed.

Lemma InitialFilterFiller_task_mono (t : Task) (f : F) (x : Z) :
  Contain x f = true ->
  Contain x (InitialFilterFiller_task shl_wide k t f) = true.
Proof.
  intros Hx. unfold InitialFilterFiller_task.
  destruct (length (str t) <? k + 1)%nat; [exact Hx|].
  now apply initial_fold_mono.
Qed.

(** X19.  The pass that precedes the rounds adds the key of every window
    of [k + 1] characters of every task to its filter, the windows that
    hold an [N] included: unlike pass 1a it does not look at the
    characters. *)
Theorem initial_pass_adds_every_window (queue : list Task) (f : F)
    (t : Task) (p : nat) :
  In t queue -> (p + k + 1 <= length (str t))%nat ->
  Contain (key (str t) p) (InitialFilterFillerWorker shl_wide k queue f) = true.
Proof.
  revert f. unfold InitialFilterFillerWorker.
  induction queue as [|t0 queue IH]; intros f Hin Hp; [destruct Hin|].
  cbn [fold_left]. destruct Hin as [->|Hin]; [|now apply IH].
  assert (Ht : Contain (key (str t) p)
                 (InitialFilterFiller_task shl_wide k t f) = true).
  { unfold InitialFilterFiller_task.
    replace (length (str t) <? k + 1)%nat with false
      by (symmetry; apply Nat.ltb_ge; lia).
    apply initial_fold_adds. apply in_seq. lia. }
  clear IH. revert Ht.
  generalize (InitialFilterFiller_task shl_wide k t f).
  induction queue as [|t1 queue IH]; intros g Hg; cbn [fold_left]; [exact Hg|].
  apply IH. now apply InitialFilterFiller_task_mono.
Qed.

End InitialPassFacts.

Lemma initial_pass_adds_every_window_witness :
  Contain (getCanonicalVal shl_masked (dna "GNA"))
    (InitialFilterFillerWorker (F := gset Z) shl_masked 2
       [mkTask 0 0 0 true (dna "NACGNAN")] ∅) = true.
Proof.
  apply (initial_pass_adds_every_window (F := gset Z) shl_masked 2
           [mkTask 0 0 0 true (dna "NACGNAN")] ∅
           (mkTask 0 0 0 true (dna "NACGNAN")) 3).
  - left. reflexivity.
  - cbn. lia.
Defined.

Section ShortRecords.

Variable TASK_SIZE : nat.
Variable k : nat.
Hypothesis size_fits : (k + 2 <= TASK_SIZE)%nat.

(** X20.  A record of fewer than [k] bases yields no task and uses no
    piece number, but it is counted: the records after it keep the
    sequence numbers of their places in the input. *)
Theorem short_record_skipped (r : list ascii) (rs : list (list ascii))
    (record pieceCount : Z) :
  (length r < k)%nat ->
  DistributeRecords TASK_SIZE (k + 1) (r :: rs) record pieceCount =
  DistributeRecords TASK_SIZE (k + 1) rs (u64 (record + 1)) pieceCount.
Proof.
  intros Hr. cbn [DistributeRecords].
  rewrite (DistributeRecord_short TASK_SIZE (k + 1) record r 0 0 ["N"%char]
             pieceCount) by (cbn [length]; lia).
  cbn [length].
  replace (k + 1 <=? 1 + length r)%nat with false
    by (symmetry; apply Nat.leb_gt; lia).
  reflexivity.
Qed.

End ShortRecords.

Lemma short_record_skipped_witness :
  DistributeRecords 16 (3 + 1) [dna "AC"; dna "ACGT"] 0 0 =
  [mkTask 1 0 0 true (dna "NACGTN")].
Proof.
  rewrite (short_record_skipped 16 3 ltac:(lia) (dna "AC") [dna "ACGT"] 0 0)
    by (cbn; lia).
  vm_compute. reflexivity.
Defined.

Section RoundCounters.

Context {F : Type} `{CuckooFilterLaws F}.
Variable shl_wide : Z -> Z -> Z.
Variable TASK_SIZE : nat.
Variable cFilter : F.
Variable k : nat.
Hypothesis k_fits : Z.of_nat k < 2 ^ 64.
Variable dir : string.
Variable round : Z.

Local Abbreviation name t :=
  (CandidateMaskFileName dir (seqId t) (start t) round).

Lemma marked_positions_short (s : list ascii) :
  (length s < k + 2)%nat -> marked_positions shl_wide cFilter k s = [].
Proof.
  intros Hs. unfold marked_positions.
  replace (length s - k - 1)%nat with 0%nat by lia. reflexivity.
Qed.

Lemma CandidateChecking_task_any (t : Task) (st : Pass1bState) :
  0 <= p1_marks st < 2 ^ 64 ->
  exists st',
    CandidateChecking_task shl_wide TASK_SIZE cFilter k dir round t st = Some st' /\
    p1_marks st' =
      u64 (p1_marks st
           + Z.of_nat (length (marked_positions shl_wide cFilter k (str t)))) /\
    (forall path, path <> name t -> p1_fs st' !! path = p1_fs st !! path).
Proof.
  intros Hm.
  destruct (le_lt_dec (k + 2) (length (str t))) as [Hlen|Hlen].
  - rewrite (CandidateChecking_task_spec shl_wide TASK_SIZE cFilter k dir round
               t st k_fits Hlen Hm).
    eexists. split; [reflexivity|]. cbn [p1_marks p1_fs].
    split; [reflexivity|]. intros path Hpath.
    case_bool_decide; [reflexivity|].
    now rewrite lookup_insert_ne.
  - exists st. split.
    + unfold CandidateChecking_task.
      destruct (length (str t) <? k)%nat; [reflexivity|].
      replace (k + 2 <=? length (str t))%nat with false
        by (symmetry; apply Nat.leb_gt; lia).
      reflexivity.
    + rewrite marked_positions_short by exact Hlen. cbn [length].
      rewrite Z.add_0_r, u64_id by exact Hm. auto.
Qed.

(** X21.  Pass 1b counts one mark per recorded position: after a worker
    has gone through its queue the counter has grown by the number of
    positions marked in its tasks (modulo [2^64]), and the worker has
    touched no file other than the mask files of its own tasks. *)
Theorem marks_counted (queue : list Task) :
  forall st : Pass1bState,
    0 <= p1_marks st < 2 ^ 64 ->
    exists st',
      CandidateCheckingWorker shl_wide TASK_SIZE cFilter k dir round queue st
      = Some st' /\
      p1_marks st' =
        u64 (p1_marks st + Z.of_nat (queue_marks shl_wide cFilter k queue)) /\
      (forall path, (forall t, In t queue -> path <> name t) ->
                    p1_fs st' !! path = p1_fs st !! path).
Proof.
  induction queue as [|t queue IH]; intros st Hm.
  - exists st. split; [reflexivity|]. unfold queue_marks. cbn [map list_sum].
    rewrite Z.add_0_r, u64_id by exact Hm. auto.
  - cbn [CandidateCheckingWorker].
    destruct (CandidateChecking_task_any t st Hm) as (st1 & E1 & M1 & F1).
    rewrite E1.
    destruct (IH st1) as (st' & E' & M' & F').
    { rewrite M1. unfold u64. apply Z.mod_pos_bound. lia. }
    exists st'. split; [exact E'|]. split.
    + rewrite M', M1, u64_add_l. unfold queue_marks. cbn [map list_sum].
      f_equal. change (list_sum (?a :: ?l)) with (a + list_sum l)%nat.
      rewrite Nat2Z.inj_add. lia.
    + intros path Hpath. rewrite F', F1; [reflexivity | |].
      * apply Hpath. now left.
      * intros t' Ht'. apply Hpath. now right.
Qed.

End RoundCounters.

Lemma marks_counted_witness :
  exists st',
    CandidateCheckingWorker (F := gset Z) shl_masked 16 ∅ 3 "tmp" 0
      [mkTask 0 0 0 true (dna "NACGTN")]
      {| p1_fs := ∅; p1_error := None; p1_marks := 0 |} = Some st' /\
    p1_marks st' =
      u64 (0 + Z.of_nat (queue_marks (F := gset Z) shl_masked ∅ 3
                           [mkTask 0 0 0 true (dna "NACGTN")])) /\
    (forall path,
        (forall t, In t [mkTask 0 0 0 true (dna "NACGTN")] ->
                   path <> CandidateMaskFileName "tmp" (seqId t) (start t) 0) ->
        p1_fs st' !! path = (∅ : gmap string (gset Z)) !! path).
Proof.
  apply (marks_counted (F := gset Z) shl_masked 16 ∅ 3 ltac:(lia) "tmp" 0
           [mkTask 0 0 0 true (dna "NACGTN")]
           {| p1_fs := ∅; p1_error := None; p1_marks := 0 |}).
  cbn. lia.
Defined.

(** X22.  [TrueBifurcations] sorts the elements of the occurrence set into
    two counts that add up to the size of the set, and writes one k-mer per
    true positive (for a set of fewer than [2^64] elements). *)
Theorem true_and_false_positives (it : list Occurence.t) (out : list (list Z)) :
  Z.of_nat (length it) < 2 ^ 64 ->
  exists out' truePositives falsePositives,
    TrueBifurcations it out = (out', truePositives, falsePositives) /\
    truePositives + falsePositives = Z.of_nat (length it) /\
    Z.of_nat (length out') = Z.of_nat (length out) + truePositives /\
    0 <= truePositives /\ 0 <= falsePositives.
Proof.
  intros Hlen. unfold TrueBifurcations.
  rewrite TrueBifurcations_loop_spec by lia.
  eexists _, _, _. split; [reflexivity|].
  assert (Hsplit : (length (filter (fun o => Occurence.IsBifurcation o = true) it)
                    + length (filter (fun o => Occurence.IsBifurcation o = false) it)
                    = length it)%nat).
  { clear. induction it as [|o it IH]; [reflexivity|].
    rewrite !filter_cons. destruct (Occurence.IsBifurcation o) eqn:E.
    - rewrite decide_True by reflexivity. rewrite decide_False by discriminate.
      cbn [length]. lia.
    - rewrite decide_False by discriminate. rewrite decide_True by reflexivity.
      cbn [length]. lia. }
  rewrite !Z.add_0_l, !u64_id by lia.
  rewrite length_app, length_map. lia.
Qed.

Lemma true_and_false_positives_witness :
  exists out' truePositives falsePositives,
    TrueBifurcations
      [Occurence.mk [0; 1] 0 0 "A" "C" true; Occurence.mk [1; 1] 0 0 "A" "C" false]
      [] = (out', truePositives, falsePositives) /\
    truePositives + falsePositives = 2 /\
    Z.of_nat (length out') = 0 + truePositives /\
    0 <= truePositives /\ 0 <= falsePositives.
Proof.
  apply (true_and_false_positives
           [Occurence.mk [0; 1] 0 0 "A" "C" true;
            Occurence.mk [1; 1] 0 0 "A" "C" false] []).
  cbn. lia.
Defined.

(** ** What a k-mer in the stream of a round stands for *)

Lemma codes_inj (a : list ascii) :
  forall b, definite a -> definite b ->
    Occurence.codes a = Occurence.codes b -> a = b.
Proof.
  unfold Occurence.codes.
  induction a as [|c a IH]; intros [|d b] Da Db E; try discriminate E;
    [reflexivity|].
  apply definite_cons in Da as [Hc Da]. apply definite_cons in Db as [Hd Db].
  cbn [map] in E. injection E as E1 E2.
  f_equal; [now apply MakeUpChar_inj | now apply IH].
Qed.

Lemma canonical_idempotent (w : list ascii) :
  definite w -> canonical (canonical w) = canonical w.
Proof.
  intros D. rewrite (canonical_cases w).
  destruct (StdString.compare w (DnaChar.ReverseCompliment w)) eqn:E;
    try (rewrite (canonical_cases w), E; reflexivity).
  rewrite (canonical_ReverseCompliment w D), (canonical_cases w), E. reflexivity.
Qed.

Lemma substr_occurs (P : list ascii) (a n : nat) :
  (a + n <= length P)%nat -> occurs_in (StdString.substr P a n) P.
Proof.
  intros Hb. exists (take a P), (drop (a + n) P). unfold StdString.substr.
  rewrite <- (take_drop a P) at 1. f_equal.
  rewrite <- (take_drop n (drop a P)) at 1. f_equal.
  rewrite drop_drop. reflexivity.
Qed.

Section MaskFiles.

Context {F : Type} `{CuckooFilterLaws F}.
Variable shl_wide : Z -> Z -> Z.
Variable TASK_SIZE : nat.
Variable cFilter : F.
Variable k : nat.
Hypothesis k_fits : Z.of_nat k < 2 ^ 64.
Variable dir : string.
Variable round : Z.

Local Abbreviation name t :=
  (CandidateMaskFileName dir (seqId t) (start t) round).
Local Abbreviation mask t :=
  (record_positions TASK_SIZE (marked_positions shl_wide cFilter k (str t))).

(** A file present after pass 1b was there before or is the mask of a
    task of the queue. *)
Lemma CandidateCheckingWorker_files (queue : list Task) :
  forall st : Pass1bState,
    0 <= p1_marks st < 2 ^ 64 ->
    exists st',
      CandidateCheckingWorker shl_wide TASK_SIZE cFilter k dir round queue st
      = Some st' /\
      forall path m, p1_fs st' !! path = Some m ->
        p1_fs st !! path = Some m
        \/ exists t, In t queue /\ path = name t /\ m = mask t.
Proof.
  induction queue as [|t queue IH]; intros st Hm.
  - exists st. split; [reflexivity | auto].
  - cbn [CandidateCheckingWorker].
    assert (Htask : exists st1,
               CandidateChecking_task shl_wide TASK_SIZE cFilter k dir round t st
               = Some st1 /\ 0 <= p1_marks st1 < 2 ^ 64 /\
               forall path m, p1_fs st1 !! path = Some m ->
                 p1_fs st !! path = Some m \/ (path = name t /\ m = mask t)).
    { destruct (le_lt_dec (k + 2) (length (str t))) as [Hlen|Hlen].
      - rewrite (CandidateChecking_task_spec shl_wide TASK_SIZE cFilter k dir
                   round t st k_fits Hlen Hm).
        eexists. split; [reflexivity|]. cbn [p1_marks p1_fs]. split.
        + unfold u64. apply Z.mod_pos_bound. lia.
        + intros path m. case_bool_decide; [auto|].
          destruct (decide (path = name t)) as [->|Hne].
          * rewrite lookup_insert_eq. intros [= <-]. auto.
          * rewrite lookup_insert_ne by auto. auto.
      - exists st. split; [|split; [exact Hm | auto]].
        unfold CandidateChecking_task.
        destruct (length (str t) <? k)%nat; [reflexivity|].
        replace (k + 2 <=? length (str t))%nat with false
          by (symmetry; apply Nat.leb_gt; lia).
        reflexivity. }
    destruct Htask as (st1 & E1 & M1 & F1). rewrite E1.
    destruct (IH st1 M1) as (st' & E' & F').
    exists st'. split; [exact E'|].
    intros path m Hf. destruct (F' path m Hf) as [Hf1|(t' & Ht' & Hrest)].
    + destruct (F1 path m Hf1) as [Hf0|[-> ->]]; [now left|].
      right. exists t. split; [now left | auto].
    + right. exists t'. split; [now right | exact Hrest].
Qed.

End MaskFiles.

Section Soundness.

Context {F : Type} `{CuckooFilterLaws F}.
Variable shl_wide : Z -> Z -> Z.
Variable TASK_SIZE : nat.
Variable readFromFile : string -> bool -> gmap string F -> string + F.
Variable RawPositiveHash RawNegativeHash : list ascii -> Z.
Variable traversal : OccurenceSet -> list Occurence.t.
Variable k : nat.
Variable records : list (list ascii).

Hypothesis size_fits : (k + 2 <= TASK_SIZE)%nat.
Hypothesis k_fits : Z.of_nat k < 2 ^ 64.
Hypothesis records_fit : Z.of_nat (length records) < 2 ^ 64.
Hypothesis lengths_fit :
  Forall (fun r => Z.of_nat (length r) < 2 ^ 64) records.

(** What [readFromFile] yields is the filter stored under the path. *)
Hypothesis read_sound :
  forall path fs f, readFromFile path false fs = inr f -> fs !! path = Some f.

(** The mask of a chunk answers [Contain] for recorded positions only. *)
Hypothesis mask_exact :
  forall ps x, Contain x (record_positions TASK_SIZE ps) = true ->
               exists p, In p ps /\ x = Z.of_nat p.

(** The iterator of the set yields elements of the set. *)
Hypothesis traversal_sound : forall s x, In x (traversal s) -> In x s.

Variable realSize : nat.
Variable dir : string.
Variable round : Z.
Variables order1a order1b order2 : list Task.

Local Abbreviation ts := (DistributeTasks TASK_SIZE (k + 1) records).
Local Abbreviation name t :=
  (CandidateMaskFileName dir (seqId t) (start t) round).

Hypothesis tasks1b : forall t, In t order1b -> In t ts.
Hypothesis tasks2 : forall t, In t order2 -> In t ts.

(** No mask file of the round is left over from an earlier run. *)
Variable fs : gmap string F.
Hypothesis clean : forall t, In t ts -> fs !! name t = None.

Local Abbreviation now_at s pos :=
  (candidate_occurence RawPositiveHash RawNegativeHash k s pos).

(** An occurrence met in pass 2 is a definite window of a record with
    its flanks. *)
Lemma trace_occurrence (cF : F) (st1 : Pass1bState) (x : Occurence.t) :
  CandidateCheckingWorker shl_wide TASK_SIZE cF k dir round order1b
    {| p1_fs := fs; p1_error := None; p1_marks := 0 |} = Some st1 ->
  In x (queue_occurences TASK_SIZE readFromFile RawPositiveHash
          RawNegativeHash k dir round (p1_fs st1) order2) ->
  exists w px ex,
    x = Occurence.Set_ (RawPositiveHash w) (RawNegativeHash w) w ex px false /\
    definite w /\ length w = k /\ read_with_flanks records px w ex.
Proof.
  intros E1 Hx.
  destruct (DistributeTasks_all_chunks TASK_SIZE k size_fits records
              records_fit lengths_fit) as [pc' Hc].
  destruct (CandidateCheckingWorker_files shl_wide TASK_SIZE cF k k_fits dir
              round order1b {| p1_fs := fs; p1_error := None; p1_marks := 0 |})
    as (st1' & E1' & Hfiles); [cbn; lia|].
  rewrite E1 in E1'. injection E1' as <-. cbn [p1_fs] in Hfiles.
  unfold queue_occurences in Hx. apply in_flat_map in Hx as (t & Ht & Hx).
  unfold task_occurences in Hx.
  destruct (k + 2 <=? length (str t))%nat eqn:Elen; [|destruct Hx].
  apply Nat.leb_le in Elen.
  apply in_map_iff in Hx as (p & <- & Hp).
  apply list_elem_of_In, list_elem_of_filter in Hp as [Hc_p Hp].
  apply list_elem_of_In, in_seq in Hp.
  (* the mask read is the one pass 1b wrote for the task *)
  assert (Hmarked : In p (marked_positions shl_wide cF k (str t))).
  { unfold load_mask in Hc_p.
    destruct (readFromFile (name t) false (p1_fs st1)) as [msg|f] eqn:Er;
      cbn [fst] in Hc_p.
    - rewrite Contain_new in Hc_p. discriminate Hc_p.
    - apply read_sound in Er.
      destruct (Hfiles _ _ Er) as [Hold|(t' & Ht' & Hname & ->)].
      + rewrite (clean t (tasks2 t Ht)) in Hold. discriminate Hold.
      + apply CandidateMaskFileName_inj in Hname as [Hs Hst].
        assert (t = t') as <-.
        { apply (all_chunks_unique TASK_SIZE k size_fits 0 records ts pc' Hc);
            auto. }
        destruct (mask_exact _ _ Hc_p) as (q & Hq & Hpq).
        apply Nat2Z.inj in Hpq. now subst q. }
  unfold marked_positions in Hmarked.
  apply list_elem_of_In, list_elem_of_filter in Hmarked as [[Hd _] _].
  apply definiteb_spec in Hd.
  exists (StdString.substr (str t) p k), (StdString.at_ (str t) (p - 1)),
    (StdString.at_ (str t) (p + k)).
  split; [reflexivity|]. split; [exact Hd|].
  split; [apply substr_length; lia|].
  (* the window with its flanks is a factor of the padded record *)
  pose proof (all_chunks_shape TASK_SIZE k size_fits _ _ _ _ _ Hc) as Hshape.
  rewrite Forall_forall in Hshape.
  destruct (Hshape t ltac:(apply list_elem_of_In; auto))
    as (j & r & st & Hj & (_ & _ & Hfit & Hstr) & _).
  exists r. split; [apply list_elem_of_In, list_elem_of_lookup; eauto|].
  assert (Hwin : StdString.substr (str t) (p - 1) (k + 2)
                 = StdString.at_ (str t) (p - 1)
                   :: StdString.substr (str t) p k
                   ++ [StdString.at_ (str t) (p + k)]).
  { replace (k + 2)%nat with (S (S k)) by lia.
    rewrite substr_cons by lia.
    replace (S (p - 1)) with p by lia.
    rewrite substr_snoc by lia. reflexivity. }
  rewrite <- Hwin, Hstr.
  rewrite (substr_substr TASK_SIZE k size_fits) by lia.
  apply substr_occurs. lia.
Qed.

(** X23.  Every k-mer in the stream of a round is a k-mer of the
    records, in canonical form, and was read (on either strand) at two
    places where the characters observed beside it differ, or at a place
    beside an indefinite character or an end of a record: pass 2 flags on
    the evidence of the input, and a false positive of the edge filter
    can mark a position but cannot by itself flag a k-mer (mask files
    read back as written, none left over from an earlier run, and chunk
    masks that answer for recorded positions only). *)
Theorem reported_junctions_are_read (stream : list (list Z)) (b : list Z) :
  Round_stream shl_wide TASK_SIZE readFromFile RawPositiveHash RawNegativeHash
    traversal k realSize dir round order1a order1b order2 fs = Some stream ->
  In b stream ->
  exists v,
    definite v /\ length v = k /\ canonical v = v /\
    b = Occurence.codes v /\
    (read_differently records v \/ beside_gap records v).
Proof.
  intros Hstream Hb. unfold Round_stream, Round in Hstream.
  destruct (FilterFillerWorker shl_wide (k + 1) order1a (cf_new realSize))
    as [cF|]; [|discriminate Hstream].
  destruct (CandidateCheckingWorker shl_wide TASK_SIZE cF k dir round order1b
              {| p1_fs := fs; p1_error := None; p1_marks := 0 |})
    as [st1|] eqn:E1; [|discriminate Hstream].
  destruct (p1_error st1); cbn [after_join] in Hstream;
    [discriminate Hstream|].
  destruct (trace_inv_worker TASK_SIZE readFromFile RawPositiveHash
              RawNegativeHash k dir round (p1_fs st1) order2
              {| p2_set := []; p2_error := None |} [] trace_inv_nil)
    as (st2 & E2 & (_ & _ & Hev)).
  rewrite E2 in Hstream. cbn [app] in Hev.
  destruct (p2_error st2); cbn [after_join] in Hstream;
    [discriminate Hstream|].
  unfold TrueBifurcations in Hstream.
  rewrite TrueBifurcations_loop_spec in Hstream by lia.
  injection Hstream as <-. cbn [app] in Hb.
  apply in_map_iff in Hb as (e & <- & He).
  apply list_elem_of_In, list_elem_of_filter in He as [Hflag He].
  apply list_elem_of_In, traversal_sound in He.
  destruct (Hev e He) as (i & x & Hi & Hbx & _ & _ & Hf).
  destruct (Hf Hflag) as (j & y & _ & Hj & Hby & Hconf).
  assert (Hx : In x (queue_occurences TASK_SIZE readFromFile RawPositiveHash
                       RawNegativeHash k dir round (p1_fs st1) order2))
    by (apply list_elem_of_In, list_elem_of_lookup; eauto).
  assert (Hy : In y (queue_occurences TASK_SIZE readFromFile RawPositiveHash
                       RawNegativeHash k dir round (p1_fs st1) order2))
    by (apply list_elem_of_In, list_elem_of_lookup; eauto).
  destruct (trace_occurrence cF st1 x E1 Hx)
    as (wx & px & ex & -> & Dx & Lx & Rx).
  destruct (trace_occurrence cF st1 y E1 Hy)
    as (wy & py & ey & -> & Dy & Ly & Ry).
  destruct (Set_stores (RawPositiveHash wx) (RawNegativeHash wx) wx ex px false)
    as (Bx & Px & Nx & _).
  destruct (Set_stores (RawPositiveHash wy) (RawNegativeHash wy) wy ey py false)
    as (By & Py & Ny & _).
  rewrite Bx in Hbx. rewrite Bx, By in Hby. rewrite Px, Py, Nx, Ny in Hconf.
  assert (Hv : canonical wy = canonical wx).
  { apply codes_inj; auto using canonical_definite. }
  pose proof (canonical_idempotent wx Dx) as Hidem.
  exists (canonical wx).
  split; [now apply canonical_definite|].
  split; [now rewrite canonical_length|].
  split; [exact Hidem|].
  split; [unfold Occurence.GetBase; congruence|].
  assert (Hdiff : px <> py \/ ex <> ey ->
                  read_differently records (canonical wx)).
  { intros Hd. exists px, wx, ex, py, wy, ey. rewrite Hidem. auto 10. }
  destruct Hconf as [Hn|[Hp|[[_ Hp]|[_ Hn]]]].
  - left. apply Hdiff. now right.
  - left. apply Hdiff. now left.
  - right. exists px, wx, ex. rewrite Hidem. auto.
  - right. exists px, wx, ex. rewrite Hidem. auto.
Qed.

End Soundness.

Lemma ExactFilter_mask_exact (TASK_SIZE : nat) (ps : list nat) (x : Z) :
  Contain (F := gset Z) x (record_positions TASK_SIZE ps) = true ->
  exists p, In p ps /\ x = Z.of_nat p.
Proof.
  unfold record_positions.
  assert (Hgen : forall f : gset Z,
             Contain x (fold_left (fun f p => add_if_absent (Z.of_nat p) f) ps f)
             = true ->
             Contain x f = true \/ exists p, In p ps /\ x = Z.of_nat p).
  { induction ps as [|p ps IH]; intros f Hx; cbn [fold_left] in Hx; [now left|].
    destruct (IH _ Hx) as [Hf|(q & Hq & ->)].
    - unfold add_if_absent in Hf. cbn [Contain Add ExactFilter] in Hf |- *.
      apply bool_decide_eq_true in Hf.
      destruct (bool_decide (Z.of_nat p ∈ f));
        [left; now apply bool_decide_eq_true|].
      apply elem_of_union in Hf as [Hf|Hf].
      + apply elem_of_singleton in Hf. right. exists p. split; [now left | exact Hf].
      + left. now apply bool_decide_eq_true.
    - right. exists q. split; [now right | reflexivity]. }
  intros Hx. destruct (Hgen _ Hx) as [Hf|Hp]; [|exact Hp].
  cbn in Hf. discriminate Hf.
Qed.

Lemma reported_junctions_are_read_witness :
  exists v,
    definite v /\ length v = 3%nat /\ canonical v = v /\
    [0; 1; 2] = Occurence.codes v /\
    (read_differently two_strand_sample v \/ beside_gap two_strand_sample v).
Proof.
  apply (reported_junctions_are_read (F := gset Z) shl_masked 16 read_stored
           (fun _ => 0) (fun _ => 0) (fun s => s) 3 two_strand_sample
           ltac:(lia) ltac:(lia) ltac:(cbn; lia)
           ltac:(repeat (constructor; [cbn; lia|]); constructor)
           ltac:(intros path fs f; unfold read_stored;
                 destruct (fs !! path); [intros [= ->]; reflexivity | discriminate])
           (ExactFilter_mask_exact 16)
           ltac:(intros s x Hx; exact Hx)
           8 "tmp" 0
           (DistributeTasks 16 (3 + 1) two_strand_sample)
           (DistributeTasks 16 (3 + 1) two_strand_sample)
           (DistributeTasks 16 (3 + 1) two_strand_sample)
           ltac:(intros t Ht; exact Ht) ltac:(intros t Ht; exact Ht)
           ∅ ltac:(intros t Ht; apply lookup_empty)
           [[0; 1; 2]] [0; 1; 2]).
  - vm_compute. reflexivity.
  - left. reflexivity.
Defined.

(** ** The counter of occurrences counts the tuples written *)

Section CountFacts.

Context {F : Type} `{CuckooFilter F}.
Variable TASK_SIZE : nat.
Variable readFromFile : string -> bool -> gmap string F -> string + F.
Variable GetId : list ascii -> Z.
Variable INVALID_VERTEX : Z.
Variable k : nat.
Variable totalRounds : nat.
Variable tmpDirectory : string.
Variable fs : gmap string F.

Local Abbreviation worker_step :=
  (worker_step TASK_SIZE readFromFile GetId INVALID_VERTEX k totalRounds
     tmpDirectory fs).
Local Abbreviation step :=
  (step TASK_SIZE readFromFile GetId INVALID_VERTEX k totalRounds
     tmpDirectory fs).







End CountFacts.

(** ** Runs under a schedule are runs of the stage *)

Section ScheduleFacts.

Context {F : Type} `{CuckooFilter F}.
Variable TASK_SIZE : nat.
Variable readFromFile : string -> bool -> gmap string F -> string + F.
Variable GetId : list ascii -> Z.
Variable INVALID_VERTEX : Z.
Variable k : nat.
Variable totalRounds : nat.
Variable tmpDirectory : string.
Variable fs : gmap string F.

Local Abbreviation worker_step :=
  (worker_step TASK_SIZE readFromFile GetId INVALID_VERTEX k totalRounds
     tmpDirectory fs).
Local Abbreviation step :=
  (step TASK_SIZE readFromFile GetId INVALID_VERTEX k totalRounds
     tmpDirectory fs).
Local Abbreviation turn :=
  (worker_turn TASK_SIZE readFromFile GetId INVALID_VERTEX k totalRounds
     tmpDirectory fs).
Local Abbreviation run :=
  (run_schedule TASK_SIZE readFromFile GetId INVALID_VERTEX k totalRounds
     tmpDirectory fs).

Lemma worker_turn_sound (flush : bool) (w w' : @Worker F) (sh sh' : Shared) :
  turn flush w sh = Some (w', sh') -> worker_step w sh w' sh'.
Proof.
  intros E. destruct w as [queue result phase]. unfold worker_turn in E.
  cbn [w_phase w_queue w_result] in E.
  destruct phase as [|task cf pos dc cur| |].
  - destruct queue as [|task queue].
    + injection E as <- <-. apply step_game_over.
    + destruct (length (str task) <? k + 2)%nat eqn:L.
      * injection E as <- <-. apply step_skip. apply Nat.ltb_lt in L. lia.
      * destruct (load_masks TASK_SIZE readFromFile totalRounds tmpDirectory
                    task fs (e_error sh)) as [cf err] eqn:M.
        injection E as <- <-. apply Nat.ltb_ge in L.
        eapply step_begin; [lia | exact M].
  - destruct (FlushEdgeResults result (e_writer sh) (e_currentPiece sh))
      as [[[flushed result'] writer'] piece'] eqn:Fl.
    destruct (flush && flushed) eqn:B.
    + injection E as <- <-. apply andb_true_iff in B as [_ ->].
      eapply step_flush; [exact I | exact Fl].
    + destruct (EdgeConstruction_body GetId INVALID_VERTEX k task cf pos dc
                  (junction cur, e_occurences sh, e_stub sh))
        as [[junctions occ] stub] eqn:Bd.
      destruct (pos + (k + 1) <? length (str task))%nat eqn:L;
        injection E as <- <-.
      * eapply step_iterate; [exact Bd | apply Nat.ltb_lt in L; lia].
      * eapply step_finish; [exact Bd | apply Nat.ltb_ge in L; lia].
  - destruct result as [|r result].
    + injection E as <- <-. apply step_exit.
    + destruct (FlushEdgeResults (r :: result) (e_writer sh) (e_currentPiece sh))
        as [[[[] result'] writer'] piece'] eqn:Fl; [|discriminate E].
      injection E as <- <-. eapply step_flush; [exact I | exact Fl].
  - discriminate E.
Qed.

Lemma run_schedule_sound (schedule : list (nat * bool)) :
  forall st st' : @State F, run schedule st = Some st' -> rtc step st st'.
Proof.
  induction schedule as [|[i flush] schedule IH]; intros [ws sh] st' E;
    cbn [run_schedule fst snd] in E.
  - injection E as <-. apply rtc_refl.
  - destruct (ws !! i) as [w|] eqn:Hi; [|discriminate E].
    destruct (turn flush w sh) as [[w' sh']|] eqn:Ht; [|discriminate E].
    eapply rtc_l; [|apply IH; exact E].
    apply (step_worker _ _ _ _ _ _ _ _ i ws sh w w' sh' Hi).
    now apply (worker_turn_sound flush).
Qed.

Lemma run_schedule_nsteps (schedule : list (nat * bool)) :
  forall st st' : @State F,
    run schedule st = Some st' -> nsteps step (length schedule) st st'.
Proof.
  induction schedule as [|[i flush] schedule IH]; intros [ws sh] st' E;
    cbn [run_schedule fst snd] in E.
  - injection E as <-. apply nsteps_O.
  - destruct (ws !! i) as [w|] eqn:Hi; [|discriminate E].
    destruct (turn flush w sh) as [[w' sh']|] eqn:Ht; [|discriminate E].
    cbn [length]. eapply nsteps_l; [|apply IH; exact E].
    apply (step_worker _ _ _ _ _ _ _ _ i ws sh w w' sh' Hi).
    now apply (worker_turn_sound flush).
Qed.

End ScheduleFacts.


Lemma stage_final_run :
  rtc (step (F := gset Z) 5 read_stored (fun _ => 7) (-1) 1 1 "tmp" stage_files)
    (initial_state stage_queues 5 None) stage_final.
Proof.
  apply (run_schedule_sound 5 read_stored (fun _ => 7) (-1) 1 1 "tmp" stage_files
           (waiting_schedule ++ rest_schedule)).
  vm_compute. reflexivity.
Qed.

Lemma stage_queues_tasks :
  Forall (Forall (fun t => In t stage_tasks)) stage_queues.
Proof.
  repeat (constructor; [repeat (constructor; [vm_compute; tauto|]); constructor|]).
  constructor.
Qed.

Lemma emission_output_ordered_witness :
  map (fun p => (chr_ p, pos_ p)) (e_writer (snd stage_final))
  = [(0, 0); (0, 1); (0, 2); (0, 3); (0, 4); (0, 5); (1, 0); (1, 1)] /\
  (exists flushed : list EdgeResult,
      e_writer (snd stage_final) = concat (map junction flushed) /\
      e_currentPiece (snd stage_final) = Z.of_nat (length flushed) /\
      Forall2 (result_of 1) (take (length flushed) stage_tasks) flushed) /\
  StronglySorted jp_lt (e_writer (snd stage_final)) /\
  (forall (i j : nat) (a b : JunctionPosition),
      (i < j)%nat ->
      e_writer (snd stage_final) !! i = Some a ->
      e_writer (snd stage_final) !! j = Some b ->
      chr_ a = chr_ b -> pos_ a < pos_ b).
Proof.
  split; [reflexivity|].
  apply (emission_output_ordered (F := gset Z) 5 read_stored (fun _ => 7) (-1)
           1 1 "tmp" stage_files stage_records stage_queues 5 None stage_final).
  - lia.
  - cbn; lia.
  - repeat (constructor; [cbn; lia|]); constructor.
  - vm_compute; reflexivity.
  - exact stage_queues_tasks.
  - exact stage_final_run.
Defined.




Lemma emission_steps_bounded_witness :
  (13 + state_weight stage_final <= state_weight stage_waiting)%nat.
Proof.
  apply (emission_steps_bounded (F := gset Z) 5 read_stored (fun _ => 7) (-1)
           1 1 "tmp" stage_files 13 stage_waiting stage_final).
  apply (run_schedule_nsteps 5 read_stored (fun _ => 7) (-1) 1 1 "tmp"
           stage_files rest_schedule).
  vm_compute. reflexivity.
Defined.
